(** * The local grid of pyjip ([jip/grids.py]): a shallow embedding

    The module implements a small local queueing system: a client-side
    facade ([LocalCluster]), a single-threaded master ([_GridMaster]) that
    owns the maps of queued and running jobs and the slot counters, and one
    executor process per running job ([_execute_job]).

    Python objects are embedded as records, dictionaries keyed by job id as
    [gmap Z _], sets of ids as [gset Z].  The master holds each job object
    under one key of one map at a time, so a map of records stands for the
    map of references, and a write to a job is a write to its entry.  A
    method of the master is a
    computation in a state-and-exception monad over the master's fields:
    the state survives a raised exception, as the attribute updates of a
    Python object do.  Recursion that the source leaves unbounded
    ([schedule], [_remove_children]) takes the number of stack frames the
    interpreter still grants; running out of them raises, as CPython does
    when the recursion limit is hit.  Logging is not modelled. *)

From Stdlib Require Import ZArith Lia Sorted.
From Stdlib Require Import Ascii String.
From stdpp Require Import gmap strings list fin_maps pretty sorting.

Local Open Scope Z_scope.

(** ** Data model *)

(** A worker process object ([multiprocessing.Process]) created by
    [_run_job]; it is identified by the job it executes and carries the
    name the source gives it. *)
Record Process := mkProcess { target_job : Z; process_name : string }.

(** [_Job]: the local job object.  [job_id] is [None] until the master
    assigns one. *)
Record _Job := mkJob {
  job_id : option Z;
  dependencies : gset Z;
  threads : Z;
  cmd : option string;
  working_directory : option string;
  stdout : option string;
  stderr : option string;
  children : gset Z;
  process : option Process
}.

(** [_Job.__init__] with its defaults. *)
Definition _Job_init (cmd cwd stdout stderr : option string)
    (dependencies : option (gset Z)) (threads : Z) (job_id : option Z) : _Job :=
  {| job_id := job_id;
     dependencies := match dependencies with None => ∅ | Some d => d end;
     threads := threads;
     cmd := cmd;
     working_directory := cwd;
     stdout := stdout;
     stderr := stderr;
     children := ∅;
     process := None |}.

Definition set_job_id (v : option Z) (j : _Job) : _Job :=
  {| job_id := v; dependencies := dependencies j; threads := threads j;
     cmd := cmd j; working_directory := working_directory j;
     stdout := stdout j; stderr := stderr j; children := children j;
     process := process j |}.

Definition set_dependencies (v : gset Z) (j : _Job) : _Job :=
  {| job_id := job_id j; dependencies := v; threads := threads j;
     cmd := cmd j; working_directory := working_directory j;
     stdout := stdout j; stderr := stderr j; children := children j;
     process := process j |}.

Definition set_stdout (v : option string) (j : _Job) : _Job :=
  {| job_id := job_id j; dependencies := dependencies j; threads := threads j;
     cmd := cmd j; working_directory := working_directory j;
     stdout := v; stderr := stderr j; children := children j;
     process := process j |}.

Definition set_stderr (v : option string) (j : _Job) : _Job :=
  {| job_id := job_id j; dependencies := dependencies j; threads := threads j;
     cmd := cmd j; working_directory := working_directory j;
     stdout := stdout j; stderr := v; children := children j;
     process := process j |}.

Definition set_children (v : gset Z) (j : _Job) : _Job :=
  {| job_id := job_id j; dependencies := dependencies j; threads := threads j;
     cmd := cmd j; working_directory := working_directory j;
     stdout := stdout j; stderr := stderr j; children := v;
     process := process j |}.

Definition set_process (v : option Process) (j : _Job) : _Job :=
  {| job_id := job_id j; dependencies := dependencies j; threads := threads j;
     cmd := cmd j; working_directory := working_directory j;
     stdout := stdout j; stderr := stderr j; children := children j;
     process := v |}.

(** Ordering of ids as Python 2 orders them: [None] sorts before every
    integer. *)
Definition id_lt (a b : option Z) : bool :=
  match a, b with
  | Some x, Some y => x <? y
  | None, Some _ => true
  | _, None => false
  end.

(** [_Job.__lt__] *)
Definition _Job_lt (self other : _Job) : bool :=
  let num_deps := size (dependencies self) in
  let o_deps := size (dependencies other) in
  if (num_deps =? o_deps)%nat
  then id_lt (job_id self) (job_id other)
  else (num_deps <? o_deps)%nat.

(** The messages of the request queue: a command name followed by its
    parameters.  The id of [DONE] and [FAILED] is the integer the master
    gave the executor; the id of [CANCEL] is the [job_id] field of the
    client's job, [None] when that is not an integer. *)
Inductive Msg :=
| EXIT
| JOBS
| SUBMIT (job : _Job)
| WAIT
| DONE (id : Z) (state : Z)
| FAILED (id : Z) (error : string)
| CANCEL (id : option Z).

(** What the master puts on the response queue. *)
Inductive Reply :=
| ReplyId (id : Z)
| ReplyJobs (ids : list Z).

(** Operations the master performs on worker processes. *)
Inductive ProcEvent :=
| Started (p : Process)
| Terminated (p : Process)
| Joined (p : Process).

Inductive exn :=
| AttributeError (name : string)
| KeyError (key : Z)
| RecursionError
| TypeError
| SubmissionError (msg : string)
| AssertionError.

(** The order in which the dictionaries of the interpreter hand out their
    items.  The language leaves it open; all that is known of it is that
    every item comes exactly once. *)
Record DictOrder := mkDictOrder {
  iteritems : gmap Z _Job → list (Z * _Job);
  iteritems_perm : ∀ m, iteritems m ≡ₚ map_to_list m
}.

(** The master: the fields set by [_GridMaster.__init__].  [response] is
    the content of the response queue, oldest first; [os_events] records
    the process operations performed so far; [dict_order] is the order in
    which the interpreter that runs the master iterates dictionaries. *)
Record _GridMaster := mkMaster {
  response : list Reply;
  queued : gmap Z _Job;
  running : gmap Z _Job;
  slots_available : Z;
  slots_total : Z;
  wait_mode : bool;
  _current_id : Z;
  os_events : list ProcEvent;
  dict_order : DictOrder
}.

(** [_GridMaster.__init__]; [cpu_count] is what
    [multiprocessing.cpu_count()] returns on the machine, [order] the
    dictionary order of the interpreter. *)
Definition _GridMaster_init (order : DictOrder) (cpu_count : Z) (cores : option Z)
    : _GridMaster :=
  let slots :=
    match cores with
    | None => cpu_count
    | Some c => if c =? 0 then cpu_count else c
    end in
  {| response := [];
     queued := ∅;
     running := ∅;
     slots_available := slots;
     slots_total := slots;
     wait_mode := false;
     _current_id := 0;
     os_events := [];
     dict_order := order |}.

(** [_GridMaster.create_master] builds the master without [cores]. *)
Definition create_master (order : DictOrder) (cpu_count : Z) : _GridMaster :=
  _GridMaster_init order cpu_count None.

Definition set_response (v : list Reply) (s : _GridMaster) : _GridMaster :=
  {| response := v; queued := queued s; running := running s;
     slots_available := slots_available s; slots_total := slots_total s;
     wait_mode := wait_mode s; _current_id := _current_id s;
     os_events := os_events s;
     dict_order := dict_order s |}.

Definition set_queued (v : gmap Z _Job) (s : _GridMaster) : _GridMaster :=
  {| response := response s; queued := v; running := running s;
     slots_available := slots_available s; slots_total := slots_total s;
     wait_mode := wait_mode s; _current_id := _current_id s;
     os_events := os_events s;
     dict_order := dict_order s |}.

Definition set_running (v : gmap Z _Job) (s : _GridMaster) : _GridMaster :=
  {| response := response s; queued := queued s; running := v;
     slots_available := slots_available s; slots_total := slots_total s;
     wait_mode := wait_mode s; _current_id := _current_id s;
     os_events := os_events s;
     dict_order := dict_order s |}.

Definition set_slots_available (v : Z) (s : _GridMaster) : _GridMaster :=
  {| response := response s; queued := queued s; running := running s;
     slots_available := v; slots_total := slots_total s;
     wait_mode := wait_mode s; _current_id := _current_id s;
     os_events := os_events s;
     dict_order := dict_order s |}.

Definition set_wait_mode (v : bool) (s : _GridMaster) : _GridMaster :=
  {| response := response s; queued := queued s; running := running s;
     slots_available := slots_available s; slots_total := slots_total s;
     wait_mode := v; _current_id := _current_id s;
     os_events := os_events s;
     dict_order := dict_order s |}.

Definition set_current_id (v : Z) (s : _GridMaster) : _GridMaster :=
  {| response := response s; queued := queued s; running := running s;
     slots_available := slots_available s; slots_total := slots_total s;
     wait_mode := wait_mode s; _current_id := v;
     os_events := os_events s;
     dict_order := dict_order s |}.

Definition set_os_events (v : list ProcEvent) (s : _GridMaster) : _GridMaster :=
  {| response := response s; queued := queued s; running := running s;
     slots_available := slots_available s; slots_total := slots_total s;
     wait_mode := wait_mode s; _current_id := _current_id s;
     os_events := v;
     dict_order := dict_order s |}.

(** ** The monad of master methods *)

Inductive outcome (A : Type) :=
| Ok (a : A)
| Raise (e : exn).
Arguments Ok {A} a.
Arguments Raise {A} e.

Definition M (A : Type) : Type := _GridMaster → _GridMaster * outcome A.

Definition ret {A} (a : A) : M A := λ s, (s, Ok a).

Definition bind {A B} (m : M A) (k : A → M B) : M B :=
  λ s, match m s with
       | (s', Ok a) => k a s'
       | (s', Raise e) => (s', Raise e)
       end.

Definition raise {A} (e : exn) : M A := λ s, (s, Raise e).
Definition get : M _GridMaster := λ s, (s, Ok s).
Definition modify (f : _GridMaster → _GridMaster) : M unit := λ s, (f s, Ok tt).

Notation "x <- m ;; k" := (bind m (λ x, k))
  (at level 100, m at next level, right associativity, only parsing).
Notation "m ;; k" := (bind m (λ _, k))
  (at level 100, right associativity, only parsing).

(** [for x in xs: body(x)], left to right; an exception ends the loop. *)
Fixpoint for_each {A} (xs : list A) (body : A → M unit) : M unit :=
  match xs with
  | [] => ret tt
  | x :: xs' => body x ;; for_each xs' body
  end.

(** ** Primitive operations on the master's fields *)

(** [del self.queued[k]] *)
Definition del_queued (k : Z) : M unit :=
  s <- get ;;
  match queued s !! k with
  | Some _ => modify (set_queued (delete k (queued s)))
  | None => raise (KeyError k)
  end.

(** [del self.running[k]] *)
Definition del_running (k : Z) : M unit :=
  s <- get ;;
  match running s !! k with
  | Some _ => modify (set_running (delete k (running s)))
  | None => raise (KeyError k)
  end.

(** [self.slots_available += n] *)
Definition add_slots (n : Z) : M unit :=
  modify (λ s, set_slots_available (slots_available s + n) s).

Definition emit (e : ProcEvent) : M unit :=
  modify (λ s, set_os_events (os_events s ++ [e]) s).

(** [self.response.put(r)] *)
Definition response_put (r : Reply) : M unit :=
  modify (λ s, set_response (response s ++ [r]) s).

(** [job.process.join()] and [job.process.terminate()]: an attribute
    access on [None] raises. *)
Definition process_join (job : _Job) : M unit :=
  match process job with
  | Some p => emit (Joined p)
  | None => raise (AttributeError "join")
  end.

Definition process_terminate (job : _Job) : M unit :=
  match process job with
  | Some p => emit (Terminated p)
  | None => raise (AttributeError "terminate")
  end.

(** ** Methods of the master *)

(** [_GridMaster._next_id] *)
Definition _next_id : M Z :=
  modify (λ s, set_current_id (_current_id s + 1) s) ;;
  s <- get ;;
  ret (_current_id s).

(** [self.queued[c].dependencies.remove(job.job_id)] inside its
    [try ... except KeyError]: an id that is not in the set leaves it
    unchanged. *)
Definition remove_dependency (id : option Z) (child : _Job) : _Job :=
  match id with
  | Some i => set_dependencies (dependencies child ∖ {[ i ]}) child
  | None => child
  end.

(** [_GridMaster._update_dependencies] *)
Definition _update_dependencies (job : _Job) : M unit :=
  for_each (elements (children job)) (λ c,
    s <- get ;;
    match queued s !! c with
    | Some cj =>
        modify (set_queued (<[c := remove_dependency (job_id job) cj]> (queued s)))
    | None => ret tt
    end).

(** [_GridMaster._remove_children]; [depth] is the number of frames left.
    The job object bound to [child] keeps its [children] and [job_id]
    through the nested calls, which only rewrite [dependencies]. *)
Fixpoint _remove_children (depth : nat) (job : _Job) : M unit :=
  match depth with
  | O => raise RecursionError
  | S depth' =>
      for_each (elements (children job)) (λ c,
        s <- get ;;
        match queued s !! c with
        | Some child =>
            _remove_children depth' child ;;
            _update_dependencies child ;;
            del_queued c
        | None => ret tt
        end)
  end.

(** [job.job_id in self.queued] *)
Definition id_in (id : option Z) (m : gmap Z _Job) : bool :=
  match id with
  | Some i => bool_decide (is_Some (m !! i))
  | None => false
  end.

(** [_GridMaster._run_job] *)
Definition _run_job (job : _Job) : M unit :=
  s <- get ;;
  match job_id job with
  | Some id =>
      if bool_decide (is_Some (queued s !! id)) then
        let proc := {| target_job := id;
                       process_name := "worker-" +:+ pretty id |} in
        let job' := set_process (Some proc) job in
        modify (λ s, set_running (<[id := job']> (running s)) s) ;;
        del_queued id ;;
        emit (Started proc)
      else ret tt
  | None => ret tt
  end.

(** [sorted(...)] on jobs: a stable sort that compares with [__lt__] only.
    An element goes in front of the first one that is not smaller than it,
    so equal elements keep their order. *)
Fixpoint insert_sorted (x : _Job) (l : list _Job) : list _Job :=
  match l with
  | [] => [x]
  | y :: l' => if _Job_lt y x then y :: insert_sorted x l' else x :: l
  end.

Definition sorted (l : list _Job) : list _Job := foldr insert_sorted [] l.

(** [d.values()] and [d.keys()], in the order the dictionary iterates. *)
Definition values (order : DictOrder) (m : gmap Z _Job) : list _Job :=
  (iteritems order m).*2.
Definition keys (order : DictOrder) (m : gmap Z _Job) : list Z :=
  (iteritems order m).*1.

(** The [for job in sorted_jobs] loop of [schedule]; [restart] is the
    recursive call [self.schedule()]. *)
Fixpoint schedule_scan (restart : M unit) (sorted_jobs : list _Job) : M unit :=
  match sorted_jobs with
  | [] => ret tt
  | job :: rest =>
      if (0 <? size (dependencies job))%nat then ret tt
      else
        s <- get ;;
        if threads job <=? slots_available s then
          _run_job job ;;
          add_slots (- threads job) ;;
          s' <- get ;;
          if 1 <=? slots_available s' then restart else ret tt
        else schedule_scan restart rest
  end.

(** [_GridMaster.schedule] *)
Fixpoint schedule (depth : nat) : M unit :=
  match depth with
  | O => raise RecursionError
  | S depth' =>
      s <- get ;;
      schedule_scan (schedule depth') (sorted (values (dict_order s) (queued s)))
  end.

(** [str.replace("%J", r)] *)
Fixpoint replace_J (r path : string) : string :=
  match path with
  | EmptyString => EmptyString
  | String c rest =>
      match rest with
      | String c' rest' =>
          if Ascii.eqb c "%"%char && Ascii.eqb c' "J"%char
          then r +:+ replace_J r rest'
          else String c (replace_J r rest)
      | EmptyString => String c EmptyString
      end
  end.

(** [_GridMaster._resolve_log] *)
Definition _resolve_log (job_id : Z) (path : option string) : option string :=
  match path with
  | None => None
  | Some p => Some (replace_J (pretty job_id) p)
  end.

(** [_GridMaster._handle_exit] *)
Definition _handle_exit : M bool :=
  s <- get ;;
  for_each (iteritems (dict_order s) (running s)) (λ '(_, p),
    process_terminate p ;; process_join p) ;;
  ret false.

(** [_GridMaster._handle_wait] *)
Definition _handle_wait : M bool :=
  s <- get ;;
  (if negb (wait_mode s) then modify (set_wait_mode true) else ret tt) ;;
  ret true.

(** [_GridMaster._handle_jobs] *)
Definition _handle_jobs : M bool :=
  s <- get ;;
  response_put
    (ReplyJobs (keys (dict_order s) (queued s) ++ keys (dict_order s) (running s))) ;;
  ret true.

(** [self.queued[d].children.add(job_id)] and the same on [running] *)
Definition add_child (job_id : Z) (j : _Job) : _Job :=
  set_children (children j ∪ {[ job_id ]}) j.

(** The body of the [for d in job.dependencies] loop of [_handle_submit]. *)
Definition register_child (job_id : Z) (d : Z) : M unit :=
  s <- get ;;
  (match queued s !! d with
   | Some dj => modify (set_queued (<[d := add_child job_id dj]> (queued s)))
   | None => ret tt
   end) ;;
  s <- get ;;
  match running s !! d with
  | Some dj => modify (set_running (<[d := add_child job_id dj]> (running s)))
  | None => ret tt
  end.

(** [_GridMaster._handle_submit] *)
Definition _handle_submit (depth : nat) (job : _Job) : M bool :=
  job_id <- _next_id ;;
  let job := set_job_id (Some job_id) job in
  let job := set_stdout (_resolve_log job_id (stdout job)) job in
  let job := set_stderr (_resolve_log job_id (stderr job)) job in
  modify (λ s, set_queued (<[job_id := job]> (queued s)) s) ;;
  for_each (elements (dependencies job)) (register_child job_id) ;;
  response_put (ReplyId job_id) ;;
  s <- get ;;
  (if 1 <=? slots_available s then schedule depth else ret tt) ;;
  ret true.

(** [_GridMaster._handle_done] *)
Definition _handle_done (depth : nat) (job_id state : Z) : M bool :=
  s <- get ;;
  match running s !! job_id with
  | Some job =>
      process_join job ;;
      let job := set_process None job in
      modify (λ s, set_running (<[job_id := job]> (running s)) s) ;;
      add_slots (threads job) ;;
      _update_dependencies job ;;
      (if negb (state =? 0) then _remove_children depth job else ret tt) ;;
      del_running job_id ;;
      schedule depth ;;
      ret true
  | None => ret true
  end.

(** [self.unning]: the master has no such attribute. *)
Definition attr_unning : M (gmap Z _Job) := raise (AttributeError "unning").

(** [_GridMaster._handle_failed] *)
Definition _handle_failed (depth : nat) (job_id : Z) (error : string) : M bool :=
  unning <- attr_unning ;;
  match unning !! job_id with
  | Some _ =>
      s <- get ;;
      match running s !! job_id with
      | Some job =>
          let job := set_process None job in
          modify (λ s, set_running (<[job_id := job]> (running s)) s) ;;
          _update_dependencies job ;;
          _remove_children depth job ;;
          add_slots (threads job) ;;
          del_running job_id ;;
          schedule depth ;;
          ret true
      | None => raise (KeyError job_id)
      end
  | None => ret true
  end.

(** [_GridMaster._handle_cancel] *)
Definition _handle_cancel (depth : nat) (arg : option Z) : M bool :=
  job_id <- match arg with Some i => ret i | None => raise TypeError end ;;
  s <- get ;;
  job <-
    match running s !! job_id with
    | Some job =>
        process_terminate job ;;
        process_join job ;;
        let job := set_process None job in
        add_slots (threads job) ;;
        del_running job_id ;;
        ret (Some job)
    | None =>
        match queued s !! job_id with
        | Some job => del_queued job_id ;; ret (Some job)
        | None => ret None
        end
    end ;;
  match job with
  | Some job =>
      _update_dependencies job ;;
      _remove_children depth job ;;
      schedule depth ;;
      ret true
  | None => ret true
  end.

(** The handler table of [start] applied to a message. *)
Definition dispatch (depth : nat) (msg : Msg) : M bool :=
  match msg with
  | EXIT => _handle_exit
  | JOBS => _handle_jobs
  | SUBMIT job => _handle_submit depth job
  | WAIT => _handle_wait
  | DONE id state => _handle_done depth id state
  | FAILED id error => _handle_failed depth id error
  | CANCEL id => _handle_cancel depth id
  end.

(** [_GridMaster._num_jobs] *)
Definition _num_jobs (s : _GridMaster) : nat :=
  (size (queued s) + size (running s))%nat.

(** Why the loop of [start] stopped, or that it waits for a message. *)
Inductive LoopEnd :=
| Drained
| HandlerStopped
| HandlerRaised (e : exn)
| AwaitsMessage.

(** [_GridMaster.start]: the loop run on the messages that arrive on the
    request queue, in their order.  The result is the master's state, the
    messages left unread and how the loop ended. *)
Fixpoint start (depth : nat) (requests : list Msg) (s : _GridMaster)
    : _GridMaster * list Msg * LoopEnd :=
  if wait_mode s && (_num_jobs s =? 0)%nat then (s, requests, Drained)
  else
    match requests with
    | [] => (s, [], AwaitsMessage)
    | msg :: rest =>
        match dispatch depth msg s with
        | (s', Ok true) => start depth rest s'
        | (s', Ok false) => (s', rest, HandlerStopped)
        | (s', Raise e) => (s', rest, HandlerRaised e)
        end
    end.


(** ** The executor: [_execute_job] and [_terminate_process] *)

(** What an executor process does that is visible outside it: messages put
    on the request queue, the termination signal sent to the child, sleeps
    (in milliseconds), its exit through [sys.exit], its death from an
    exception nobody catches, and its end by the termination signal when
    no handler is installed. *)
Inductive ExecEvent :=
| Put (m : Msg)
| SendSIGTERM
| Sleep (ms : Z)
| SysExit (code : Z)
| Dies (error : string)
| Killed.

(** The points of [_execute_job] at which a termination signal can reach
    it: before [signal.signal] has installed [handle_term], and with the
    handler installed before the [try], inside it after each of its steps,
    after it, and after the final report. *)
Inductive ExecPoint :=
| BeforeHandler
| BeforeTry
| StdoutOpened
| StderrOpened
| ChildRunning
| AfterTry
| Reported.

Global Instance ExecPoint_eq_dec : EqDecision ExecPoint.
Proof. solve_decision. Defined.

(** The environment of one executor run: which [open(path, 'w')] and
    [subprocess.Popen] calls raise (with the text of the error), what
    [process.wait()] returns, whether the child is still alive at the n-th
    [process.poll()], and where SIGTERM arrives, if it does. *)
Record ExecEnv := mkExecEnv {
  fs_open : string → option string;
  os_popen : string → option string → option string;
  os_wait : Z;
  child_alive : nat → bool;
  sigterm : option ExecPoint
}.

(** The [for t in [...]: ... else: ...] loop of [_terminate_process]; [n]
    counts the calls of [poll].  The result is what was done and the text
    of the exception, if one ends the loop: the [else] branch reads
    [process._popen], which a [subprocess.Popen] object does not have. *)
Fixpoint probe (alive : nat → bool) (n : nat) (ts : list Z)
    : list ExecEvent * option string :=
  match ts with
  | [] => ([], Some "'Popen' object has no attribute '_popen'")
  | t :: ts' =>
      if alive n
      then let '(evs, exc) := probe alive (S n) ts' in (Sleep t :: evs, exc)
      else ([Sleep t], None)
  end.

(** [_terminate_process].  [process] is [None] as long as no child was
    started and tells afterwards whether [wait] has already collected the
    child; signalling a collected child raises, there being no process of
    that pid any more. *)
Definition _terminate_process (process : option bool) (alive : nat → bool)
    : list ExecEvent * option string :=
  match process with
  | None => ([], None)
  | Some true => ([SendSIGTERM], Some "[Errno 3] No such process")
  | Some false =>
      if alive O then
        let '(evs, exc) :=
          probe alive 1%nat
            [10; 10; 10; 20; 20; 20; 20; 20; 20; 100; 1000; 2000; 5000] in
        (SendSIGTERM :: evs, exc)
      else ([SendSIGTERM], None)
  end.

(** The body of the [try] of [_execute_job]: the points it passes and
    either the exit code of the child or the text of the exception. *)
Definition try_body (env : ExecEnv) (job : _Job) : list ExecPoint * (string + Z) :=
  match stdout job with
  | None => ([], inl "coercing to Unicode: need string or buffer, NoneType found")
  | Some out =>
      match fs_open env out with
      | Some err => ([], inl err)
      | None =>
          match stderr job with
          | None =>
              ([StdoutOpened],
               inl "coercing to Unicode: need string or buffer, NoneType found")
          | Some errp =>
              match fs_open env errp with
              | Some err => ([StdoutOpened], inl err)
              | None =>
                  match cmd job with
                  | None =>
                      ([StdoutOpened; StderrOpened],
                       inl "cannot concatenate 'str' and 'NoneType' objects")
                  | Some c =>
                      match os_popen env ("exec " +:+ c) (working_directory job) with
                      | Some err => ([StdoutOpened; StderrOpened], inl err)
                      | None =>
                          ([StdoutOpened; StderrOpened; ChildRunning], inr (os_wait env))
                      end
                  end
              end
          end
      end
  end.

(** [handle_term]: terminate the child, report, leave through [sys.exit];
    an exception raised on the way ends the handler before the report. *)
Definition handle_term (env : ExecEnv) (job_id : Z) (process : option bool)
    : list ExecEvent * option string :=
  match _terminate_process process (child_alive env) with
  | (evs, None) => (evs ++ [Put (DONE job_id 1); SysExit 1], None)
  | (evs, Some err) => (evs, Some err)
  end.

(** The handler run outside the [try]: an exception of the handler ends
    the process. *)
Definition handle_term_uncaught (env : ExecEnv) (job_id : Z) (process : option bool)
    : list ExecEvent :=
  match handle_term env job_id process with
  | (evs, None) => evs
  | (evs, Some err) => evs ++ [Dies err]
  end.

(** [_execute_job].  Until [signal.signal] has run, the signal has its
    default action and ends the process on the spot.  Afterwards the
    handler runs in the main thread between two steps of the interrupted
    code, and what it raises surfaces there: [SystemExit] passes the
    [except Exception] clause and ends the process; any other exception
    raised while the [try] is running is caught by that clause like a
    fault of the job.  A signal aimed at a point the run does not pass
    does not arrive during the run. *)
Definition _execute_job (env : ExecEnv) (job_id : Z) (job : _Job) : list ExecEvent :=
  let '(points, outcome) := try_body env job in
  let result := match outcome with inr code => code | inl _ => -1 end in
  let except :=
    match outcome with
    | inl err => [Put (FAILED job_id err)]
    | inr _ => []
    end in
  let process_after := match outcome with inr _ => Some true | inl _ => None end in
  let undisturbed := except ++ [Put (DONE job_id result)] in
  match sigterm env with
  | None => undisturbed
  | Some BeforeHandler => [Killed]
  | Some BeforeTry => handle_term_uncaught env job_id None
  | Some AfterTry => except ++ handle_term_uncaught env job_id process_after
  | Some Reported => undisturbed ++ handle_term_uncaught env job_id process_after
  | Some p =>
      if bool_decide (p ∈ points) then
        let process := if bool_decide (p = ChildRunning) then Some false else None in
        match handle_term env job_id process with
        | (evs, None) => evs
        | (evs, Some err) =>
            evs ++ [Put (FAILED job_id err); Put (DONE job_id (-1))]
        end
      else undisturbed
  end.

(** The messages an executor run puts on the request queue, in order. *)
Definition sent (evs : list ExecEvent) : list Msg :=
  omap (λ e, match e with Put m => Some m | _ => None end) evs.

(** Whether a message is a completion or failure notice for [job_id]. *)
Definition is_notice (job_id : Z) (m : Msg) : bool :=
  match m with
  | DONE id _ => bool_decide (id = job_id)
  | FAILED id _ => bool_decide (id = job_id)
  | _ => false
  end.

Definition is_done (job_id : Z) (m : Msg) : bool :=
  match m with
  | DONE id _ => bool_decide (id = job_id)
  | _ => false
  end.

Definition count (p : Msg → bool) (ms : list Msg) : nat :=
  length (List.filter p ms).

(** ** The client side: [LocalCluster] *)

(** The job object of the pipeline layer, as far as [LocalCluster] reads
    and writes it.  [pj_job_id] holds whatever the response queue handed
    out; [pj_dependencies] lists the [job_id] fields of the jobs it depends
    on; [pj_cluster_command] is what [get_cluster_command()] returns. *)
Record PipelineJob := mkPipelineJob {
  pj_working_directory : option string;
  pj_stdout : option string;
  pj_stderr : option string;
  pj_dependencies : list (option Reply);
  pj_cluster_command : string;
  pj_threads : Z;
  pj_job_id : option Reply
}.

(** The process object of the master. *)
Inductive MasterProcess := GridMasterProcess (name : string).

(** The fields of a [LocalCluster].  The two queues hold their content
    oldest first; [queues_closed] is set when [close()] has been called on
    them, after which [put] fails on its [assert not self._closed];
    [master_joined] is set when the client has waited for the master. *)
Record LocalCluster := mkLocalCluster {
  lc_current_id : Z;
  master_requests : list Msg;
  master_response : list Reply;
  master_process : option MasterProcess;
  queues_closed : bool;
  master_joined : bool
}.

(** How a call on the facade ends: it returns, raises, or blocks, on the
    empty response queue or in [join()] on a master that does not come to
    an end. *)
Inductive client_outcome (A : Type) :=
| Returns (a : A)
| Raises (e : exn)
| Blocks.
Arguments Returns {A} a.
Arguments Raises {A} e.
Arguments Blocks {A}.

(** What a [put] on the open request queue does to the facade. *)
Definition requests_put (m : Msg) (c : LocalCluster) : LocalCluster :=
  {| lc_current_id := lc_current_id c;
     master_requests := master_requests c ++ [m];
     master_response := master_response c;
     master_process := master_process c;
     queues_closed := queues_closed c;
     master_joined := master_joined c |}.

(** [LocalCluster.__init__] followed, when [_start] is set, by [start]. *)
Definition LocalCluster_start (c : LocalCluster) : LocalCluster :=
  match master_process c with
  | None =>
      {| lc_current_id := lc_current_id c;
         master_requests := master_requests c;
         master_response := master_response c;
         master_process := Some (GridMasterProcess "grid-master");
         queues_closed := queues_closed c;
         master_joined := master_joined c |}
  | Some _ => c
  end.

Definition LocalCluster_init (_start : bool) : LocalCluster :=
  let c := {| lc_current_id := 0; master_requests := []; master_response := [];
              master_process := None; queues_closed := false;
              master_joined := false |} in
  if _start then LocalCluster_start c else c.

(** [LocalCluster.shutdown]; [master_ends] tells whether the master
    process comes to an end, so that [join()] returns. *)
Definition LocalCluster_shutdown (master_ends : bool) (c : LocalCluster)
    : LocalCluster * client_outcome unit :=
  match master_process c with
  | None => (c, Returns tt)
  | Some _ =>
      if queues_closed c then (c, Raises AssertionError)
      else if master_ends then
        ({| lc_current_id := lc_current_id c;
            master_requests := master_requests c ++ [EXIT];
            master_response := master_response c;
            master_process := None;
            queues_closed := true;
            master_joined := true |}, Returns tt)
      else (requests_put EXIT c, Blocks)
  end.

(** [LocalCluster.wait] *)
Definition LocalCluster_wait (master_ends : bool) (c : LocalCluster)
    : LocalCluster * client_outcome unit :=
  match master_process c with
  | None => (c, Returns tt)
  | Some p =>
      if queues_closed c then (c, Raises AssertionError)
      else if master_ends then
        ({| lc_current_id := lc_current_id c;
            master_requests := master_requests c ++ [WAIT];
            master_response := master_response c;
            master_process := Some p;
            queues_closed := true;
            master_joined := true |}, Returns tt)
      else (requests_put WAIT c, Blocks)
  end.

(** [self.master_response.get()] *)
Definition response_get (c : LocalCluster) : LocalCluster * client_outcome Reply :=
  match master_response c with
  | [] => (c, Blocks)
  | r :: rest =>
      ({| lc_current_id := lc_current_id c;
          master_requests := master_requests c;
          master_response := rest;
          master_process := master_process c;
          queues_closed := queues_closed c;
          master_joined := master_joined c |}, Returns r)
  end.

(** [LocalCluster.list] *)
Definition LocalCluster_list (c : LocalCluster) : LocalCluster * client_outcome Reply :=
  match master_process c with
  | None => (c, Returns (ReplyJobs []))
  | Some _ =>
      if queues_closed c then (c, Raises AssertionError)
      else response_get (requests_put JOBS c)
  end.

(** [os.path.join] of a directory and a relative file name. *)
Fixpoint ends_with_slash (s : string) : bool :=
  match s with
  | EmptyString => false
  | String c EmptyString => Ascii.eqb c "/"%char
  | String _ rest => ends_with_slash rest
  end.

Definition path_join (dir name : string) : string :=
  match dir with
  | EmptyString => name
  | _ => if ends_with_slash dir then dir +:+ name else dir +:+ "/" +:+ name
  end.

(** Truth value of a [job_id] field and [int(...)] of it. *)
Definition truthy (v : option Reply) : bool :=
  match v with
  | None => false
  | Some (ReplyId i) => negb (i =? 0)
  | Some (ReplyJobs l) => match l with [] => false | _ => true end
  end.

Definition to_int (v : option Reply) : option Z :=
  match v with
  | Some (ReplyId i) => Some i
  | _ => None
  end.

(** The loop that collects the dependency ids in [submit]; [None] when
    [int(...)] raises. *)
Fixpoint collect_deps (ds : list (option Reply)) (deps : gset Z) : option (gset Z) :=
  match ds with
  | [] => Some deps
  | d :: ds' =>
      match to_int d with
      | Some i => collect_deps ds' (deps ∪ {[ i ]})
      | None => None
      end
  end.

(** [LocalCluster.submit]; [getcwd] is what [os.getcwd()] returns. *)
Definition LocalCluster_submit (getcwd : string) (job : PipelineJob) (c : LocalCluster)
    : LocalCluster * client_outcome PipelineJob :=
  match master_process c with
  | None => (c, Raises (SubmissionError "No Grid master found!"))
  | Some _ =>
      let cwd := match pj_working_directory job with Some d => d | None => getcwd end in
      let err := match pj_stderr job with
                 | None => Some (path_join cwd "jip-%J.err")
                 | e => e
                 end in
      let out := match pj_stdout job with
                 | None => Some (path_join cwd "jip-%J.out")
                 | o => o
                 end in
      match collect_deps (List.filter truthy (pj_dependencies job)) ∅ with
      | None => (c, Raises TypeError)
      | Some deps =>
          let local_job :=
            _Job_init (Some (pj_cluster_command job)) (Some cwd) out err
                      (Some deps) (pj_threads job) None in
          if queues_closed c then (c, Raises AssertionError) else
          match response_get (requests_put (SUBMIT local_job) c) with
          | (c', Returns r) =>
              (c', Returns {| pj_working_directory := pj_working_directory job;
                              pj_stdout := out;
                              pj_stderr := err;
                              pj_dependencies := pj_dependencies job;
                              pj_cluster_command := pj_cluster_command job;
                              pj_threads := pj_threads job;
                              pj_job_id := Some r |})
          | (c', Raises e) => (c', Raises e)
          | (c', Blocks) => (c', Blocks)
          end
      end
  end.

(** [LocalCluster.cancel] *)
Definition LocalCluster_cancel (job : PipelineJob) (c : LocalCluster)
    : LocalCluster * client_outcome unit :=
  match master_process c with
  | None => (c, Returns tt)
  | Some _ =>
      if queues_closed c then (c, Raises AssertionError)
      else (requests_put (CANCEL (to_int (pj_job_id job))) c, Returns tt)
  end.



(** ** The scheduler as the design describes it

    The reference scheduler restarts the whole pass after every promotion,
    and the reference submit handler always invokes it; neither looks at
    the number of free slots first. *)

(** Promotion of a job: spawn its executor, move it from queued to
    running, take its threads from the free slots. *)
Definition promote_job (job : _Job) : M unit :=
  _run_job job ;; add_slots (- threads job).

Fixpoint reference_scan (restart : M unit) (sorted_jobs : list _Job) : M unit :=
  match sorted_jobs with
  | [] => ret tt
  | job :: rest =>
      if (0 <? size (dependencies job))%nat then ret tt
      else
        s <- get ;;
        if threads job <=? slots_available s
        then promote_job job ;; restart
        else reference_scan restart rest
  end.

Fixpoint reference_schedule (depth : nat) : M unit :=
  match depth with
  | O => raise RecursionError
  | S depth' =>
      s <- get ;;
      reference_scan (reference_schedule depth') (sorted (values (dict_order s) (queued s)))
  end.

Definition reference_submit (depth : nat) (job : _Job) : M bool :=
  job_id <- _next_id ;;
  let job := set_job_id (Some job_id) job in
  let job := set_stdout (_resolve_log job_id (stdout job)) job in
  let job := set_stderr (_resolve_log job_id (stderr job)) job in
  modify (λ s, set_queued (<[job_id := job]> (queued s)) s) ;;
  for_each (elements (dependencies job)) (register_child job_id) ;;
  response_put (ReplyId job_id) ;;
  reference_schedule depth ;;
  ret true.

(** ** Predicates used in the statements *)

(** Every queued job is stored under its own id. *)
Definition keys_ok (s : _GridMaster) : Prop :=
  ∀ k j, queued s !! k = Some j → job_id j = Some k.

(** Sum of [threads] over the jobs of a map. *)
Definition sum_threads (m : gmap Z _Job) : Z :=
  map_fold (λ _ j acc, threads j + acc) 0 m.

(** [s'] is reached from [s] by handling the messages [msgs], each handler
    returning normally with [True]. *)
Inductive handles (depth : nat) : _GridMaster → list Msg → _GridMaster → Prop :=
| handles_nil s : handles depth s [] s
| handles_cons s msg s1 msgs s' :
    dispatch depth msg s = (s1, Ok true) →
    handles depth s1 msgs s' →
    handles depth s (msg :: msgs) s'.

(** The thread count a message brings into the master, if it is a submit. *)
Definition submits_positive (msg : Msg) : Prop :=
  match msg with
  | SUBMIT job => 1 ≤ threads job
  | _ => True
  end.

(** [c] is a queued descendant of a job with children [cs]: a child that
    is queued, or a queued child of a queued descendant. *)
Inductive queued_descendant (q : gmap Z _Job) (cs : gset Z) : Z → Prop :=
| qd_child c : c ∈ cs → is_Some (q !! c) → queued_descendant q cs c
| qd_step p pj c :
    queued_descendant q cs p → q !! p = Some pj →
    c ∈ children pj → is_Some (q !! c) → queued_descendant q cs c.

(** Children are submitted after their parents: every child id of a queued
    job is larger than the id the job is stored under. *)
Definition children_later (q : gmap Z _Job) : Prop :=
  ∀ k j c, q !! k = Some j → c ∈ children j → k < c.

(** Ascending order of jobs by (number of dependencies, id). *)
Definition job_le (a b : _Job) : Prop :=
  (size (dependencies a) < size (dependencies b))%nat
  ∨ (size (dependencies a) = size (dependencies b)
     ∧ id_lt (job_id b) (job_id a) = false).

(** ** Example jobs and states *)

(** One order a dictionary may have: ascending keys. *)
Definition key_le (a b : Z * _Job) : Prop := a.1 ≤ b.1.

Global Instance key_le_dec a b : Decision (key_le a b).
Proof. unfold key_le. apply _. Defined.

Definition ascending : DictOrder :=
  {| iteritems m := merge_sort key_le (map_to_list m);
     iteritems_perm m := merge_sort_Permutation key_le (map_to_list m) |}.

(** A job without dependencies and a job that depends on job 1, both one
    thread wide. *)
Definition job_a : _Job :=
  _Job_init (Some "true") (Some "/tmp") (Some "/tmp/jip-%J.out")
            (Some "/tmp/jip-%J.err") None 1 None.

Definition job_b : _Job :=
  _Job_init (Some "true") (Some "/tmp") (Some "/tmp/jip-%J.out")
            (Some "/tmp/jip-%J.err") (Some {[ 1 ]}) 1 None.

(** The master with one slot after A and then B were submitted: A runs,
    B waits for it. *)
Definition master_a_running : _GridMaster :=
  (start 10 [SUBMIT job_a; SUBMIT job_b] (create_master ascending 1)).1.1.

(** An executor environment in which opening the log files fails. *)
Definition env_unwritable : ExecEnv :=
  {| fs_open := λ _, Some "IOError: Permission denied";
     os_popen := λ _ _, None;
     os_wait := 0;
     child_alive := λ _, false;
     sigterm := None |}.

(** An environment in which everything works and the child exits with
    code 3. *)
Definition env_plain : ExecEnv :=
  {| fs_open := λ _, None;
     os_popen := λ _ _, None;
     os_wait := 3;
     child_alive := λ _, false;
     sigterm := None |}.

(** An environment in which the signal arrives while the child runs and
    the child ignores it. *)
Definition env_stubborn : ExecEnv :=
  {| fs_open := λ _, None;
     os_popen := λ _ _, None;
     os_wait := 3;
     child_alive := λ _, true;
     sigterm := Some ChildRunning |}.

(** A facade on which [start] was never called. *)
Definition cluster_without_master : LocalCluster := LocalCluster_init false.

Definition pipeline_job : PipelineJob :=
  {| pj_working_directory := None; pj_stdout := None; pj_stderr := None;
     pj_dependencies := []; pj_cluster_command := "true"; pj_threads := 1;
     pj_job_id := None |}.

(** ** Relations and functions used in the proofs *)

(** [s'] differs from [s] at most in the queued map: entries were deleted
    and dependencies were removed from jobs that are left.  This is all the
    cascade and the dependency update can do. *)
Record pruned (s s' : _GridMaster) : Prop := mkPruned {
  pruned_running : running s' = running s;
  pruned_slots : slots_available s' = slots_available s;
  pruned_total : slots_total s' = slots_total s;
  pruned_wait : wait_mode s' = wait_mode s;
  pruned_id : _current_id s' = _current_id s;
  pruned_response : response s' = response s;
  pruned_events : os_events s' = os_events s;
  pruned_queued : ∀ k j', queued s' !! k = Some j' →
    ∃ j, queued s !! k = Some j
         ∧ j' = set_dependencies (dependencies j') j
         ∧ dependencies j' ⊆ dependencies j
}.

(** The first job of the sorted list that the scan of [schedule] starts:
    the scan ends at a job with dependencies and passes over jobs that do
    not fit into the free slots. *)
Fixpoint first_fit (slots : Z) (sorted_jobs : list _Job) : option _Job :=
  match sorted_jobs with
  | [] => None
  | job :: rest =>
      if (0 <? size (dependencies job))%nat then None
      else if threads job <=? slots then Some job
      else first_fit slots rest
  end.

(** The state in which [promote_job] leaves the master. *)
Definition promoted (job : _Job) (s : _GridMaster) : _GridMaster :=
  (promote_job job s).1.

(** What the master owes or is owed in slots: zero when the free slots and
    the threads of the running jobs add up to the total. *)
Definition balance (s : _GridMaster) : Z :=
  slots_available s + sum_threads (running s) - slots_total s.

(** The part of [invariant] that does not involve the slots. *)
Record shape (s : _GridMaster) : Prop := mkShape {
  shape_keys : keys_ok s;
  shape_disjoint : ∀ k, is_Some (queued s !! k) → running s !! k = None;
  shape_ids : ∀ k, is_Some (queued s !! k) ∨ is_Some (running s !! k) → k ≤ _current_id s
}.

(** No job in the master asks for less than one thread, and no slot is
    handed out twice. *)
Record positive (s : _GridMaster) : Prop := mkPositive {
  positive_queued : ∀ k j, queued s !! k = Some j → 1 ≤ threads j;
  positive_running : ∀ k j, running s !! k = Some j → 1 ≤ threads j;
  positive_slots : 0 ≤ slots_available s
}.

(** One promotion as [schedule] performs it: the first job of the sorted
    queue that may start and fits is promoted. *)
Definition promotion (s s' : _GridMaster) : Prop :=
  ∃ job, first_fit (slots_available s) (sorted (values (dict_order s) (queued s))) = Some job
         ∧ s' = promoted job s.

(** The worker process [_run_job] creates for a job id. *)
Definition worker (id : Z) : Process :=
  {| target_job := id; process_name := "worker-" +:+ pretty id |}.

(** [j'] is [j] with children added. *)
Definition with_children (j j' : _Job) : Prop :=
  j' = set_children (children j') j ∧ children j ⊆ children j'.

(** [s'] differs from [s] at most in the [children] sets of its jobs, which
    grew.  This is all the registration loop of the submit handler does. *)
Record relinked (s s' : _GridMaster) : Prop := mkRelinked {
  relinked_slots : slots_available s' = slots_available s;
  relinked_total : slots_total s' = slots_total s;
  relinked_wait : wait_mode s' = wait_mode s;
  relinked_id : _current_id s' = _current_id s;
  relinked_response : response s' = response s;
  relinked_events : os_events s' = os_events s;
  relinked_queued : ∀ k, option_Forall2 with_children (queued s !! k) (queued s' !! k);
  relinked_running : ∀ k, option_Forall2 with_children (running s !! k) (running s' !! k)
}.

(** The master with one slot after A was submitted. *)
Definition master_a_submitted : _GridMaster :=
  (start 10 [SUBMIT job_a] (create_master ascending 1)).1.1.

(** The master with one slot after A and B were submitted and A completed
    with code 0. *)
Definition master_a_done : _GridMaster :=
  (start 10 [SUBMIT job_a; SUBMIT job_b; DONE 1 0] (create_master ascending 1)).1.1.

(** A master with one slot in which job A is queued and nothing runs. *)
Definition master_a_queued : _GridMaster :=
  set_slots_available 1
    (dispatch 10 (SUBMIT job_a) (set_slots_available 0 (create_master ascending 1))).1.

(** What a completed cascade did to the queued map [q], seen from the
    result [q']: the ids it removed are the queued descendants, and what is
    left is as it was. *)
Definition cascaded (q : gmap Z _Job) (cs : gset Z) (q' : gmap Z _Job) : Prop :=
  ∀ k, (queued_descendant q cs k → q' !! k = None)
       ∧ (q' !! k = None → q !! k = None ∨ queued_descendant q cs k)
       ∧ (∀ j, q' !! k = Some j → q !! k = Some j).

(** The number of queued ids larger than [c]. *)
Definition later_ids (c : Z) (q : gmap Z _Job) : nat :=
  size (filter (λ k, c < k) (dom q)).

(** The body of the loop of [_remove_children] at depth [depth]. *)
Definition remove_child (depth : nat) (c : Z) : M unit :=
  s <- get ;;
  match queued s !! c with
  | Some child =>
      _remove_children depth child ;;
      _update_dependencies child ;;
      del_queued c
  | None => ret tt
  end.

(** A job that depends on job 2. *)
Definition job_c : _Job :=
  _Job_init (Some "true") (Some "/tmp") (Some "/tmp/jip-%J.out")
            (Some "/tmp/jip-%J.err") (Some {[ 2 ]}) 1 None.

(** The master with one slot after four submits: job 1 runs, job 2 waits
    for it, job 3 waits for job 2, and job 4, which depends on nothing,
    waits for a slot. *)
Definition master_chain : _GridMaster :=
  (start 10 [SUBMIT job_a; SUBMIT job_b; SUBMIT job_c; SUBMIT job_a]
     (create_master ascending 1)).1.1.

(** The running job 1 of [master_chain]. *)
Definition chain_head : _Job :=
  match running master_chain !! 1 with
  | Some job => job
  | None => job_a
  end.

(** ** Further example inputs *)

(** Jobs 1 and 2 as [master_chain] holds them in its queue once job 1 is
    gone: job 2 without dependencies left, job 3 waiting for job 2. *)
Definition queued_job (id : Z) (deps : gset Z) : _Job :=
  set_job_id (Some id) (_Job_init (Some "true") None None None (Some deps) 1 None).

(** The time an executor spends asleep, in milliseconds. *)
Definition slept (evs : list ExecEvent) : Z :=
  foldr (λ e acc, match e with Sleep ms => ms + acc | _ => acc end) 0 evs.

(** How often an executor signals its child. *)
Definition signals (evs : list ExecEvent) : nat :=
  length (List.filter (λ e, match e with SendSIGTERM => true | _ => false end) evs).

(** An environment in which the child takes the signal and is gone at the
    third look. *)
Definition env_obedient : ExecEnv :=
  {| fs_open := λ _, None;
     os_popen := λ _ _, None;
     os_wait := 0;
     child_alive := λ n, (n <? 2)%nat;
     sigterm := Some ChildRunning |}.

(** An environment in which everything works, the child exits with code
    0 and no signal arrives; and the same with a signal that arrives
    before the handler is installed. *)
Definition env_clean : ExecEnv :=
  {| fs_open := λ _, None;
     os_popen := λ _ _, None;
     os_wait := 0;
     child_alive := λ _, false;
     sigterm := None |}.

Definition env_early : ExecEnv :=
  {| fs_open := λ _, None;
     os_popen := λ _ _, None;
     os_wait := 0;
     child_alive := λ _, false;
     sigterm := Some BeforeHandler |}.

(** A master with three slots on which three jobs run. *)
Definition master_three : _GridMaster :=
  (start 10 [SUBMIT job_a; SUBMIT job_a; SUBMIT job_a] (create_master ascending 3)).1.1.

(** ** Further predicates *)

Global Instance Process_eq_dec : EqDecision Process.
Proof. solve_decision. Defined.

(** Every running job is stored under its own id and holds the worker
    process that [_run_job] gave it. *)
Definition running_ok (s : _GridMaster) : Prop :=
  ∀ k j, running s !! k = Some j → job_id j = Some k ∧ process j = Some (worker k).

(** What holds of the ids besides [shape]: the running jobs are in order,
    the counter is not negative and no id in use is below 1. *)
Record tidy (s : _GridMaster) : Prop := mkTidy {
  tidy_running : running_ok s;
  tidy_counter : 0 ≤ _current_id s;
  tidy_low : ∀ k, is_Some (queued s !! k) ∨ is_Some (running s !! k) → 1 ≤ k
}.

(** A submitted job that brings no children of its own and does not name
    the id it is about to get among its dependencies. *)
Definition no_self_dependency (s : _GridMaster) (msg : Msg) : Prop :=
  match msg with
  | SUBMIT job => children job = ∅ ∧ _current_id s + 1 ∉ dependencies job
  | _ => True
  end.

(** The process operations of the [EXIT] handler on a list of running
    jobs: each job's process is terminated and then joined. *)
Definition exit_events (jobs : list (Z * _Job)) : list ProcEvent :=
  jobs ≫= λ '(_, j),
    match process j with
    | Some p => [Terminated p; Joined p]
    | None => []
    end.

(** Whether a path contains the placeholder, and whether it contains a
    percent sign at all. *)
Fixpoint mentions_J (path : string) : bool :=
  match path with
  | EmptyString => false
  | String c rest =>
      match rest with
      | String c' _ => (Ascii.eqb c "%"%char && Ascii.eqb c' "J"%char) || mentions_J rest
      | EmptyString => false
      end
  end.

Fixpoint no_percent (path : string) : bool :=
  match path with
  | EmptyString => true
  | String c rest => negb (Ascii.eqb c "%"%char) && no_percent rest
  end.


Definition cluster_answered : LocalCluster :=
  {| lc_current_id := 0; master_requests := []; master_response := [ReplyId 8];
     master_process := Some (GridMasterProcess "grid-master");
     queues_closed := false; master_joined := false |}.

(** * Properties *)

(** ** Stale notices and the failure handler *)

Lemma _handle_failed_raises depth id error s :
  _handle_failed depth id error s = (s, Raise (AttributeError "unning")).
Proof. reflexivity. Qed.

Lemma _handle_done_stale depth id state s :
  running s !! id = None → _handle_done depth id state s = (s, Ok true).
Proof. intros H. unfold _handle_done, bind, get. rewrite H. reflexivity. Qed.

Lemma _handle_cancel_stale depth id s :
  running s !! id = None → queued s !! id = None →
  _handle_cancel depth (Some id) s = (s, Ok true).
Proof.
  intros Hr Hq. unfold _handle_cancel, bind, get, ret. rewrite Hr, Hq.
  reflexivity.
Qed.

Lemma start_step depth msg rest s :
  (wait_mode s && (_num_jobs s =? 0)%nat) = false →
  start depth (msg :: rest) s =
    match dispatch depth msg s with
    | (s', Ok true) => start depth rest s'
    | (s', Ok false) => (s', rest, HandlerStopped)
    | (s', Raise e) => (s', rest, HandlerRaised e)
    end.
Proof. intros H. simpl. rewrite H. reflexivity. Qed.

Lemma start_failed depth id error rest s :
  (wait_mode s && (_num_jobs s =? 0)%nat) = false →
  start depth (FAILED id error :: rest) s
  = (s, rest, HandlerRaised (AttributeError "unning")).
Proof. intros H. rewrite start_step by done. reflexivity. Qed.

(** C1: a failure notice for a running job is meant to free its slot,
    drop its queued descendants and remove it, as a completion with a
    nonzero code does.  With A running and B queued behind it, the
    completion does so; the failure notice raises on the attribute
    [unning] and leaves A running, B queued and the slot taken. *)
Theorem failed_notice_differs_from_nonzero_done :
  running master_a_running !! 1 ≠ None
  ∧ is_Some (queued master_a_running !! 2)
  ∧ slots_available master_a_running = 0
  ∧ (∃ s', dispatch 10 (DONE 1 1) master_a_running = (s', Ok true)
           ∧ running s' = ∅ ∧ queued s' = ∅ ∧ slots_available s' = 1)
  ∧ dispatch 10 (FAILED 1 "boom") master_a_running
    = (master_a_running, Raise (AttributeError "unning")).
Proof.
  split; [by vm_compute|].
  split; [by vm_compute; eexists|].
  split; [reflexivity|].
  split; [|reflexivity].
  eexists. split; [vm_compute; reflexivity|]. by vm_compute.
Qed.

(** C2: a notice for an id the master does not know is meant to be
    ignored and the loop to go on.  It does for [DONE] and [CANCEL]: on the
    empty master the loop reads the next message.  For [FAILED] the state
    is unchanged as well, but the handler raises and the loop ends with the
    messages behind it unread. *)
Theorem stale_failed_notice_ends_loop :
  start 10 [DONE 7 0; CANCEL (Some 7); JOBS] (create_master ascending 1)
  = (set_response [ReplyJobs []] (create_master ascending 1), [], AwaitsMessage)
  ∧ start 10 [FAILED 7 "boom"; JOBS] (create_master ascending 1)
    = (create_master ascending 1, [JOBS], HandlerRaised (AttributeError "unning")).
Proof. split; reflexivity. Qed.

(** ** Drain mode *)

Lemma start_drained depth requests s :
  wait_mode s = true → queued s = ∅ → running s = ∅ →
  start depth requests s = (s, requests, Drained).
Proof.
  intros Hw Hq Hr.
  assert (Hd : (wait_mode s && (_num_jobs s =? 0)%nat) = true).
  { unfold _num_jobs. rewrite Hw, Hq, Hr. reflexivity. }
  destruct requests; simpl; rewrite Hd; reflexivity.
Qed.

(** C9: the [WAIT] handler sets [wait_mode] and nothing else and lets the
    loop go on; a master in wait mode whose maps are both empty leaves the
    loop without reading a further message, whether it is in that state
    when the loop is entered or gets there by handling a message. *)
Theorem drain_sets_flag_and_loop_exits_when_empty :
  (∀ s, _handle_wait s = (set_wait_mode true s, Ok true))
  ∧ (∀ depth requests s,
       wait_mode s = true → queued s = ∅ → running s = ∅ →
       start depth requests s = (s, requests, Drained))
  ∧ (∀ depth msg rest s s',
       (wait_mode s && (_num_jobs s =? 0)%nat) = false →
       dispatch depth msg s = (s', Ok true) →
       wait_mode s' = true → queued s' = ∅ → running s' = ∅ →
       start depth (msg :: rest) s = (s', rest, Drained)).
Proof.
  split; [|split].
  - intros [? ? ? ? ? [] ? ?]; reflexivity.
  - apply start_drained.
  - intros depth msg rest s s' Hs Hd Hw Hq Hr.
    rewrite start_step, Hd by done. by apply start_drained.
Qed.

Lemma drain_sets_flag_and_loop_exits_when_empty_witness :
  _handle_wait master_a_running = (set_wait_mode true master_a_running, Ok true)
  ∧ start 10 [EXIT] (set_wait_mode true (create_master ascending 1))
    = (set_wait_mode true (create_master ascending 1), [EXIT], Drained)
  ∧ start 10 [DONE 1 0; EXIT]
      (set_wait_mode true (start 10 [SUBMIT job_a] (create_master ascending 1)).1.1)
    = ((dispatch 10 (DONE 1 0)
         (set_wait_mode true (start 10 [SUBMIT job_a] (create_master ascending 1)).1.1)).1,
       [EXIT], Drained).
Proof.
  destruct drain_sets_flag_and_loop_exits_when_empty as (H1 & H2 & H3).
  split; [apply H1|]. split.
  - apply H2; vm_compute; reflexivity.
  - apply H3; vm_compute; reflexivity.
Defined.

(** ** The facade without a master *)

(** C10: on a facade whose [master_process] is [None], [submit] raises a
    [SubmissionError] and leaves the facade as it was, so later calls are
    not affected; [list] returns the empty list; [cancel], [wait] and
    [shutdown] return; none of them changes the facade, in particular none
    puts a message on the request queue. *)
Theorem facade_without_master (c : LocalCluster) (getcwd : string) (job : PipelineJob)
    (master_ends : bool) :
  master_process c = None →
  (∃ msg, LocalCluster_submit getcwd job c = (c, Raises (SubmissionError msg)))
  ∧ LocalCluster_list c = (c, Returns (ReplyJobs []))
  ∧ LocalCluster_cancel job c = (c, Returns tt)
  ∧ LocalCluster_wait master_ends c = (c, Returns tt)
  ∧ LocalCluster_shutdown master_ends c = (c, Returns tt).
Proof.
  intros H.
  unfold LocalCluster_submit, LocalCluster_list, LocalCluster_cancel,
    LocalCluster_wait, LocalCluster_shutdown.
  rewrite H. eauto 10.
Qed.

Lemma facade_without_master_witness :
  (∃ msg, LocalCluster_submit "/home" pipeline_job cluster_without_master
          = (cluster_without_master, Raises (SubmissionError msg)))
  ∧ LocalCluster_list cluster_without_master
    = (cluster_without_master, Returns (ReplyJobs []))
  ∧ LocalCluster_cancel pipeline_job cluster_without_master
    = (cluster_without_master, Returns tt)
  ∧ LocalCluster_wait false cluster_without_master = (cluster_without_master, Returns tt)
  ∧ LocalCluster_shutdown false cluster_without_master
    = (cluster_without_master, Returns tt).
Proof.
  apply (facade_without_master cluster_without_master "/home" pipeline_job false).
  reflexivity.
Defined.

(** ** The executor *)

Lemma sent_app evs1 evs2 : sent (evs1 ++ evs2) = sent evs1 ++ sent evs2.
Proof. unfold sent. apply omap_app. Qed.

Lemma sent_probe alive n ts : sent (probe alive n ts).1 = [].
Proof.
  revert n. induction ts as [|t ts IH]; intros n; simpl; [done|].
  destruct (alive n); [|done]. specialize (IH (S n)).
  by destruct (probe alive (S n) ts).
Qed.

Lemma sent_terminate_process process alive :
  sent (_terminate_process process alive).1 = [].
Proof.
  unfold _terminate_process. destruct process as [[]|]; try done.
  destruct (alive O); [|done].
  pose proof (sent_probe alive 1%nat
                [10; 10; 10; 20; 20; 20; 20; 20; 20; 100; 1000; 2000; 5000]) as H.
  by destruct (probe alive 1%nat _).
Qed.

(** Inside the [try] the handler leads to one completion notice, after a
    failure notice if the handler itself raised. *)
Lemma sent_handle_term_caught env job_id process :
  let sent_in_try :=
    match handle_term env job_id process with
    | (evs, None) => sent evs
    | (evs, Some err) => sent (evs ++ [Put (FAILED job_id err); Put (DONE job_id (-1))])
    end in
  sent_in_try = [DONE job_id 1]
  ∨ ∃ err, sent_in_try = [FAILED job_id err; DONE job_id (-1)].
Proof.
  simpl. unfold handle_term.
  pose proof (sent_terminate_process process (child_alive env)) as H.
  destruct (_terminate_process process (child_alive env)) as [evs [err|]];
    simpl in H; rewrite sent_app, H; [right; by exists err|by left].
Qed.

Lemma sent_handle_term_unstarted env job_id :
  sent (handle_term_uncaught env job_id None) = [DONE job_id 1].
Proof. reflexivity. Qed.

Lemma count_app p ms1 ms2 : count p (ms1 ++ ms2) = (count p ms1 + count p ms2)%nat.
Proof. unfold count. by rewrite List.filter_app, length_app. Qed.

Lemma is_done_self job_id r : is_done job_id (DONE job_id r) = true.
Proof. simpl. by apply bool_decide_eq_true_2. Qed.

Lemma count_done_last job_id before state :
  before = [] ∨ (∃ err, before = [FAILED job_id err]) →
  count (is_done job_id) (before ++ [DONE job_id state]) = 1%nat.
Proof.
  intros [->|[err ->]]; unfold count; simpl; by rewrite bool_decide_eq_true_2.
Qed.

(** C8 as it is written fails when the log files cannot be opened: the
    executor then sends a failure notice and a completion notice. *)
Lemma executor_fault_sends_two_notices :
  ¬ (∀ env job_id job,
       count (is_notice job_id) (sent (_execute_job env job_id job)) = 1%nat).
Proof.
  intros H. specialize (H env_unwritable 1 job_a). vm_compute in H.
  discriminate.
Qed.

(** A signal that arrives before the handler is installed ends the
    executor without any notice. *)
Lemma executor_killed_before_handler env job_id job :
  sigterm env = Some BeforeHandler →
  _execute_job env job_id job = [Killed] ∧ sent (_execute_job env job_id job) = [].
Proof.
  intros H. unfold _execute_job. destruct (try_body env job) as [points res].
  by rewrite H.
Qed.

(** C8, amended: when the termination signal, if there is one, arrives
    after the executor has installed its handler and before it has left
    its [try] statement, the messages it sends end with a completion
    notice for the job, which is the only one; before it comes nothing or
    a single failure notice.  A launch or runtime fault without a signal
    sends the failure notice and then the completion notice with code
    -1. *)
Theorem executor_sends_one_completion (env : ExecEnv) (job_id : Z) (job : _Job) :
  sigterm env ≠ Some BeforeHandler →
  sigterm env ≠ Some AfterTry → sigterm env ≠ Some Reported →
  (∃ before state,
     sent (_execute_job env job_id job) = before ++ [DONE job_id state]
     ∧ (before = [] ∨ ∃ err, before = [FAILED job_id err]))
  ∧ count (is_done job_id) (sent (_execute_job env job_id job)) = 1%nat
  ∧ (∀ err, (try_body env job).2 = inl err → sigterm env = None →
       sent (_execute_job env job_id job)
       = [FAILED job_id err; DONE job_id (-1)]).
Proof.
  intros Hbefore Hafter Hreported.
  assert (Hshape : ∃ before state,
            sent (_execute_job env job_id job) = before ++ [DONE job_id state]
            ∧ (before = [] ∨ ∃ err, before = [FAILED job_id err])).
  { unfold _execute_job. destruct (try_body env job) as [points res].
    set (except := match res with
                   | inl err => [Put (FAILED job_id err)]
                   | inr _ => []
                   end).
    set (result := match res with inl _ => -1 | inr code => code end).
    assert (Hplain : ∃ before state,
              sent (except ++ [Put (DONE job_id result)]) = before ++ [DONE job_id state]
              ∧ (before = [] ∨ ∃ err, before = [FAILED job_id err])).
    { subst except. destruct res as [err|code].
      - exists [FAILED job_id err], result. split; [done|right; by exists err].
      - exists [], result. split; [done|by left]. }
    assert (Hcaught : ∀ process,
              ∃ before state,
                match handle_term env job_id process with
                | (evs, None) => sent evs
                | (evs, Some err) =>
                    sent (evs ++ [Put (FAILED job_id err); Put (DONE job_id (-1))])
                end = before ++ [DONE job_id state]
                ∧ (before = [] ∨ ∃ err, before = [FAILED job_id err])).
    { intros process.
      destruct (sent_handle_term_caught env job_id process) as [H|[err H]].
      - exists [], 1. split; [exact H|by left].
      - exists [FAILED job_id err], (-1). split; [exact H|right; by exists err]. }
    destruct (sigterm env) as [[]|]; try done.
    - exists [], 1. split; [apply sent_handle_term_unstarted|by left].
    - destruct (bool_decide (StdoutOpened ∈ points)); [|done].
      specialize (Hcaught (if bool_decide (StdoutOpened = ChildRunning)
                           then Some false else None)).
      by destruct (handle_term env job_id _) as [evs [err|]].
    - destruct (bool_decide (StderrOpened ∈ points)); [|done].
      specialize (Hcaught (if bool_decide (StderrOpened = ChildRunning)
                           then Some false else None)).
      by destruct (handle_term env job_id _) as [evs [err|]].
    - destruct (bool_decide (ChildRunning ∈ points)); [|done].
      specialize (Hcaught (if bool_decide (ChildRunning = ChildRunning)
                           then Some false else None)).
      by destruct (handle_term env job_id _) as [evs [err|]]. }
  split; [exact Hshape|]. split.
  - destruct Hshape as (before & state & -> & Hb). by apply count_done_last.
  - intros err Herr Hnone. unfold _execute_job.
    destruct (try_body env job) as [points res]. simpl in Herr. subst res.
    by rewrite Hnone.
Qed.

Lemma executor_sends_one_completion_witness :
  sent (_execute_job env_unwritable 1 job_a)
  = [FAILED 1 "IOError: Permission denied"; DONE 1 (-1)]
  ∧ sent (_execute_job env_plain 1 job_a) = [DONE 1 3]
  ∧ count (is_done 1) (sent (_execute_job env_stubborn 1 job_a)) = 1%nat.
Proof.
  destruct (executor_sends_one_completion env_unwritable 1 job_a) as (_ & _ & H3);
    [discriminate|discriminate|discriminate|].
  destruct (executor_sends_one_completion env_stubborn 1 job_a) as (_ & H2 & _);
    [discriminate|discriminate|discriminate|].
  split; [apply H3; reflexivity|]. split; [reflexivity|exact H2].
Defined.

(** ** Running computations *)

Lemma bind_Ok {A B} (m : M A) (k : A → M B) s s' a :
  m s = (s', Ok a) → bind m k s = k a s'.
Proof. intros H. unfold bind. by rewrite H. Qed.

Lemma bind_Raise {A B} (m : M A) (k : A → M B) s s' e :
  m s = (s', Raise e) → bind m k s = (s', Raise e).
Proof. intros H. unfold bind. by rewrite H. Qed.

(** A relation that every iteration establishes holds for the loop. *)
Lemma for_each_rel {A} (R : relation _GridMaster) `{!PreOrder R}
    (xs : list A) (body : A → M unit) :
  (∀ x s s' r, x ∈ xs → body x s = (s', r) → R s s') →
  ∀ s s' r, for_each xs body s = (s', r) → R s s'.
Proof.
  induction xs as [|x xs IH]; intros Hbody s s' r Hrun; simpl in Hrun.
  - injection Hrun as <- _. reflexivity.
  - unfold bind in Hrun. destruct (body x s) as [s1 [[]|e]] eqn:Hx.
    + transitivity s1.
      * eapply Hbody; [left|done].
      * eapply IH; [|done]. intros y t t' r' Hy. apply Hbody. by right.
    + injection Hrun as <- _. eapply Hbody; [left|done].
Qed.

(** ** What the cascade leaves alone *)

Lemma set_dependencies_same j : j = set_dependencies (dependencies j) j.
Proof. by destruct j. Qed.

Global Instance pruned_preorder : PreOrder pruned.
Proof.
  split.
  - intros s. split; try done. intros k j' H. exists j'.
    split; [done|]. split; [apply set_dependencies_same|done].
  - intros s1 s2 s3 [] []. split; try congruence.
    intros k j3 H3.
    destruct (pruned_queued1 k j3 H3) as (j2 & H2 & E3 & S3).
    destruct (pruned_queued0 k j2 H2) as (j1 & H1 & E2 & S2).
    exists j1. split; [done|]. split; [|set_solver].
    rewrite E3, E2. by destruct j1.
Qed.

Lemma pruned_set_queued (q : gmap Z _Job) s :
  (∀ k j', q !! k = Some j' →
     ∃ j, queued s !! k = Some j
          ∧ j' = set_dependencies (dependencies j') j
          ∧ dependencies j' ⊆ dependencies j) →
  pruned s (set_queued q s).
Proof. intros H. by split. Qed.

Lemma del_queued_pruned k s s' r : del_queued k s = (s', r) → pruned s s'.
Proof.
  unfold del_queued, bind, get, modify, raise. intros H.
  destruct (queued s !! k) eqn:Hk; injection H as <- _; [|reflexivity].
  apply pruned_set_queued. intros k' j' Hk'.
  apply lookup_delete_Some in Hk' as [_ Hk']. exists j'.
  split; [done|]. split; [apply set_dependencies_same|done].
Qed.

Lemma remove_dependency_spec id j :
  remove_dependency id j = set_dependencies (dependencies (remove_dependency id j)) j
  ∧ dependencies (remove_dependency id j) ⊆ dependencies j.
Proof.
  destruct id as [i|]; simpl; (split; [by destruct j|]); [|done].
  intros x Hx. apply elem_of_difference in Hx. tauto.
Qed.

Lemma _update_dependencies_pruned job s s' r :
  _update_dependencies job s = (s', r) → pruned s s'.
Proof.
  unfold _update_dependencies. apply for_each_rel; [apply _|].
  intros c t t' r' _. unfold bind, get, modify, ret. intros H.
  destruct (queued t !! c) as [cj|] eqn:Hc; injection H as <- _; [|reflexivity].
  apply pruned_set_queued. intros k j' Hk.
  destruct (decide (c = k)) as [->|Hne].
  - rewrite lookup_insert_eq in Hk. injection Hk as <-. exists cj.
    split; [done|]. apply remove_dependency_spec.
  - rewrite lookup_insert_ne in Hk by done. exists j'.
    split; [done|]. split; [apply set_dependencies_same|done].
Qed.

Lemma _remove_children_pruned depth job s s' r :
  _remove_children depth job s = (s', r) → pruned s s'.
Proof.
  revert job s s' r. induction depth as [|depth IH]; intros job s s' r; simpl.
  - unfold raise. intros H. injection H as <- _. reflexivity.
  - apply for_each_rel; [apply _|].
    intros c t t' r' _. unfold bind at 1, get. simpl.
    destruct (queued t !! c) as [child|]; [|intros H; injection H as <- _; reflexivity].
    unfold bind. intros H.
    destruct (_remove_children depth child t) as [t1 [[]|e]] eqn:H1;
      [|injection H as <- _; by eapply IH].
    apply IH in H1.
    destruct (_update_dependencies child t1) as [t2 [[]|e]] eqn:H2;
      apply _update_dependencies_pruned in H2;
      [|injection H as <- _; by etransitivity].
    apply del_queued_pruned in H. by repeat (etransitivity; [eassumption|]).
Qed.

(** ** Sums of threads *)

Lemma sum_threads_empty : sum_threads ∅ = 0.
Proof. apply map_fold_empty. Qed.

Lemma sum_threads_insert m k j :
  m !! k = None → sum_threads (<[k := j]> m) = threads j + sum_threads m.
Proof.
  intros H. unfold sum_threads. rewrite map_fold_insert_L; [done| |done].
  intros. lia.
Qed.

Lemma sum_threads_delete m k j :
  m !! k = Some j → sum_threads (delete k m) = sum_threads m - threads j.
Proof.
  intros H. unfold sum_threads.
  rewrite (map_fold_delete_L _ _ k j m); [lia| |done]. intros. lia.
Qed.

Lemma sum_threads_replace m k j j' :
  m !! k = Some j → threads j' = threads j →
  sum_threads (<[k := j']> m) = sum_threads m.
Proof.
  intros H Ht. rewrite <-insert_delete_eq.
  rewrite sum_threads_insert by apply lookup_delete_eq.
  rewrite (sum_threads_delete _ _ _ H). lia.
Qed.

Lemma sum_threads_nonneg m :
  (∀ k j, m !! k = Some j → 0 ≤ threads j) → 0 ≤ sum_threads m.
Proof.
  induction m as [|k j m Hk _ IH] using map_first_key_ind.
  - rewrite sum_threads_empty. lia.
  - intros H. rewrite sum_threads_insert by done.
    specialize (H k j (lookup_insert_eq _ _ _)) as Hj.
    assert (0 ≤ sum_threads m); [|lia].
    apply IH. intros k' j' Hk'. apply (H k' j').
    rewrite lookup_insert_ne; [done|]. intros ->. congruence.
Qed.

(** ** Promotion and the scan of the scheduler *)

Lemma promote_job_run job s : promote_job job s = (promoted job s, Ok tt).
Proof.
  unfold promoted, promote_job, _run_job, bind, get, ret, add_slots, modify.
  destruct (job_id job) as [id|]; [|done].
  case_bool_decide as Hq; [|done]. destruct Hq as [j0 Hq].
  unfold emit, del_queued, bind, get, modify. simpl. by rewrite Hq.
Qed.

Lemma promoted_fields job s id :
  job_id job = Some id → is_Some (queued s !! id) →
  running (promoted job s) = <[id := set_process (Some (worker id)) job]> (running s)
  ∧ queued (promoted job s) = delete id (queued s)
  ∧ slots_available (promoted job s) = slots_available s - threads job
  ∧ slots_total (promoted job s) = slots_total s
  ∧ wait_mode (promoted job s) = wait_mode s
  ∧ _current_id (promoted job s) = _current_id s
  ∧ response (promoted job s) = response s
  ∧ os_events (promoted job s) = os_events s ++ [Started (worker id)].
Proof.
  intros Hid Hq.
  unfold promoted, promote_job, _run_job, bind, get, ret, add_slots, modify.
  rewrite Hid, bool_decide_eq_true_2 by done. destruct Hq as [j0 Hq].
  unfold emit, del_queued, bind, get, modify. simpl. rewrite Hq. simpl.
  repeat split; lia.
Qed.

Lemma promoted_absent job s :
  id_in (job_id job) (queued s) = false →
  promoted job s = set_slots_available (slots_available s - threads job) s.
Proof.
  unfold id_in, promoted, promote_job, _run_job, bind, get, ret, add_slots, modify.
  destruct (job_id job) as [id|]; [|done]. intros ->. done.
Qed.

Lemma first_fit_Some slots l job :
  first_fit slots l = Some job →
  job ∈ l ∧ dependencies job = ∅ ∧ threads job ≤ slots.
Proof.
  induction l as [|x l IH]; simpl; [done|].
  destruct (0 <? size (dependencies x))%nat eqn:Hd; [done|].
  destruct (threads x <=? slots) eqn:Ht.
  - intros [= <-]. split; [left|]. split; [|lia].
    apply Nat.ltb_ge in Hd. apply leibniz_equiv, size_empty_inv. lia.
  - intros H. destruct (IH H) as (? & ? & ?). split; [by right|done].
Qed.

Lemma schedule_scan_run restart l s :
  schedule_scan restart l s =
    match first_fit (slots_available s) l with
    | None => (s, Ok tt)
    | Some job =>
        if 1 <=? slots_available (promoted job s)
        then restart (promoted job s)
        else (promoted job s, Ok tt)
    end.
Proof.
  induction l as [|job l IH]; simpl; [done|].
  destruct (0 <? size (dependencies job))%nat; [done|].
  unfold bind at 1, get.
  destruct (threads job <=? slots_available s); [|apply IH].
  pose proof (promote_job_run job s) as Hp.
  unfold promote_job, bind in Hp. unfold bind.
  destruct (_run_job job s) as [s1 [[]|e]]; [|done].
  destruct (add_slots (- threads job) s1) as [s2 [[]|e]]; [|done].
  injection Hp as ->. unfold get. by destruct (1 <=? slots_available (promoted job s)).
Qed.

Lemma reference_scan_run restart l s :
  reference_scan restart l s =
    match first_fit (slots_available s) l with
    | None => (s, Ok tt)
    | Some job => restart (promoted job s)
    end.
Proof.
  induction l as [|job l IH]; simpl; [done|].
  destruct (0 <? size (dependencies job))%nat; [done|].
  unfold bind at 1, get.
  destruct (threads job <=? slots_available s); [|apply IH].
  unfold bind. by rewrite promote_job_run.
Qed.

Lemma schedule_promotions depth s s' r :
  schedule depth s = (s', r) → rtc promotion s s'.
Proof.
  revert s s' r. induction depth as [|depth IH]; intros s s' r; simpl.
  - intros [= <- _]. reflexivity.
  - unfold bind, get. rewrite schedule_scan_run.
    destruct (first_fit _ _) as [job|] eqn:Hfit; [|intros [= <- _]; reflexivity].
    assert (promotion s (promoted job s)) by (by exists job).
    destruct (1 <=? _).
    + intros H'. eapply rtc_l; [done|]. by eapply IH.
    + intros [= <- _]. by apply rtc_once.
Qed.

(** ** The order in which the scheduler looks at the queue *)

Lemma id_lt_asym a b : id_lt a b = true → id_lt b a = false.
Proof. destruct a, b; simpl; try done. intros. lia. Qed.

Lemma id_le_trans a b c :
  id_lt b a = false → id_lt c b = false → id_lt c a = false.
Proof. destruct a, b, c; simpl; try done. intros. lia. Qed.

Lemma job_le_not_lt a b : job_le a b ↔ _Job_lt b a = false.
Proof.
  unfold job_le, _Job_lt.
  destruct (size (dependencies b) =? size (dependencies a))%nat eqn:He.
  - apply Nat.eqb_eq in He. split; [intros [?|[_ ?]]; [lia|done]|].
    intros ?. right. by split.
  - apply Nat.eqb_neq in He. rewrite Nat.ltb_ge. split; [intros [?|[? _]]|]; lia.
Qed.

Lemma job_lt_le a b : _Job_lt a b = true → job_le a b.
Proof.
  unfold job_le, _Job_lt.
  destruct (size (dependencies a) =? size (dependencies b))%nat eqn:He.
  - apply Nat.eqb_eq in He. intros H. right. split; [done|by apply id_lt_asym].
  - rewrite Nat.ltb_lt. by left.
Qed.

Global Instance job_le_trans : Transitive job_le.
Proof.
  intros a b c [H1|[H1 I1]] [H2|[H2 I2]]; unfold job_le; try (left; lia).
  right. split; [congruence|by eapply id_le_trans].
Qed.

Lemma insert_sorted_perm x l : insert_sorted x l ≡ₚ x :: l.
Proof.
  induction l as [|y l IH]; simpl; [done|].
  destruct (_Job_lt y x); [|done]. rewrite IH. apply Permutation_swap.
Qed.

Lemma insert_sorted_sorted x l :
  StronglySorted job_le l → StronglySorted job_le (insert_sorted x l).
Proof.
  induction 1 as [|y l Hl IH Hy]; simpl.
  - repeat constructor.
  - destruct (_Job_lt y x) eqn:Hlt.
    + constructor; [done|]. rewrite insert_sorted_perm.
      constructor; [by apply job_lt_le|done].
    + apply job_le_not_lt in Hlt. constructor; [by constructor|].
      constructor; [done|]. eapply Forall_impl; [done|].
      intros z Hz. by transitivity y.
Qed.

Lemma sorted_perm l : sorted l ≡ₚ l.
Proof.
  induction l as [|x l IH]; simpl; [done|].
  by rewrite insert_sorted_perm, IH.
Qed.

Lemma sorted_sorted l : StronglySorted job_le (sorted l).
Proof.
  induction l as [|x l IH]; simpl; [constructor|by apply insert_sorted_sorted].
Qed.

Lemma elem_of_iteritems order (m : gmap Z _Job) k j :
  (k, j) ∈ iteritems order m ↔ m !! k = Some j.
Proof. rewrite iteritems_perm. apply elem_of_map_to_list. Qed.

Lemma elem_of_values order (m : gmap Z _Job) j :
  j ∈ values order m ↔ ∃ k, m !! k = Some j.
Proof.
  unfold values. rewrite list_elem_of_fmap. split.
  - intros ([k j'] & -> & H). exists k.
    rewrite iteritems_perm in H. by apply elem_of_map_to_list.
  - intros [k H]. exists (k, j). split; [done|].
    rewrite iteritems_perm. by apply elem_of_map_to_list.
Qed.

Lemma promotion_job s s' :
  promotion s s' →
  ∃ k job, queued s !! k = Some job ∧ dependencies job = ∅
           ∧ threads job ≤ slots_available s ∧ s' = promoted job s.
Proof.
  intros (job & Hfit & ->). apply first_fit_Some in Hfit as (Hin & Hd & Ht).
  rewrite sorted_perm in Hin. apply elem_of_values in Hin as [k Hk]. eauto 10.
Qed.

(** What one promotion does to the two maps. *)
Lemma promotion_maps s s' :
  promotion s s' →
  (∀ k j, queued s' !! k = Some j → queued s !! k = Some j)
  ∧ (∀ k j, running s' !! k = Some j →
       running s !! k = Some j
       ∨ (dependencies j = ∅
          ∧ ∃ k0 j0, queued s !! k0 = Some j0 ∧ job_id j0 = Some k
                     ∧ j = set_process (Some (worker k)) j0)).
Proof.
  intros Hp. apply promotion_job in Hp as (k0 & job & Hk0 & Hd & _ & ->).
  destruct (id_in (job_id job) (queued s)) eqn:Hin.
  - unfold id_in in Hin. destruct (job_id job) as [id|] eqn:Hid; [|done].
    apply bool_decide_eq_true in Hin.
    destruct (promoted_fields job s id Hid Hin) as (-> & -> & _).
    split.
    + intros k j H. by apply lookup_delete_Some in H as [_ H].
    + intros k j H. destruct (decide (id = k)) as [<-|Hne].
      * rewrite lookup_insert_eq in H. injection H as <-. right.
        split; [done|]. by exists k0, job.
      * rewrite lookup_insert_ne in H by done. by left.
  - rewrite promoted_absent by done. simpl. split; [done|]. intros. by left.
Qed.


(** ** Preservation of the invariant *)

Lemma bind_inv {A B} (m : M A) (k : A → M B) s s' b :
  bind m k s = (s', Ok b) → ∃ s1 a, m s = (s1, Ok a) ∧ k a s1 = (s', Ok b).
Proof.
  unfold bind. destruct (m s) as [s1 [a|e]]; [|done]. intros H. by exists s1, a.
Qed.

Lemma pruned_shape s s' : pruned s s' → shape s → shape s'.
Proof.
  intros Hp [Hk Hd Hi]. split.
  - intros k j' Hj'. destruct (pruned_queued _ _ Hp k j' Hj') as (j & Hj & -> & _).
    simpl. by apply (Hk k).
  - intros k [j' Hj']. destruct (pruned_queued _ _ Hp k j' Hj') as (j & Hj & _).
    rewrite (pruned_running _ _ Hp). by apply Hd.
  - intros k Hin. rewrite (pruned_id _ _ Hp). apply Hi.
    rewrite (pruned_running _ _ Hp) in Hin. destruct Hin as [[j' Hj']|?]; [|by right].
    destruct (pruned_queued _ _ Hp k j' Hj') as (j & Hj & _). by left.
Qed.

Lemma pruned_balance s s' : pruned s s' → balance s' = balance s.
Proof.
  intros Hp. unfold balance.
  by rewrite (pruned_running _ _ Hp), (pruned_slots _ _ Hp), (pruned_total _ _ Hp).
Qed.

Lemma pruned_positive s s' : pruned s s' → positive s → positive s'.
Proof.
  intros Hp [Hq Hr Hs]. split.
  - intros k j' Hj'. destruct (pruned_queued _ _ Hp k j' Hj') as (j & Hj & -> & _).
    simpl. by apply (Hq k).
  - rewrite (pruned_running _ _ Hp). apply Hr.
  - by rewrite (pruned_slots _ _ Hp).
Qed.

Lemma promotion_keyed s s' :
  keys_ok s → promotion s s' →
  ∃ k job, queued s !! k = Some job ∧ job_id job = Some k
    ∧ dependencies job = ∅ ∧ threads job ≤ slots_available s
    ∧ running s' = <[k := set_process (Some (worker k)) job]> (running s)
    ∧ queued s' = delete k (queued s)
    ∧ slots_available s' = slots_available s - threads job
    ∧ slots_total s' = slots_total s
    ∧ wait_mode s' = wait_mode s
    ∧ _current_id s' = _current_id s
    ∧ response s' = response s
    ∧ os_events s' = os_events s ++ [Started (worker k)].
Proof.
  intros Hk Hp.
  apply promotion_job in Hp as (k & job & Hq & Hdep & Ht & ->).
  pose proof (Hk k job Hq) as Hid.
  destruct (promoted_fields job s k Hid) as (? & ? & ? & ? & ? & ? & ? & ?); [done|].
  exists k, job. by repeat (split; [done|]).
Qed.

Lemma promotion_keys_ok s s' : keys_ok s → promotion s s' → keys_ok s'.
Proof.
  intros Hk Hp.
  destruct (promotion_keyed s s' Hk Hp) as (k & job & _ & _ & _ & _ & _ & Hq' & _).
  intros k' j. rewrite Hq'. intros H. apply lookup_delete_Some in H as [_ H].
  by apply Hk.
Qed.

Lemma promotion_fields s s' :
  shape s → promotion s s' →
  ∃ k job, queued s !! k = Some job ∧ job_id job = Some k
    ∧ dependencies job = ∅ ∧ threads job ≤ slots_available s
    ∧ running s !! k = None
    ∧ running s' = <[k := set_process (Some (worker k)) job]> (running s)
    ∧ queued s' = delete k (queued s)
    ∧ slots_available s' = slots_available s - threads job
    ∧ slots_total s' = slots_total s
    ∧ wait_mode s' = wait_mode s
    ∧ _current_id s' = _current_id s
    ∧ response s' = response s
    ∧ os_events s' = os_events s ++ [Started (worker k)].
Proof.
  intros [Hk Hd Hi] Hp.
  destruct (promotion_keyed s s' Hk Hp) as (k & job & Hq & ? & ? & ? & ?).
  exists k, job. repeat (split; [done|]). split; [by apply Hd|done].
Qed.

Lemma promotion_shape s s' : shape s → promotion s s' → shape s'.
Proof.
  intros Hs Hp.
  destruct (promotion_fields s s' Hs Hp)
    as (k & job & Hq & Hid & _ & _ & Hr & Hr' & Hq' & _ & _ & _ & Hc & _).
  destruct Hs as [Hk Hd Hi]. split.
  - intros k' j. rewrite Hq'. intros H. apply lookup_delete_Some in H as [_ H].
    by apply Hk.
  - intros k' [j H]. rewrite Hq' in H. apply lookup_delete_Some in H as [Hne H].
    rewrite Hr', lookup_insert_ne by done. by apply Hd.
  - intros k'. rewrite Hc, Hq', Hr'. intros [[j H]|[j H]].
    + apply lookup_delete_Some in H as [_ H]. apply Hi. by left.
    + destruct (decide (k = k')) as [<-|Hne].
      * apply Hi. by left.
      * rewrite lookup_insert_ne in H by done. apply Hi. by right.
Qed.

Lemma promotion_balance s s' : shape s → promotion s s' → balance s' = balance s.
Proof.
  intros Hs Hp.
  destruct (promotion_fields s s' Hs Hp)
    as (k & job & _ & _ & _ & _ & Hr & Hr' & _ & Hsl & Ht & _).
  unfold balance. rewrite Hr', Hsl, Ht, sum_threads_insert by done. simpl. lia.
Qed.

Lemma promotion_positive s s' : shape s → promotion s s' → positive s → positive s'.
Proof.
  intros Hs Hp [Pq Pr Ps].
  destruct (promotion_fields s s' Hs Hp)
    as (k & job & Hq & _ & _ & Hfit & _ & Hr' & Hq' & Hsl & _).
  split.
  - intros k' j. rewrite Hq'. intros H. apply lookup_delete_Some in H as [_ H].
    by apply (Pq k').
  - intros k' j. rewrite Hr'. intros H. destruct (decide (k = k')) as [<-|Hne].
    + rewrite lookup_insert_eq in H. injection H as <-. simpl. by apply (Pq k).
    + rewrite lookup_insert_ne in H by done. by apply (Pr k').
  - rewrite Hsl. lia.
Qed.

Lemma promotions_preserve s s' :
  rtc promotion s s' →
  shape s →
  shape s' ∧ balance s' = balance s ∧ (positive s → positive s')
  ∧ slots_total s' = slots_total s ∧ _current_id s' = _current_id s
  ∧ wait_mode s' = wait_mode s ∧ response s' = response s.
Proof.
  induction 1 as [s|s s1 s' Hstep _ IH]; intros Hs; [done|].
  destruct (IH (promotion_shape _ _ Hs Hstep)) as (? & Hb & Hp & Ht & Hc & Hw & Hre).
  destruct (promotion_fields s s1 Hs Hstep)
    as (k & job & _ & _ & _ & _ & _ & _ & _ & _ & ? & ? & ? & ? & _).
  split; [done|]. split; [by rewrite Hb, (promotion_balance s s1)|].
  split; [intros Hpos; apply Hp; by apply (promotion_positive s s1)|].
  repeat split; congruence.
Qed.

Lemma schedule_preserves depth s s' r :
  schedule depth s = (s', r) → shape s →
  shape s' ∧ balance s' = balance s ∧ (positive s → positive s')
  ∧ slots_total s' = slots_total s ∧ _current_id s' = _current_id s
  ∧ wait_mode s' = wait_mode s ∧ response s' = response s.
Proof. intros H. apply promotions_preserve. by eapply schedule_promotions. Qed.

Lemma get_inv s s1 a : get s = (s1, Ok a) → s1 = s ∧ a = s.
Proof. by intros [= <- <-]. Qed.

Lemma modify_inv f s s1 a : modify f s = (s1, Ok a) → s1 = f s.
Proof. by intros [= <-]. Qed.

Lemma ret_inv {A} (x : A) s s1 a : ret x s = (s1, Ok a) → s1 = s ∧ a = x.
Proof. by intros [= <- <-]. Qed.

Lemma del_running_inv k s s1 a :
  del_running k s = (s1, Ok a) →
  is_Some (running s !! k) ∧ s1 = set_running (delete k (running s)) s.
Proof.
  unfold del_running, bind, get, modify, raise.
  destruct (running s !! k); [|done]. intros [= <-]. eauto.
Qed.

Lemma del_queued_inv k s s1 a :
  del_queued k s = (s1, Ok a) →
  is_Some (queued s !! k) ∧ s1 = set_queued (delete k (queued s)) s.
Proof.
  unfold del_queued, bind, get, modify, raise.
  destruct (queued s !! k); [|done]. intros [= <-]. eauto.
Qed.

Lemma process_join_inv job s s1 a :
  process_join job s = (s1, Ok a) →
  ∃ p, process job = Some p ∧ s1 = set_os_events (os_events s ++ [Joined p]) s.
Proof.
  unfold process_join, emit, modify, raise.
  destruct (process job) as [p|]; [|done]. intros [= <-]. eauto.
Qed.

Lemma process_terminate_inv job s s1 a :
  process_terminate job s = (s1, Ok a) →
  ∃ p, process job = Some p ∧ s1 = set_os_events (os_events s ++ [Terminated p]) s.
Proof.
  unfold process_terminate, emit, modify, raise.
  destruct (process job) as [p|]; [|done]. intros [= <-]. eauto.
Qed.

(** Splits a run of [m ;; k] that returned into the run of [m] and the
    run of [k]. *)
Ltac run_inv H :=
  let s1 := fresh "s" in
  let a := fresh "a" in
  let H1 := fresh "Hrun" in
  apply bind_inv in H as (s1 & a & H1 & H);
  first
    [ apply get_inv in H1 as [-> ->]
    | apply modify_inv in H1 as ->
    | apply ret_inv in H1 as [-> ->]
    | idtac ].

(** The state after a running job gave its slots back and left the map. *)
Lemma release_preserves s id job job' s2 s3 :
  shape s → running s !! id = Some job → threads job' = threads job →
  pruned (set_slots_available (slots_available s + threads job)
            (set_running (<[id := job']> (running s)) s)) s2 →
  s3 = set_running (delete id (running s2)) s2 →
  shape s3 ∧ balance s3 = balance s ∧ (positive s → positive s3)
  ∧ slots_total s3 = slots_total s.
Proof.
  intros Hs Hr Ht Hp ->.
  set (s1 := set_slots_available _ _) in Hp.
  assert (Hrun : running s2 = <[id := job']> (running s))
    by apply (pruned_running _ _ Hp).
  assert (Hdel : delete id (running s2) = delete id (running s))
    by (by rewrite Hrun, delete_insert_eq).
  assert (Hs1 : shape s1).
  { destruct Hs as [Hk Hd Hi]. split; [done| |].
    - intros k Hq. simpl. destruct (decide (id = k)) as [<-|Hne].
      + apply Hd in Hq. simpl in Hq. congruence.
      + rewrite lookup_insert_ne by done. by apply Hd.
    - intros k. simpl. intros [Hq|Hq]; [apply Hi; by left|].
      destruct (decide (id = k)) as [<-|Hne]; [apply Hi; by right|].
      rewrite lookup_insert_ne in Hq by done. apply Hi. by right. }
  pose proof (pruned_shape _ _ Hp Hs1) as [Hk2 Hd2 Hi2].
  split; [|split; [|split]].
  - split; [done| |].
    + intros k Hq. simpl. destruct (decide (id = k)) as [<-|Hne].
      * apply lookup_delete_eq.
      * rewrite lookup_delete_ne by done. by apply Hd2.
    + intros k. simpl. intros [Hq|Hq]; [apply Hi2; by left|].
      apply lookup_delete_is_Some in Hq as [_ Hq]. apply Hi2. by right.
  - unfold balance. simpl. rewrite Hdel, (pruned_slots _ _ Hp), (pruned_total _ _ Hp).
    rewrite (sum_threads_delete _ _ _ Hr). simpl. lia.
  - intros Hpos.
    assert (Hp1 : positive s1).
    { destruct Hpos as [Pq Pr Ps]. split; [done| |].
      - intros k j. simpl. intros H. destruct (decide (id = k)) as [<-|Hne].
        + rewrite lookup_insert_eq in H. injection H as <-. rewrite Ht. by apply (Pr id).
        + rewrite lookup_insert_ne in H by done. by apply (Pr k).
      - simpl. specialize (Pr id job Hr). lia. }
    destruct (pruned_positive _ _ Hp Hp1) as [Pq Pr Ps]. split; [done| |done].
    intros k j. simpl. intros H. apply lookup_delete_Some in H as [_ H].
    by apply (Pr k).
  - simpl. by rewrite (pruned_total _ _ Hp).
Qed.

Lemma _handle_done_preserves depth id state s s' :
  _handle_done depth id state s = (s', Ok true) → shape s →
  shape s' ∧ balance s' = balance s ∧ (positive s → positive s')
  ∧ slots_total s' = slots_total s.
Proof.
  unfold _handle_done. intros H Hs. run_inv H.
  destruct (running s !! id) as [job|] eqn:Hr; [|by apply ret_inv in H as [-> _]].
  run_inv H. apply process_join_inv in Hrun as (p & Hp & ->).
  run_inv H. run_inv H.
  run_inv H. apply _update_dependencies_pruned in Hrun.
  run_inv H.
  assert (Hcascade : pruned s0 s1).
  { destruct (negb (state =? 0)); [by eapply _remove_children_pruned|].
    apply ret_inv in Hrun0 as [-> _]. reflexivity. }
  run_inv H. apply del_running_inv in Hrun1 as [_ ->].
  run_inv H. apply ret_inv in H as [-> _].
  set (sj := set_os_events (os_events s ++ [Joined p]) s) in *.
  assert (Hsj : shape sj) by (by destruct Hs).
  assert (Hpr : pruned (set_slots_available (slots_available sj + threads job)
                          (set_running (<[id := set_process None job]> (running sj)) sj))
                       s1) by (by etransitivity).
  destruct (release_preserves sj id job (set_process None job) s1 _ Hsj Hr eq_refl Hpr eq_refl)
    as (Hs3 & Hb3 & Hp3 & Ht3).
  destruct (schedule_preserves _ _ _ _ Hrun1 Hs3) as (? & Hb & Hpos & Ht & _).
  split; [done|]. split; [by rewrite Hb, Hb3|].
  split; [|by rewrite Ht, Ht3].
  intros Hq. apply Hpos, Hp3. by destruct Hq.
Qed.

Lemma shape_set_os_events evs s : shape s → shape (set_os_events evs s).
Proof. by intros []. Qed.

Lemma positive_set_os_events evs s : positive s → positive (set_os_events evs s).
Proof. by intros []. Qed.

(** A running job leaves the map and its threads go back to the slots. *)
Lemma freed_preserves s id job :
  shape s → running s !! id = Some job →
  let s1 := set_running (delete id (running s))
              (set_slots_available (slots_available s + threads job) s) in
  shape s1 ∧ balance s1 = balance s ∧ (positive s → positive s1).
Proof.
  intros [Hk Hd Hi] Hr. simpl. split; [|split].
  - split; [done| |].
    + intros k Hq. simpl. apply lookup_delete_None. right. by apply Hd.
    + intros k. simpl. intros [Hq|Hq]; [apply Hi; by left|].
      apply lookup_delete_is_Some in Hq as [_ Hq]. apply Hi. by right.
  - unfold balance. simpl. rewrite (sum_threads_delete _ _ _ Hr). lia.
  - intros [Pq Pr Ps]. split; [done| |].
    + intros k j. simpl. intros H. apply lookup_delete_Some in H as [_ H].
      by apply (Pr k).
    + simpl. specialize (Pr id job Hr). lia.
Qed.

Lemma _handle_cancel_preserves depth arg s s' :
  _handle_cancel depth arg s = (s', Ok true) → shape s →
  shape s' ∧ balance s' = balance s ∧ (positive s → positive s')
  ∧ slots_total s' = slots_total s.
Proof.
  unfold _handle_cancel. intros H Hs. run_inv H.
  destruct arg as [id|]; [apply ret_inv in Hrun as [-> ->]|done].
  run_inv H. run_inv H.
  assert (Hmid : shape s0 ∧ balance s0 = balance s ∧ (positive s → positive s0)
                 ∧ slots_total s0 = slots_total s
                 ∧ (a = None → s' = s0 → s0 = s)).
  { destruct (running s !! id) as [job|] eqn:Hr.
    - run_inv Hrun. apply process_terminate_inv in Hrun0 as (p & _ & ->).
      run_inv Hrun. apply process_join_inv in Hrun0 as (p' & _ & ->).
      run_inv Hrun. run_inv Hrun. apply del_running_inv in Hrun0 as [_ ->].
      apply ret_inv in Hrun as [-> ->].
      set (sj := set_os_events _ (set_os_events _ s)).
      assert (Hsj : shape sj) by (by do 2 apply shape_set_os_events).
      destruct (freed_preserves sj id job Hsj Hr) as (H1 & H2 & H3).
      split; [exact H1|]. split; [exact H2|]. split; [|done].
      intros Hp. apply H3. by do 2 apply positive_set_os_events.
    - destruct (queued s !! id) as [job|] eqn:Hq.
      + run_inv Hrun. apply del_queued_pruned in Hrun0 as Hp.
        apply ret_inv in Hrun as [-> ->].
        split; [by eapply pruned_shape|]. split; [by apply pruned_balance|].
        split; [by apply pruned_positive|]. split; [apply Hp|done].
      + apply ret_inv in Hrun as [-> ->]. done. }
  destruct Hmid as (Hs0 & Hb0 & Hp0 & Ht0 & _).
  destruct a as [job|]; [|apply ret_inv in H as [-> _]; done].
  run_inv H. apply _update_dependencies_pruned in Hrun0.
  run_inv H. apply _remove_children_pruned in Hrun1.
  run_inv H. apply ret_inv in H as [-> _].
  assert (Hp2 : pruned s0 s2) by (by etransitivity).
  destruct (schedule_preserves _ _ _ _ Hrun2 (pruned_shape _ _ Hp2 Hs0))
    as (? & Hb & Hpos & Ht & _).
  split; [done|]. split; [by rewrite Hb, (pruned_balance _ _ Hp2)|].
  split; [|by rewrite Ht, (pruned_total _ _ Hp2)].
  intros Hq. by apply Hpos, (pruned_positive _ _ Hp2), Hp0.
Qed.

(** ** Registration of a new job with its dependencies *)

Global Instance with_children_preorder : PreOrder with_children.
Proof.
  split.
  - intros j. split; [by destruct j|done].
  - intros j1 j2 j3 [E2 S2] [E3 S3]. split; [|set_solver].
    rewrite E3, E2. by destruct j1.
Qed.

Global Instance relinked_preorder : PreOrder relinked.
Proof.
  split.
  - intros s. split; try done; intros k; reflexivity.
  - intros s1 s2 s3 H12 H23. split.
    1-6: destruct H12, H23; congruence.
    + intros k. transitivity (queued s2 !! k); [apply H12|apply H23].
    + intros k. transitivity (running s2 !! k); [apply H12|apply H23].
Qed.

Lemma add_child_with_children id j : with_children j (add_child id j).
Proof. split; [by destruct j|]. simpl. set_solver. Qed.

Lemma register_child_run id d s :
  ∃ s', register_child id d s = (s', Ok tt) ∧ relinked s s'
        ∧ (∀ j, queued s' !! d = Some j → id ∈ children j)
        ∧ (∀ j, running s' !! d = Some j → id ∈ children j).
Proof.
  unfold register_child, bind, get, modify, ret.
  destruct (queued s !! d) as [qj|] eqn:Hq;
    destruct (running s !! d) as [rj|] eqn:Hr; simpl; rewrite ?Hr;
    eexists; (split; [reflexivity|]); simpl.
  all: split; [split; try done; simpl; intros k|].
  all: try (destruct (decide (d = k)) as [<-|Hne];
            [rewrite lookup_insert_eq, ?Hq, ?Hr; constructor; apply add_child_with_children
            |rewrite lookup_insert_ne by done; reflexivity]).
  all: try reflexivity.
  all: rewrite ?lookup_insert_eq, ?Hq, ?Hr; split; intros j [= <-]; simpl; set_solver.
Qed.

Lemma relinked_children s s' d id :
  relinked s s' →
  (∀ j, queued s !! d = Some j → id ∈ children j) →
  (∀ j, running s !! d = Some j → id ∈ children j) →
  (∀ j, queued s' !! d = Some j → id ∈ children j)
  ∧ (∀ j, running s' !! d = Some j → id ∈ children j).
Proof.
  intros Hrel Hq Hr. split; intros j' Hj'.
  - pose proof (relinked_queued _ _ Hrel d) as H. rewrite Hj' in H.
    inversion H as [j ? [_ Hsub] Hj|]; subst. symmetry in Hj. apply Hsub. eauto.
  - pose proof (relinked_running _ _ Hrel d) as H. rewrite Hj' in H.
    inversion H as [j ? [_ Hsub] Hj|]; subst. symmetry in Hj. apply Hsub. eauto.
Qed.

(** The loop returns; it only adds children; every dependency that is in a
    map afterwards has the new job among its children. *)
Lemma register_loop_run id ds s :
  ∃ s', for_each ds (register_child id) s = (s', Ok tt) ∧ relinked s s'
        ∧ ∀ d, d ∈ ds →
            (∀ j, queued s' !! d = Some j → id ∈ children j)
            ∧ (∀ j, running s' !! d = Some j → id ∈ children j).
Proof.
  revert s. induction ds as [|d ds IH]; intros s; simpl.
  - exists s. split; [done|]. split; [reflexivity|]. intros d Hd. by apply elem_of_nil in Hd.
  - destruct (register_child_run id d s) as (s1 & Hrun & Hrel & Hq & Hr).
    destruct (IH s1) as (s' & Hrun' & Hrel' & Hall).
    exists s'. split; [by rewrite (bind_Ok _ _ _ _ _ Hrun)|].
    split; [by etransitivity|].
    intros d' Hd'. apply elem_of_cons in Hd' as [->|Hd']; [|by apply Hall].
    by apply (relinked_children s1).
Qed.

Lemma sum_threads_ext (m m' : gmap Z _Job) :
  (∀ k, option_Forall2 (λ j j', threads j' = threads j) (m !! k) (m' !! k)) →
  sum_threads m' = sum_threads m.
Proof.
  intros H. unfold sum_threads.
  change (λ (_ : Z) (j : _Job) (acc : Z), threads j + acc)
    with (λ i : Z, (λ (t acc : Z), t + acc) ∘ threads).
  rewrite <-!(map_fold_fmap (λ (_ : Z) (t acc : Z), t + acc) threads).
  f_equal. apply map_eq. intros k. rewrite !lookup_fmap.
  destruct (H k) as [j j' Ht|]; simpl; [by rewrite Ht|done].
Qed.

Lemma relinked_preserves s s' :
  relinked s s' →
  (shape s → shape s') ∧ balance s' = balance s ∧ (positive s → positive s').
Proof.
  intros Hrel. split; [|split].
  - intros [Hk Hd Hi]. split.
    + intros k j' Hj'. pose proof (relinked_queued _ _ Hrel k) as H. rewrite Hj' in H.
      inversion H as [j ? [-> _] Hj|]; subst. simpl. apply Hk. by symmetry.
    + intros k [j' Hj']. pose proof (relinked_queued _ _ Hrel k) as H. rewrite Hj' in H.
      inversion H as [j ? _ Hj|]; subst.
      pose proof (relinked_running _ _ Hrel k) as H'.
      rewrite Hd in H' by (by rewrite <-Hj). by inversion H'.
    + intros k Hin. rewrite (relinked_id _ _ Hrel). apply Hi.
      destruct Hin as [[j' Hj']|[j' Hj']]; [left|right].
      * pose proof (relinked_queued _ _ Hrel k) as H. rewrite Hj' in H.
        inversion H; subst; eauto.
      * pose proof (relinked_running _ _ Hrel k) as H. rewrite Hj' in H.
        inversion H; subst; eauto.
  - unfold balance.
    rewrite (relinked_slots _ _ Hrel), (relinked_total _ _ Hrel).
    rewrite (sum_threads_ext (running s) (running s')); [done|].
    intros k. destruct (relinked_running _ _ Hrel k) as [j j' [-> _]|]; by constructor.
  - intros [Pq Pr Ps]. split.
    + intros k j' Hj'. pose proof (relinked_queued _ _ Hrel k) as H. rewrite Hj' in H.
      inversion H as [j ? [-> _] Hj|]; subst. simpl. apply (Pq k). by symmetry.
    + intros k j' Hj'. pose proof (relinked_running _ _ Hrel k) as H. rewrite Hj' in H.
      inversion H as [j ? [-> _] Hj|]; subst. simpl. apply (Pr k). by symmetry.
    + by rewrite (relinked_slots _ _ Hrel).
Qed.

Lemma _next_id_run s :
  _next_id s = (set_current_id (_current_id s + 1) s, Ok (_current_id s + 1)).
Proof. reflexivity. Qed.

(** The state in which [_handle_submit] calls the scheduler, if it does. *)
Lemma _handle_submit_queues depth job s s' r :
  _handle_submit depth job s = (s', r) →
  let id := _current_id s + 1 in
  let job' := set_stderr (_resolve_log id (stderr job))
                (set_stdout (_resolve_log id (stdout job))
                   (set_job_id (Some id) job)) in
  ∃ s1,
    relinked (set_queued (<[id := job']> (queued s)) (set_current_id id s)) s1
    ∧ (∀ d, d ∈ dependencies job →
         (∀ j, queued s1 !! d = Some j → id ∈ children j)
         ∧ (∀ j, running s1 !! d = Some j → id ∈ children j))
    ∧ ((1 <=? slots_available s1) = true →
         ∃ r', schedule depth (set_response (response s1 ++ [ReplyId id]) s1) = (s', r')
               ∧ (r = Raise RecursionError ∨ r = Ok true))
    ∧ ((1 <=? slots_available s1) = false →
         s' = set_response (response s1 ++ [ReplyId id]) s1 ∧ r = Ok true).
Proof.
  unfold _handle_submit. intros H. simpl.
  rewrite (bind_Ok _ _ _ _ _ (_next_id_run s)) in H.
  unfold bind at 1, modify at 1 in H. simpl in H.
  set (id := _current_id s + 1) in *.
  set (job' := set_stderr _ (set_stdout _ (set_job_id (Some id) job))) in *.
  set (s0 := set_queued _ _) in H.
  destruct (register_loop_run id (elements (dependencies job')) s0)
    as (s1 & Hloop & Hrel & Hall).
  rewrite (bind_Ok _ _ _ _ _ Hloop) in H.
  unfold bind at 1, response_put, modify at 1 in H. simpl in H.
  unfold bind at 1, get at 1 in H. simpl in H.
  exists s1. split; [exact Hrel|]. split.
  { intros d Hd. apply Hall. by apply elem_of_elements. }
  unfold bind, ret in H.
  destruct (1 <=? slots_available s1); (split; [intros Hc|intros Hc]); try done.
  - destruct (schedule depth _) as [s2 [[]|e]] eqn:Hs; injection H as <- <-.
    + exists (Ok tt). split; [done|by right].
    + exists (Raise e). split; [done|].
      left. f_equal. clear -Hs. revert Hs. generalize (set_response (response s1 ++ [ReplyId id]) s1).
      induction depth as [|depth IH]; intros t; simpl; [by intros [= _ <-]|].
      unfold bind, get. rewrite schedule_scan_run.
      destruct (first_fit _ _); [|done]. destruct (1 <=? _); [apply IH|done].
  - by injection H as <- <-.
Qed.

Lemma submit_queued_preserves s job' :
  let id := _current_id s + 1 in
  let s0 := set_queued (<[id := job']> (queued s)) (set_current_id id s) in
  shape s → job_id job' = Some id →
  shape s0 ∧ balance s0 = balance s ∧ (1 ≤ threads job' → positive s → positive s0).
Proof.
  intros id s0 [Hk Hd Hi] Hid.
  assert (Hfresh : ∀ k, is_Some (queued s !! k) ∨ is_Some (running s !! k) → k ≠ id).
  { intros k Hin ->. apply Hi in Hin. lia. }
  split; [|split].
  - split.
    + intros k j. simpl. intros H. destruct (decide (id = k)) as [<-|Hne].
      * rewrite lookup_insert_eq in H. by injection H as <-.
      * rewrite lookup_insert_ne in H by done. by apply Hk.
    + intros k. simpl. intros H. destruct (decide (id = k)) as [<-|Hne].
      * destruct (running s !! id) eqn:Hr; [|done]. by destruct (Hfresh id); eauto.
      * rewrite lookup_insert_ne in H by done. by apply Hd.
    + intros k. simpl. intros H. destruct (decide (id = k)) as [<-|Hne]; [lia|].
      rewrite lookup_insert_ne in H by done. apply Hi in H. lia.
  - reflexivity.
  - intros Ht [Pq Pr Ps]. split; [|done|done].
    intros k j. simpl. intros H. destruct (decide (id = k)) as [<-|Hne].
    + rewrite lookup_insert_eq in H. by injection H as <-.
    + rewrite lookup_insert_ne in H by done. by apply (Pq k).
Qed.

Lemma shape_set_response v s : shape s → shape (set_response v s).
Proof. by intros []. Qed.

Lemma positive_set_response v s : positive s → positive (set_response v s).
Proof. by intros []. Qed.

Lemma _handle_submit_preserves depth job s s' :
  _handle_submit depth job s = (s', Ok true) → shape s →
  shape s' ∧ balance s' = balance s
  ∧ (1 ≤ threads job → positive s → positive s')
  ∧ slots_total s' = slots_total s.
Proof.
  intros H Hs.
  destruct (_handle_submit_queues _ _ _ _ _ H) as (s1 & Hrel & _ & Hyes & Hno).
  match type of Hrel with
  | relinked (set_queued (<[_ := ?j]> _) _) _ =>
      destruct (submit_queued_preserves s j Hs eq_refl) as (Hs0 & Hb0 & Hp0)
  end.
  destruct (relinked_preserves _ _ Hrel) as (Hs1 & Hb1 & Hp1).
  assert (Ht1 : slots_total s1 = slots_total s) by apply (relinked_total _ _ Hrel).
  specialize (Hs1 Hs0).
  destruct (1 <=? slots_available s1).
  - destruct Hyes as (r' & Hrun & _); [done|].
    apply schedule_preserves in Hrun as (? & Hb & Hp & Ht & _);
      [|by apply shape_set_response].
    split; [done|]. split; [rewrite Hb; unfold balance in *; simpl; lia|].
    split; [|by rewrite Ht].
    intros Hj Hpos. by apply Hp, positive_set_response, Hp1, Hp0.
  - destruct Hno as [-> _]; [done|].
    split; [by apply shape_set_response|]. split; [unfold balance in *; simpl; lia|].
    split; [|done]. intros Hj Hpos. by apply positive_set_response, Hp1, Hp0.
Qed.

Lemma _handle_exit_stops s s' r : _handle_exit s = (s', r) → r ≠ Ok true.
Proof.
  unfold _handle_exit, bind, get, ret.
  destruct (for_each _ _ s) as [s1 [[]|e]]; by intros [= _ <-].
Qed.

Lemma dispatch_preserves depth msg s s' :
  dispatch depth msg s = (s', Ok true) → shape s →
  shape s' ∧ balance s' = balance s
  ∧ (submits_positive msg → positive s → positive s')
  ∧ slots_total s' = slots_total s.
Proof.
  destruct msg as [| |job| |id state|id error|id]; simpl; intros H Hs.
  - by apply _handle_exit_stops in H.
  - injection H as <-. split; [by apply shape_set_response|].
    split; [done|]. split; [|done]. intros _. apply positive_set_response.
  - by apply (_handle_submit_preserves depth).
  - unfold _handle_wait, bind, get, ret, modify in H.
    destruct (negb (wait_mode s)); injection H as <-; [|done].
    split; [by destruct Hs|]. split; [done|]. split; [|done]. by intros _ [].
  - destruct (_handle_done_preserves _ _ _ _ _ H Hs) as (? & ? & ? & ?). auto.
  - by rewrite (_handle_failed_raises depth id error s) in H.
  - destruct (_handle_cancel_preserves _ _ _ _ H Hs) as (? & ? & ? & ?). auto.
Qed.

Lemma handles_preserve depth s msgs s' :
  handles depth s msgs s' → shape s →
  shape s' ∧ balance s' = balance s
  ∧ (Forall submits_positive msgs → positive s → positive s')
  ∧ slots_total s' = slots_total s.
Proof.
  induction 1 as [s|s msg s1 msgs s' Hstep _ IH]; intros Hs; [done|].
  destruct (dispatch_preserves _ _ _ _ Hstep Hs) as (Hs1 & Hb1 & Hp1 & Ht1).
  destruct (IH Hs1) as (Hs' & Hb' & Hp' & Ht').
  split; [done|]. split; [congruence|]. split; [|congruence].
  intros Hall Hpos. apply Forall_cons in Hall as [Hm Hall]. auto.
Qed.

Lemma shape_init order cpu_count cores : shape (_GridMaster_init order cpu_count cores).
Proof.
  split.
  - intros k j H. simpl in H. by rewrite lookup_empty in H.
  - intros k [j H]. simpl in H. by rewrite lookup_empty in H.
  - intros k [[j H]|[j H]]; simpl in H; by rewrite lookup_empty in H.
Qed.

(** C3: in every state the master reaches from its initial state by
    handling messages to completion, the free slots and the threads of the
    running jobs add up to the total number of slots.  When the master
    starts with a number of slots that is not negative and every submitted
    job asks for at least one thread, the threads of the running jobs never
    exceed the total. *)
Theorem slots_add_up (depth : nat) (order : DictOrder) (cpu_count : Z)
    (cores : option Z) (msgs : list Msg) (s : _GridMaster) :
  handles depth (_GridMaster_init order cpu_count cores) msgs s →
  slots_available s + sum_threads (running s) = slots_total s
  ∧ (0 ≤ slots_total (_GridMaster_init order cpu_count cores) →
     Forall submits_positive msgs →
     sum_threads (running s) ≤ slots_total s).
Proof.
  intros H.
  destruct (handles_preserve _ _ _ _ H (shape_init order cpu_count cores))
    as (_ & Hb & Hp & _).
  assert (Heq : slots_available s + sum_threads (running s) = slots_total s).
  { unfold balance in Hb. simpl in Hb. rewrite sum_threads_empty in Hb. lia. }
  split; [done|]. intros H0 Hall.
  destruct Hp as [_ _ Hslots]; [done| |lia].
  split; simpl; [intros k j Hk; by rewrite lookup_empty in Hk..|done].
Qed.

Lemma start_handles depth msgs s s' :
  start depth msgs s = (s', [], AwaitsMessage) → handles depth s msgs s'.
Proof.
  revert s. induction msgs as [|msg msgs IH]; intros s; simpl;
    destruct (wait_mode s && (_num_jobs s =? 0)%nat); try done.
  - intros [= <-]. constructor.
  - destruct (dispatch depth msg s) as [s1 [[]|e]] eqn:Hd; try done.
    intros H. econstructor; [done|by apply IH].
Qed.

Lemma slots_add_up_witness :
  slots_available master_a_done + sum_threads (running master_a_done)
  = slots_total master_a_done
  ∧ sum_threads (running master_a_done) ≤ slots_total master_a_done.
Proof.
  destruct (slots_add_up 10 ascending 1 None [SUBMIT job_a; SUBMIT job_b; DONE 1 0] master_a_done)
    as [H1 H2].
  - apply start_handles. vm_compute. reflexivity.
  - split; [exact H1|]. apply H2.
    + vm_compute. discriminate.
    + repeat constructor; vm_compute; discriminate.
Defined.

(** ** Edges between a new job and its dependencies *)

Lemma relinked_keys_ok s s' : relinked s s' → keys_ok s → keys_ok s'.
Proof.
  intros Hrel Hk k j' Hj'. pose proof (relinked_queued _ _ Hrel k) as H.
  rewrite Hj' in H. inversion H as [j ? [-> _] Hj|]; subst. simpl. apply Hk.
  by symmetry.
Qed.

(** Promotions keep a queued job that has dependencies where it is, keep
    the ids that are in use in use, and keep the children of every job. *)
Lemma promotions_keep_edges s s' id B (P : _Job → Prop) :
  rtc promotion s s' → keys_ok s →
  queued s !! id = Some B → dependencies B ≠ ∅ →
  (∀ j p, P j → P (set_process p j)) →
  queued s' !! id = Some B
  ∧ ∀ d,
      ((∀ A, queued s !! d = Some A ∨ running s !! d = Some A → P A) →
       (∀ A, queued s' !! d = Some A ∨ running s' !! d = Some A → P A))
      ∧ (is_Some (queued s !! d) ∨ is_Some (running s !! d) →
         is_Some (queued s' !! d) ∨ is_Some (running s' !! d)).
Proof.
  intros Hrtc Hk HB Hdep HP. induction Hrtc as [s|s s1 s' Hstep _ IH]; [done|].
  destruct (promotion_keyed s s1 Hk Hstep)
    as (k & job & Hq & _ & Hd & _ & Hr1 & Hq1 & _).
  assert (Hne : k ≠ id) by (intros ->; congruence).
  destruct IH as [HB' Hrest].
  { by eapply promotion_keys_ok. }
  { by rewrite Hq1, lookup_delete_ne. }
  split; [done|]. intros d. destruct (Hrest d) as [Hch Hin]. split.
  - intros Hall. apply Hch. intros A. rewrite Hq1, Hr1.
    destruct (decide (k = d)) as [<-|Hkd].
    + rewrite lookup_delete_eq, lookup_insert_eq. intros [?|[= <-]]; [done|].
      apply HP, Hall. by left.
    + rewrite lookup_delete_ne, lookup_insert_ne by done. apply Hall.
  - intros Hpre. apply Hin. rewrite Hq1, Hr1.
    destruct (decide (k = d)) as [<-|Hkd].
    + right. rewrite lookup_insert_eq. eauto.
    + by rewrite lookup_delete_ne, lookup_insert_ne.
Qed.

(** C6: when the submit handler has run for a job B, B is queued under
    the id it was given and holds the dependency set it was submitted with;
    every job A stored under an id of this set, queued or running, has B's
    id among its children; and every such id that was in use before the
    submit is still in use. *)
Theorem submit_mirrors_edges (depth : nat) (job : _Job) (s s' : _GridMaster)
    (r : outcome bool) :
  keys_ok s →
  _handle_submit depth job s = (s', r) →
  let id := _current_id s + 1 in
  ∀ d, d ∈ dependencies job →
    (∃ B, queued s' !! id = Some B ∧ job_id B = Some id
          ∧ dependencies B = dependencies job ∧ d ∈ dependencies B)
    ∧ (∀ A, queued s' !! d = Some A ∨ running s' !! d = Some A → id ∈ children A)
    ∧ (is_Some (queued s !! d) ∨ is_Some (running s !! d) →
       is_Some (queued s' !! d) ∨ is_Some (running s' !! d)).
Proof.
  intros Hk H id d Hd.
  destruct (_handle_submit_queues _ _ _ _ _ H) as (s1 & Hrel & Hall & Hyes & Hno).
  fold id in Hrel, Hall, Hyes, Hno.
  set (job' := set_stderr _ (set_stdout _ (set_job_id (Some id) job))) in Hrel.
  set (s0 := set_queued _ _) in Hrel.
  assert (Hk1 : keys_ok s1).
  { apply (relinked_keys_ok s0); [done|]. intros k j. subst s0. simpl.
    destruct (decide (id = k)) as [<-|Hne].
    - rewrite lookup_insert_eq. by intros [= <-].
    - rewrite lookup_insert_ne by done. apply Hk. }
  assert (HB : ∃ B, queued s1 !! id = Some B ∧ job_id B = Some id
                    ∧ dependencies B = dependencies job).
  { pose proof (relinked_queued _ _ Hrel id) as HR. subst s0. simpl in HR.
    rewrite lookup_insert_eq in HR. inversion HR as [j0 B [EB _] Hj0 HB|]; subst j0.
    exists B. split; [done|]. rewrite EB. done. }
  destruct HB as (B & HB & HidB & HdB).
  assert (Hpre : is_Some (queued s !! d) ∨ is_Some (running s !! d) →
                 is_Some (queued s1 !! d) ∨ is_Some (running s1 !! d)).
  { intros [[j Hj]|[j Hj]]; [left|right].
    - pose proof (relinked_queued _ _ Hrel d) as HR. subst s0. simpl in HR.
      destruct (decide (id = d)) as [<-|Hne]; [by rewrite HB|].
      rewrite lookup_insert_ne, Hj in HR by done. inversion HR. eauto.
    - pose proof (relinked_running _ _ Hrel d) as HR. subst s0. simpl in HR.
      rewrite Hj in HR. inversion HR. eauto. }
  set (s2 := set_response (response s1 ++ [ReplyId id]) s1) in *.
  assert (Hrtc : rtc promotion s2 s').
  { destruct (1 <=? slots_available s1).
    - destruct Hyes as (r' & Hrun & _); [done|]. by eapply schedule_promotions.
    - destruct Hno as [-> _]; [done|]. reflexivity. }
  destruct (promotions_keep_edges s2 s' id B (λ j, id ∈ children j) Hrtc)
    as [HB' Hrest]; [done|done| |done|].
  { rewrite HdB. intros He. rewrite He in Hd. by apply not_elem_of_empty in Hd. }
  destruct (Hrest d) as [Hch Hin]. split; [|split].
  - exists B. rewrite HdB. done.
  - apply Hch. destruct (Hall d Hd) as [Hq Hr].
    intros A [HA|HA]; [by apply Hq|by apply Hr].
  - intros Hbefore. by apply Hin, Hpre.
Qed.

Lemma submit_mirrors_edges_witness :
  (∃ B, queued master_a_running !! 2 = Some B ∧ job_id B = Some 2
        ∧ dependencies B = {[ 1 ]} ∧ 1 ∈ dependencies B)
  ∧ (∀ A, queued master_a_running !! 1 = Some A ∨ running master_a_running !! 1 = Some A
          → 2 ∈ children A)
  ∧ is_Some (running master_a_running !! 1).
Proof.
  assert (Hk : keys_ok master_a_submitted).
  { intros k j H. vm_compute in H. discriminate. }
  assert (Hrun : _handle_submit 10 job_b master_a_submitted = (master_a_running, Ok true)).
  { vm_compute. reflexivity. }
  destruct (submit_mirrors_edges 10 job_b master_a_submitted master_a_running
              (Ok true) Hk Hrun 1) as (H1 & H2 & H3).
  { vm_compute. reflexivity. }
  split; [exact H1|]. split; [exact H2|].
  destruct H3 as [H3|H3].
  - right. vm_compute. eauto.
  - destruct H3 as [j H3]. vm_compute in H3. discriminate.
  - exact H3.
Defined.

(** ** The guarded restart against the reference scheduler *)

Lemma first_fit_none slots l :
  (∀ j, j ∈ l → slots < threads j) → first_fit slots l = None.
Proof.
  induction l as [|x l IH]; intros H; simpl; [done|].
  destruct (0 <? size (dependencies x))%nat; [done|].
  rewrite (proj2 (Z.leb_gt _ _)) by (apply H; left).
  apply IH. intros j Hj. apply H. by right.
Qed.

(** Without a free slot the reference scheduler finds nothing to start
    among jobs that need at least one. *)
Lemma reference_schedule_idle depth s :
  (∀ k j, queued s !! k = Some j → 1 ≤ threads j) →
  slots_available s < 1 →
  reference_schedule (S depth) s = (s, Ok tt).
Proof.
  intros Hpos Hs. simpl. unfold bind, get. rewrite reference_scan_run.
  rewrite first_fit_none; [done|].
  intros j Hj. rewrite sorted_perm in Hj. apply elem_of_values in Hj as [k Hk].
  specialize (Hpos k j Hk). lia.
Qed.

Lemma schedule_refines_reference depth s :
  keys_ok s →
  (∀ k j, queued s !! k = Some j → 1 ≤ threads j) →
  (size (queued s) < depth)%nat →
  ∃ s', schedule depth s = (s', Ok tt) ∧ reference_schedule depth s = (s', Ok tt).
Proof.
  revert s. induction depth as [|depth IH]; intros s Hk Hpos Hsize; [lia|].
  simpl. unfold bind, get. rewrite schedule_scan_run, reference_scan_run.
  destruct (first_fit _ _) as [job|] eqn:Hfit; [|by exists s].
  assert (Hstep : promotion s (promoted job s)) by (by exists job).
  destruct (promotion_keyed _ _ Hk Hstep) as (k & job' & Hq & _ & _ & _ & _ & Hq' & _).
  assert (Hk1 : keys_ok (promoted job s)) by (by eapply promotion_keys_ok).
  assert (Hpos1 : ∀ k j, queued (promoted job s) !! k = Some j → 1 ≤ threads j).
  { intros k1 j1. rewrite Hq'. intros H. apply lookup_delete_Some in H as [_ H].
    by apply (Hpos k1). }
  assert (Hsize1 : (size (queued (promoted job s)) < depth)%nat).
  { rewrite Hq', map_size_delete_Some by eauto.
    assert (size (queued s) ≠ 0%nat); [|lia].
    intros H0. apply map_size_empty_inv in H0. by rewrite H0, lookup_empty in Hq. }
  destruct (1 <=? slots_available (promoted job s)) eqn:Hslots.
  - by apply IH.
  - exists (promoted job s). split; [done|].
    destruct depth as [|depth]; [lia|].
    apply reference_schedule_idle; [done|]. by apply Z.leb_gt.
Qed.

Lemma relinked_size s s' : relinked s s' → size (queued s') = size (queued s).
Proof.
  intros Hrel. rewrite <-!size_dom. f_equal. apply set_eq. intros k.
  rewrite !elem_of_dom. destruct (relinked_queued _ _ Hrel k); split; intros [? ?]; eauto; done.
Qed.

(** The part that [_handle_submit] and the reference handler share: it
    returns, and hands the state with the new job queued, registered and
    acknowledged to whatever follows. *)
Lemma submit_prefix_run job s :
  let id := _current_id s + 1 in
  let job' := set_stderr (_resolve_log id (stderr job))
                (set_stdout (_resolve_log id (stdout job))
                   (set_job_id (Some id) job)) in
  ∃ s1,
    relinked (set_queued (<[id := job']> (queued s)) (set_current_id id s)) s1
    ∧ ∀ k : M bool,
        bind _next_id (λ job_id,
          let job := set_job_id (Some job_id) job in
          let job := set_stdout (_resolve_log job_id (stdout job)) job in
          let job := set_stderr (_resolve_log job_id (stderr job)) job in
          bind (modify (λ s, set_queued (<[job_id := job]> (queued s)) s)) (λ _,
            bind (for_each (elements (dependencies job)) (register_child job_id)) (λ _,
              bind (response_put (ReplyId job_id)) (λ _, k)))) s
        = k (set_response (response s1 ++ [ReplyId id]) s1).
Proof.
  intros id job'.
  destruct (register_loop_run id (elements (dependencies job'))
              (set_queued (<[id := job']> (queued s)) (set_current_id id s)))
    as (s1 & Hloop & Hrel & _).
  exists s1. split; [done|]. intros k.
  rewrite (bind_Ok _ _ _ _ _ (_next_id_run s)).
  unfold bind at 1, modify at 1. simpl.
  fold id. fold job'. rewrite (bind_Ok _ _ _ _ _ Hloop).
  reflexivity.
Qed.

(** C7: when every queued job needs at least one thread, the scheduler
    with its guarded restart returns, and returns what the reference
    scheduler returns, which restarts after every promotion without
    looking at the free slots; and the submit handler, which calls the
    scheduler only when a slot is free, does what the reference handler
    does, which always calls it.  [depth] has to leave room for one frame
    per queued job and one more. *)
Theorem guarded_restart_matches_reference (depth : nat) (s : _GridMaster) :
  keys_ok s →
  (∀ k j, queued s !! k = Some j → 1 ≤ threads j) →
  ((size (queued s) < depth)%nat →
     ∃ s', schedule depth s = (s', Ok tt)
           ∧ reference_schedule depth s = (s', Ok tt))
  ∧ (∀ job, 1 ≤ threads job → (S (size (queued s)) < depth)%nat →
       ∃ s', _handle_submit depth job s = (s', Ok true)
             ∧ reference_submit depth job s = (s', Ok true)).
Proof.
  intros Hk Hpos. split; [by apply schedule_refines_reference|].
  intros job Hjob Hsize.
  destruct (submit_prefix_run job s) as (s1 & Hrel & Hrun).
  set (id := _current_id s + 1) in *.
  set (job' := set_stderr _ (set_stdout _ (set_job_id (Some id) job))) in *.
  set (s0 := set_queued _ _) in Hrel.
  set (s2 := set_response (response s1 ++ [ReplyId id]) s1) in *.
  assert (Hk0 : keys_ok s0).
  { intros k j. subst s0. simpl. destruct (decide (id = k)) as [<-|Hne].
    - rewrite lookup_insert_eq. by intros [= <-].
    - rewrite lookup_insert_ne by done. apply Hk. }
  assert (Hk2 : keys_ok s2) by apply (relinked_keys_ok _ _ Hrel Hk0).
  assert (Hpos2 : ∀ k j, queued s2 !! k = Some j → 1 ≤ threads j).
  { intros k j' Hj'. pose proof (relinked_queued _ _ Hrel k) as HR.
    change (queued s2) with (queued s1) in Hj'. rewrite Hj' in HR.
    inversion HR as [j ? [-> _] Hj|]; subst. simpl. symmetry in Hj.
    subst s0. simpl in Hj. destruct (decide (id = k)) as [<-|Hne].
    - rewrite lookup_insert_eq in Hj. by injection Hj as <-.
    - rewrite lookup_insert_ne in Hj by done. by apply (Hpos k). }
  assert (Hsize2 : (size (queued s2) < depth)%nat).
  { change (queued s2) with (queued s1). rewrite (relinked_size _ _ Hrel).
    subst s0. simpl.
    destruct (queued s !! id) eqn:Hid.
    - rewrite map_size_insert_Some by eauto. lia.
    - rewrite map_size_insert_None by done. lia. }
  destruct (schedule_refines_reference depth s2 Hk2 Hpos2 Hsize2) as (s' & Hs & Hr).
  unfold _handle_submit, reference_submit. rewrite !Hrun.
  unfold bind at 1, get at 1.
  destruct (1 <=? slots_available s2) eqn:Hslots.
  - exists s'. by rewrite (bind_Ok _ _ _ _ _ Hs), (bind_Ok _ _ _ _ _ Hr).
  - exists s2. split; [done|].
    destruct depth as [|depth]; [lia|].
    rewrite (bind_Ok _ _ _ _ _ (reference_schedule_idle depth s2 Hpos2 ltac:(by apply Z.leb_gt))).
    done.
Qed.

Lemma guarded_restart_matches_reference_witness :
  (∃ s', schedule 10 master_a_queued = (s', Ok tt)
         ∧ reference_schedule 10 master_a_queued = (s', Ok tt))
  ∧ (∃ s', _handle_submit 10 job_b master_a_queued = (s', Ok true)
           ∧ reference_submit 10 job_b master_a_queued = (s', Ok true)).
Proof.
  assert (Hk : keys_ok master_a_queued).
  { intros k j H. destruct (decide (k = 1)) as [->|Hne].
    - vm_compute in H. by injection H as <-.
    - change (queued master_a_queued) with (<[1 := set_stderr (Some "/tmp/jip-1.err") (set_stdout (Some "/tmp/jip-1.out") (set_job_id (Some 1) job_a))]> (∅ : gmap Z _Job)) in H.
      by rewrite lookup_insert_ne, lookup_empty in H. }
  assert (Hpos : ∀ k j, queued master_a_queued !! k = Some j → 1 ≤ threads j).
  { intros k j H. specialize (Hk k j H).
    destruct (decide (k = 1)) as [->|Hne].
    - vm_compute in H. injection H as <-. vm_compute. discriminate.
    - change (queued master_a_queued) with (<[1 := set_stderr (Some "/tmp/jip-1.err") (set_stdout (Some "/tmp/jip-1.out") (set_job_id (Some 1) job_a))]> (∅ : gmap Z _Job)) in H.
      by rewrite lookup_insert_ne, lookup_empty in H. }
  destruct (guarded_restart_matches_reference 10 master_a_queued Hk Hpos) as [H1 H2].
  split.
  - apply H1. vm_compute. lia.
  - apply (H2 job_b); [vm_compute; discriminate|vm_compute; lia].
Defined.

(** ** Cascade removal *)

Lemma _remove_children_unfold depth job :
  _remove_children (S depth) job
  = for_each (elements (children job)) (remove_child depth).
Proof. reflexivity. Qed.

Lemma queued_descendant_dom q cs k : queued_descendant q cs k → is_Some (q !! k).
Proof. by destruct 1. Qed.

Lemma queued_descendant_mono q1 q cs1 cs k :
  (∀ k j, q1 !! k = Some j → q !! k = Some j) → cs1 ⊆ cs →
  queued_descendant q1 cs1 k → queued_descendant q cs k.
Proof.
  intros Hq Hcs. induction 1 as [c Hc [j Hj]|p pj c _ IH Hp Hc [j Hj]].
  - apply qd_child; [by apply Hcs|]. eauto.
  - eapply qd_step; [exact IH|by apply Hq|done|eauto].
Qed.

(** The descendants through a queued child are descendants. *)
Lemma queued_descendant_through q cs c child k :
  c ∈ cs → q !! c = Some child →
  queued_descendant q (children child) k → queued_descendant q cs k.
Proof.
  intros Hc Hq. induction 1 as [x Hx Hdom|p pj x _ IH Hp Hx Hdom].
  - eapply qd_step; [apply qd_child; [done|eauto]|done|done|done].
  - by eapply qd_step.
Qed.

Lemma queued_descendant_absent q cs c k :
  q !! c = None →
  queued_descendant q ({[ c ]} ∪ cs) k → queued_descendant q cs k.
Proof.
  intros Hc. induction 1 as [x Hx Hdom|p pj x _ IH Hp Hx Hdom].
  - apply elem_of_union in Hx as [Hx|Hx].
    + apply elem_of_singleton in Hx as ->. rewrite Hc in Hdom. by destruct Hdom.
    + by apply qd_child.
  - by eapply qd_step.
Qed.

Lemma cascaded_refl q : cascaded q ∅ q.
Proof.
  intros k. split; [|split]; [|by left|done].
  intros H. exfalso. induction H as [x Hx _|]; [|done].
  by apply not_elem_of_empty in Hx.
Qed.

(** One child is handled after another: the cascade below [c], the
    deletion of [c], and the cascade below the other children on what is
    left remove the descendants of all of them. *)
Lemma cascaded_cons q c child rest qa q' :
  q !! c = Some child →
  cascaded q (children child) qa →
  is_Some (qa !! c) →
  cascaded (delete c qa) rest q' →
  cascaded q ({[ c ]} ∪ rest) q'.
Proof.
  intros Hc Ha Hca Hr.
  assert (Hsub : ∀ k j, delete c qa !! k = Some j → q !! k = Some j).
  { intros k j H. apply lookup_delete_Some in H as [_ H]. by apply (Ha k). }
  assert (Hgone : ∀ k, is_Some (q !! k) → delete c qa !! k = None →
                       k = c ∨ queued_descendant q (children child) k).
  { intros k [j Hj] H. apply lookup_delete_None in H as [->|H]; [by left|].
    right. destruct (proj1 (proj2 (Ha k)) H) as [H'|H']; [congruence|done]. }
  assert (Hsplit : ∀ k, queued_descendant q ({[ c ]} ∪ rest) k →
                        k = c ∨ queued_descendant q (children child) k
                        ∨ queued_descendant (delete c qa) rest k).
  { induction 1 as [x Hx Hdom|p pj x _ IH Hp Hx Hdom].
    - apply elem_of_union in Hx as [Hx|Hx]; [left; by apply elem_of_singleton in Hx|].
      destruct (delete c qa !! x) as [j|] eqn:Hx1.
      + right. right. apply qd_child; [done|eauto].
      + destruct (Hgone x Hdom Hx1); auto.
    - destruct IH as [->|[IH|IH]].
      + right. left. rewrite Hc in Hp. injection Hp as <-. by apply qd_child.
      + right. left. by eapply qd_step.
      + destruct (delete c qa !! x) as [j|] eqn:Hx1.
        * right. right. destruct (queued_descendant_dom _ _ _ IH) as [pj' Hp'].
          pose proof (Hsub _ _ Hp') as Hp2. rewrite Hp in Hp2. injection Hp2 as <-.
          eapply qd_step; [exact IH|exact Hp'|done|eauto].
        * destruct (Hgone x Hdom Hx1); auto. }
  intros k. split; [|split].
  - intros Hk. destruct (Hsplit k Hk) as [->|[Hd|Hd]].
    + destruct (q' !! c) as [j|] eqn:Hq'; [|done].
      apply (Hr c) in Hq'. by rewrite lookup_delete_eq in Hq'.
    + destruct (q' !! k) as [j|] eqn:Hq'; [|done].
      apply (Hr k) in Hq'. apply lookup_delete_Some in Hq' as [_ Hq'].
      by rewrite (proj1 (Ha k) Hd) in Hq'.
    + by apply (Hr k).
  - intros Hk. destruct (proj1 (proj2 (Hr k)) Hk) as [H1|H1].
    + destruct (q !! k) as [j|] eqn:Hq; [|by left]. right.
      destruct (Hgone k (mk_is_Some _ _ Hq) H1) as [->|Hd].
      * apply qd_child; [by apply elem_of_union_l, elem_of_singleton|eauto].
      * eapply queued_descendant_through; [|exact Hc|exact Hd].
        by apply elem_of_union_l, elem_of_singleton.
    + right. eapply queued_descendant_mono; [exact Hsub| |exact H1].
      apply union_subseteq_r.
  - intros j Hj. apply Hsub. by apply (Hr k).
Qed.

Lemma _update_dependencies_idle job s :
  (∀ c, c ∈ children job → queued s !! c = None) →
  _update_dependencies job s = (s, Ok tt).
Proof.
  intros H. unfold _update_dependencies.
  assert (Hl : ∀ c, c ∈ elements (children job) → queued s !! c = None).
  { intros c Hc. by apply H, elem_of_elements. }
  clear H. induction (elements (children job)) as [|c l IH]; simpl; [done|].
  unfold bind at 1, bind at 1, get at 1. rewrite (Hl c) by left. simpl.
  apply IH. intros c' Hc'. apply Hl. by right.
Qed.

(** The loop of the cascade over the children in [l], given that the
    nested calls do what is claimed. *)
Lemma remove_child_loop depth l s s' :
  (∀ job t t', _remove_children depth job t = (t', Ok tt) →
               cascaded (queued t) (children job) (queued t')) →
  for_each l (remove_child depth) s = (s', Ok tt) →
  cascaded (queued s) (list_to_set l) (queued s').
Proof.
  intros IH. revert s. induction l as [|c l IHl]; intros s H; simpl in H.
  - injection H as <-. apply cascaded_refl.
  - apply bind_inv in H as (s1 & [] & Hc & H). apply IHl in H.
    unfold remove_child in Hc. apply bind_inv in Hc as (? & ? & Hg & Hc).
    apply get_inv in Hg as [-> ->].
    destruct (queued s !! c) as [child|] eqn:Hq.
    + apply bind_inv in Hc as (sa & [] & Ha & Hc).
      apply bind_inv in Hc as (sb & [] & Hb & Hc).
      pose proof (IH _ _ _ Ha) as Hca.
      rewrite _update_dependencies_idle in Hb.
      2:{ intros x Hx. destruct (queued s !! x) as [j|] eqn:Hx0.
          - apply (Hca x). apply qd_child; [done|eauto].
          - destruct (queued sa !! x) as [j|] eqn:Hxa; [|done].
            apply (Hca x) in Hxa. congruence. }
      injection Hb as <-. apply del_queued_inv in Hc as [Hin ->]. simpl in H.
      by eapply cascaded_cons.
    + apply ret_inv in Hc as [-> _]. intros k.
      destruct (H k) as (H1 & H2 & H3). split; [|split]; [| |done].
      * intros Hk. by eapply H1, queued_descendant_absent.
      * intros Hk. destruct (H2 Hk) as [?|Hd]; [by left|right].
        eapply queued_descendant_mono; [done| |exact Hd]. apply union_subseteq_r.
Qed.

Lemma _remove_children_cascaded depth job s s' :
  _remove_children depth job s = (s', Ok tt) →
  cascaded (queued s) (children job) (queued s').
Proof.
  revert job s s'. induction depth as [|depth IH]; intros job s s' H; [done|].
  rewrite _remove_children_unfold in H. apply remove_child_loop in H; [|exact IH].
  by rewrite list_to_set_elements_L in H.
Qed.

Lemma later_ids_lt x c (q : gmap Z _Job) :
  is_Some (q !! x) → c < x → (later_ids x q < later_ids c q)%nat.
Proof.
  intros Hx Hc. unfold later_ids. apply subset_size. apply elem_of_dom in Hx.
  split.
  - intros k Hk. apply elem_of_filter in Hk as [Hk ?]. apply elem_of_filter.
    split; [lia|done].
  - intros Hsub. specialize (Hsub x). rewrite !elem_of_filter in Hsub.
    destruct Hsub as [? _]; [done|lia].
Qed.

Lemma later_ids_size x (q : gmap Z _Job) :
  is_Some (q !! x) → (later_ids x q < size q)%nat.
Proof.
  intros Hx. unfold later_ids. rewrite <-(size_dom q). apply subset_size.
  apply elem_of_dom in Hx. split.
  - intros k Hk. by apply elem_of_filter in Hk as [_ ?].
  - intros Hsub. specialize (Hsub x Hx). apply elem_of_filter in Hsub as [? _]. lia.
Qed.

Lemma later_ids_mono c (q' q : gmap Z _Job) :
  (∀ k, is_Some (q' !! k) → is_Some (q !! k)) →
  (later_ids c q' ≤ later_ids c q)%nat.
Proof.
  intros H. unfold later_ids. apply subseteq_size. intros k Hk.
  apply elem_of_filter in Hk as [? Hk]. apply elem_of_filter. split; [done|].
  apply elem_of_dom, H. by apply elem_of_dom.
Qed.

Lemma queued_descendant_later q cs c k :
  children_later q → (∀ x, x ∈ cs → c < x) →
  queued_descendant q cs k → c < k.
Proof.
  intros Hq Hcs. induction 1 as [x Hx _|p pj x _ IH Hp Hx _]; [by apply Hcs|].
  specialize (Hq p pj x Hp Hx). lia.
Qed.

Lemma children_later_sub q q' :
  (∀ k j, q' !! k = Some j → q !! k = Some j) →
  children_later q → children_later q'.
Proof. intros Hsub H k j c Hk. apply (H k j c). by apply Hsub. Qed.

(** With children stored under larger ids than their parents, the loop of
    the cascade returns when the nested calls have frames enough. *)
Lemma remove_child_loop_returns depth l s :
  (∀ child c t, children_later (queued t) → queued t !! c = Some child →
                (later_ids c (queued t) < depth)%nat →
                ∃ t', _remove_children depth child t = (t', Ok tt)) →
  children_later (queued s) →
  (∀ x, x ∈ l → is_Some (queued s !! x) → (later_ids x (queued s) < depth)%nat) →
  ∃ s', for_each l (remove_child depth) s = (s', Ok tt).
Proof.
  intros IH. revert s. induction l as [|c l IHl]; intros s Hlater Hl; simpl;
    [by exists s|].
  assert (Hstep : ∃ s1, remove_child depth c s = (s1, Ok tt)
                        ∧ ∀ k j, queued s1 !! k = Some j → queued s !! k = Some j).
  { unfold remove_child, bind at 1, get.
    destruct (queued s !! c) as [child|] eqn:Hc; [|by exists s].
    destruct (IH child c s Hlater Hc) as [sa Ha]; [apply Hl; [left|eauto]|].
    pose proof (_remove_children_cascaded _ _ _ _ Ha) as Hca.
    rewrite (bind_Ok _ _ _ _ _ Ha).
    rewrite (bind_Ok _ _ sa sa tt).
    2:{ apply _update_dependencies_idle. intros x Hx.
        destruct (queued s !! x) as [j|] eqn:Hx0.
        - apply (Hca x). apply qd_child; [done|eauto].
        - destruct (queued sa !! x) as [j|] eqn:Hxa; [|done].
          apply (Hca x) in Hxa. congruence. }
    unfold del_queued, bind, get.
    destruct (queued sa !! c) as [j|] eqn:Hca'.
    - eexists. split; [reflexivity|]. simpl. intros k j' H.
      apply lookup_delete_Some in H as [_ H]. by apply (Hca k).
    - destruct (proj1 (proj2 (Hca c)) Hca') as [?|Hd]; [congruence|].
      apply (queued_descendant_later _ _ c) in Hd; [lia|done|].
      intros x Hx. by apply (Hlater c child). }
  destruct Hstep as (s1 & Hrun & Hsub).
  destruct (IHl s1) as [s' Hrest].
  - by eapply children_later_sub.
  - intros x Hx [j Hj]. eapply Nat.le_lt_trans.
    + apply (later_ids_mono x (queued s1) (queued s)). intros k [j' Hk]. eauto.
    + apply Hl; [by right|eauto].
  - exists s'. by rewrite (bind_Ok _ _ _ _ _ Hrun).
Qed.

Lemma _remove_children_returns_keyed depth child c s :
  children_later (queued s) → queued s !! c = Some child →
  (later_ids c (queued s) < depth)%nat →
  ∃ s', _remove_children depth child s = (s', Ok tt).
Proof.
  revert child c s. induction depth as [|depth IH]; intros child c s Hlater Hc Hd;
    [lia|].
  rewrite _remove_children_unfold. apply remove_child_loop_returns; [exact IH|done|].
  intros x Hx Hdom. apply elem_of_elements in Hx.
  pose proof (later_ids_lt x c (queued s) Hdom (Hlater c child x Hc Hx)). lia.
Qed.

Lemma _remove_children_returns depth job s :
  children_later (queued s) → (size (queued s) < depth)%nat →
  ∃ s', _remove_children depth job s = (s', Ok tt).
Proof.
  intros Hlater Hd. destruct depth as [|depth]; [lia|].
  rewrite _remove_children_unfold. apply remove_child_loop_returns; [|done|].
  - intros child c t. apply _remove_children_returns_keyed.
  - intros x _ Hdom. pose proof (later_ids_size x (queued s) Hdom). lia.
Qed.

Lemma children_later_check (q : gmap Z _Job) :
  map_Forall (λ k j, set_Forall (λ c, k < c) (children j)) q → children_later q.
Proof. intros H k j c Hk Hc. by apply (H k j Hk c). Qed.

(** C5: the cascade below a terminated job, when it returns, has removed
    from the queued map every queued descendant of the job (its queued
    children and, through them, their queued children), and nothing else:
    every other queued job is as it was, and so are the running map and
    the rest of the master.  The order is that of the source: for each
    queued child the cascade below it, then its dependency update, which
    finds none of its children queued any more, then its deletion.  When
    children are stored under larger ids than their queued parents, the
    cascade returns, given a frame per queued job and one more. *)
Theorem cascade_removes_queued_descendants (depth : nat) (job : _Job) (s : _GridMaster) :
  (∀ s', _remove_children depth job s = (s', Ok tt) →
     (∀ k, queued_descendant (queued s) (children job) k → queued s' !! k = None)
     ∧ (∀ k, ¬ queued_descendant (queued s) (children job) k →
             queued s' !! k = queued s !! k)
     ∧ running s' = running s
     ∧ slots_available s' = slots_available s
     ∧ slots_total s' = slots_total s
     ∧ wait_mode s' = wait_mode s
     ∧ _current_id s' = _current_id s
     ∧ response s' = response s
     ∧ os_events s' = os_events s)
  ∧ (children_later (queued s) → (size (queued s) < depth)%nat →
     ∃ s', _remove_children depth job s = (s', Ok tt)).
Proof.
  split; [|apply _remove_children_returns].
  intros s' H. pose proof (_remove_children_cascaded _ _ _ _ H) as Hc.
  destruct (_remove_children_pruned _ _ _ _ _ H) as [? ? ? ? ? ? ? _].
  split; [intros k; apply (Hc k)|]. split; [|done].
  intros k Hk. destruct (queued s' !! k) as [j|] eqn:Hj.
  - symmetry. by apply (Hc k).
  - destruct (proj1 (proj2 (Hc k)) Hj); done.
Qed.

Lemma cascade_removes_queued_descendants_witness :
  ∃ s', _remove_children 10 chain_head master_chain = (s', Ok tt)
        ∧ queued s' !! 2 = None
        ∧ queued s' !! 3 = None
        ∧ queued s' !! 4 = queued master_chain !! 4
        ∧ is_Some (queued master_chain !! 4)
        ∧ running s' = running master_chain.
Proof.
  destruct (cascade_removes_queued_descendants 10 chain_head master_chain)
    as [Hpart Htotal].
  destruct Htotal as [s' Hrun].
  { apply children_later_check, (bool_decide_unpack _). vm_compute. exact I. }
  { vm_compute. lia. }
  exists s'. split; [exact Hrun|].
  destruct (Hpart s' Hrun) as (Hgone & Hkept & Hr & _).
  assert (H2 : queued_descendant (queued master_chain) (children chain_head) 2).
  { apply qd_child; [vm_compute; reflexivity|vm_compute; eauto]. }
  split; [by apply Hgone|]. split; [|split; [|split; [vm_compute; eauto|exact Hr]]].
  - apply Hgone. eapply qd_step; [exact H2|vm_compute; reflexivity| |vm_compute; eauto].
    vm_compute. reflexivity.
  - apply Hkept. intros Hd.
    assert (Hall : ∀ k, queued_descendant (queued master_chain) (children chain_head) k
                        → k = 2 ∨ k = 3).
    { clear. induction 1 as [x Hx _|p pj x _ IH Hp Hx _].
      - vm_compute in Hx. left.
        destruct (decide (x = 2)) as [->|Hne]; [done|].
        exfalso. revert Hx. change (x ∈ ({[ 2 ]} : gset Z) → False).
        by intros ?%elem_of_singleton.
      - destruct IH as [->| ->].
        + vm_compute in Hp. injection Hp as <-. right.
          change (x ∈ ({[ 3 ]} : gset Z)) in Hx. by apply elem_of_singleton in Hx.
        + vm_compute in Hp. injection Hp as <-.
          change (x ∈ (∅ : gset Z)) in Hx. by apply not_elem_of_empty in Hx. }
    destruct (Hall 4 Hd); lia.
Defined.

(** * Further properties of the module *)

(** ** The order on jobs and the order of the scan *)

Lemma id_lt_irrefl a : id_lt a a = false.
Proof. destruct a; simpl; [lia|done]. Qed.

Lemma id_lt_trans a b c : id_lt a b = true → id_lt b c = true → id_lt a c = true.
Proof. destruct a, b, c; simpl; try done. intros. lia. Qed.

Lemma id_lt_total a b : a ≠ b → id_lt a b = true ∨ id_lt b a = true.
Proof.
  destruct a as [x|], b as [y|]; simpl; intros H.
  - destruct (decide (x < y)); [left; lia|right].
    assert (x ≠ y) by congruence. lia.
  - by right.
  - by left.
  - done.
Qed.

Lemma id_le_antisym a b : id_lt a b = false → id_lt b a = false → a = b.
Proof.
  intros H1 H2. destruct (decide (a = b)) as [|Hne]; [done|].
  destruct (id_lt_total a b Hne); congruence.
Qed.

(** X1: [__lt__] is a strict order on jobs, and it decides between any two
    jobs whose ids differ: the number of dependencies first, the id next. *)
Theorem job_lt_strict_total :
  (∀ a, _Job_lt a a = false)
  ∧ (∀ a b, _Job_lt a b = true → _Job_lt b a = false)
  ∧ (∀ a b c, _Job_lt a b = true → _Job_lt b c = true → _Job_lt a c = true)
  ∧ (∀ a b, job_id a ≠ job_id b → _Job_lt a b = true ∨ _Job_lt b a = true)
  ∧ (∀ a b, (size (dependencies a) < size (dependencies b))%nat → _Job_lt a b = true).
Proof.
  unfold _Job_lt. split; [|split; [|split; [|split]]].
  - intros a. rewrite Nat.eqb_refl. apply id_lt_irrefl.
  - intros a b.
    destruct (size (dependencies a) =? size (dependencies b))%nat eqn:E.
    + apply Nat.eqb_eq in E. rewrite <-E, Nat.eqb_refl. apply id_lt_asym.
    + apply Nat.eqb_neq in E. rewrite Nat.ltb_lt. intros H.
      rewrite (proj2 (Nat.eqb_neq _ _)) by lia. apply Nat.ltb_ge. lia.
  - intros a b c.
    destruct (size (dependencies a) =? size (dependencies b))%nat eqn:E1;
      [apply Nat.eqb_eq in E1|apply Nat.eqb_neq in E1];
      (destruct (size (dependencies b) =? size (dependencies c))%nat eqn:E2;
       [apply Nat.eqb_eq in E2|apply Nat.eqb_neq in E2]);
      rewrite ?Nat.ltb_lt.
    + rewrite (proj2 (Nat.eqb_eq _ _)) by lia. apply id_lt_trans.
    + intros _ H. rewrite (proj2 (Nat.eqb_neq _ _)) by lia. apply Nat.ltb_lt. lia.
    + intros H _. rewrite (proj2 (Nat.eqb_neq _ _)) by lia. apply Nat.ltb_lt. lia.
    + intros H1 H2. rewrite (proj2 (Nat.eqb_neq _ _)) by lia. apply Nat.ltb_lt. lia.
  - intros a b Hne.
    destruct (size (dependencies a) =? size (dependencies b))%nat eqn:E.
    + apply Nat.eqb_eq in E. rewrite <-E, Nat.eqb_refl. by apply id_lt_total.
    + apply Nat.eqb_neq in E. rewrite (proj2 (Nat.eqb_neq _ _)) by lia.
      rewrite !Nat.ltb_lt. lia.
  - intros a b H. rewrite (proj2 (Nat.eqb_neq _ _)) by lia. by apply Nat.ltb_lt.
Qed.

Lemma job_lt_strict_total_witness :
  _Job_lt (queued_job 2 ∅) (queued_job 3 {[ 2 ]}) = true
  ∧ _Job_lt (queued_job 3 {[ 2 ]}) (queued_job 2 ∅) = false
  ∧ (_Job_lt (queued_job 2 ∅) (queued_job 4 ∅) = true
     ∨ _Job_lt (queued_job 4 ∅) (queued_job 2 ∅) = true).
Proof.
  destruct job_lt_strict_total as (_ & H2 & _ & H4 & H5).
  assert (H : _Job_lt (queued_job 2 ∅) (queued_job 3 {[ 2 ]}) = true).
  { apply H5. vm_compute. lia. }
  split; [exact H|]. split; [by apply H2|]. apply H4. vm_compute. discriminate.
Defined.

Lemma job_le_antisym a b : job_le a b → job_le b a → job_id a = job_id b.
Proof.
  intros [H1|[E1 H1]] [H2|[E2 H2]]; try lia. by apply id_le_antisym.
Qed.

Lemma sorted_unique (l1 l2 : list _Job) :
  l1 ≡ₚ l2 →
  (∀ a b, a ∈ l1 → b ∈ l1 → job_id a = job_id b → a = b) →
  sorted l1 = sorted l2.
Proof.
  intros Hp Hinj.
  apply (StronglySorted_unique_strong job_le); [|apply sorted_sorted..|].
  - intros a b Ha Hb Hab Hba. rewrite sorted_perm in Ha.
    rewrite sorted_perm, <-Hp in Hb. apply Hinj; [done..|]. by apply job_le_antisym.
  - by rewrite !sorted_perm.
Qed.

(** X2: The list the scheduler scans depends on the jobs in the queue only,
    not on the order in which the dictionary hands them out: when the
    queued jobs are stored under their ids, sorting any arrangement of them
    gives the list that [schedule] scans. *)
Theorem scan_order_independent (s : _GridMaster) (l : list _Job) :
  keys_ok s → l ≡ₚ values (dict_order s) (queued s) →
  sorted l = sorted (values (dict_order s) (queued s)).
Proof.
  intros Hk Hp. apply sorted_unique; [done|].
  intros a b Ha Hb Hid. rewrite Hp in Ha, Hb.
  apply elem_of_values in Ha as [ka Ha]. apply elem_of_values in Hb as [kb Hb].
  pose proof (Hk _ _ Ha) as Ea. pose proof (Hk _ _ Hb) as Eb.
  assert (ka = kb) by congruence. subst. congruence.
Qed.

Lemma keys_ok_check (s : _GridMaster) :
  map_Forall (λ k j, job_id j = Some k) (queued s) → keys_ok s.
Proof. intros H k j Hk. by apply (H k j). Qed.

Lemma scan_order_independent_witness :
  sorted (reverse (values (dict_order master_chain) (queued master_chain)))
  = sorted (values (dict_order master_chain) (queued master_chain)).
Proof.
  apply scan_order_independent.
  - apply keys_ok_check, (bool_decide_unpack _). vm_compute. exact I.
  - apply reverse_Permutation.
Defined.

(** ** The scan of the scheduler *)

(** There is one way to put the queued jobs in ascending order, since no
    two of them have the same id. *)
Lemma sorted_queue_unique s l :
  keys_ok s → l ≡ₚ values (dict_order s) (queued s) → StronglySorted job_le l →
  l = sorted (values (dict_order s) (queued s)).
Proof.
  intros Hk Hp Hs.
  apply (StronglySorted_unique_strong job_le);
    [|done|apply sorted_sorted|by rewrite sorted_perm].
  intros a b Ha Hb Hab Hba. rewrite Hp in Ha. rewrite sorted_perm in Hb.
  apply elem_of_values in Ha as [ka Ha]. apply elem_of_values in Hb as [kb Hb].
  pose proof (Hk _ _ Ha) as Ea. pose proof (Hk _ _ Hb) as Eb.
  pose proof (job_le_antisym a b Hab Hba) as Hid.
  assert (ka = kb) by congruence. subst. congruence.
Qed.

(** The scan passes over jobs that are free of dependencies and do not
    fit. *)
Lemma first_fit_skip slots pre rest :
  Forall (λ j, dependencies j = ∅ ∧ slots < threads j) pre →
  first_fit slots (pre ++ rest) = first_fit slots rest.
Proof.
  induction 1 as [|j pre [Hd Ht] _ IH]; simpl; [done|].
  rewrite Hd, size_empty. simpl.
  by rewrite (proj2 (Z.leb_gt _ _)) by done.
Qed.

(** C4: the scheduler goes through the queued jobs in ascending order of
    (number of dependencies, id).  For every master state there is a list
    [l] of the queued jobs in this order, the only such list when the jobs
    are stored under their ids, that the run follows.  Jobs at the front of
    [l] that are free of dependencies but too wide for the free slots are
    passed over.  If the job after them has dependencies, the scan ends
    there and the run changes nothing, whatever comes behind; if it is
    free of dependencies and fits, it is the job that is moved from queued
    to running, and the scheduler runs again when a slot is left.  If no
    job of [l] can start, nothing changes.  So a job found running after a
    scheduler run that was not running before has an empty dependency
    set, and is a job that was queued. *)
Theorem scheduler_order_and_blocked_jobs :
  (∀ depth s, ∃ l,
     l ≡ₚ values (dict_order s) (queued s) ∧ StronglySorted job_le l
     ∧ (keys_ok s →
        ∀ l', l' ≡ₚ values (dict_order s) (queued s) → StronglySorted job_le l' → l' = l)
     ∧ (∀ pre job post,
          l = pre ++ job :: post →
          Forall (λ j, dependencies j = ∅ ∧ slots_available s < threads j) pre →
          (dependencies job ≠ ∅ → schedule (S depth) s = (s, Ok tt))
          ∧ (dependencies job = ∅ → threads job ≤ slots_available s →
             schedule (S depth) s
             = (if 1 <=? slots_available (promoted job s)
                then schedule depth (promoted job s)
                else (promoted job s, Ok tt))
             ∧ (keys_ok s →
                ∃ id, job_id job = Some id
                      ∧ running (promoted job s)
                        = <[id := set_process (Some (worker id)) job]> (running s)
                      ∧ queued (promoted job s) = delete id (queued s)
                      ∧ slots_available (promoted job s)
                        = slots_available s - threads job)))
     ∧ (Forall (λ j, dependencies j = ∅ ∧ slots_available s < threads j) l →
        schedule (S depth) s = (s, Ok tt)))
  ∧ (∀ depth s s' r,
       schedule depth s = (s', r) →
       ∀ k j, running s' !! k = Some j →
         running s !! k = Some j
         ∨ (dependencies j = ∅
            ∧ ∃ k0 j0, queued s !! k0 = Some j0 ∧ job_id j0 = Some k
                       ∧ j = set_process (Some (worker k)) j0)).
Proof.
  split.
  - intros depth s. set (l := sorted (values (dict_order s) (queued s))).
    exists l. split; [apply sorted_perm|]. split; [apply sorted_sorted|].
    split; [intros Hk l'; by apply sorted_queue_unique|].
    assert (Hrun : schedule (S depth) s
                   = match first_fit (slots_available s) l with
                     | None => (s, Ok tt)
                     | Some job =>
                         if 1 <=? slots_available (promoted job s)
                         then schedule depth (promoted job s)
                         else (promoted job s, Ok tt)
                     end).
    { simpl. unfold bind, get. by rewrite schedule_scan_run. }
    split.
    + intros pre job post El Hpre. rewrite Hrun, El, (first_fit_skip _ _ _ Hpre).
      simpl. split.
      * intros Hd. destruct (0 <? size (dependencies job))%nat eqn:E; [done|].
        apply Nat.ltb_ge in E. destruct Hd. apply leibniz_equiv, size_empty_inv. lia.
      * intros Hd Ht. rewrite Hd, size_empty. simpl.
        rewrite (proj2 (Z.leb_le _ _)) by done. split; [done|]. intros Hk.
        assert (Hin : job ∈ values (dict_order s) (queued s)).
        { rewrite <-(sorted_perm (values _ _)). fold l. rewrite El.
          apply elem_of_app. right. left. }
        apply elem_of_values in Hin as [id Hid].
        exists id. split; [by apply (Hk id)|].
        destruct (promoted_fields job s id (Hk _ _ Hid)) as (H1 & H2 & H3 & _); eauto.
    + intros Hall. rewrite Hrun, <-(app_nil_r l), (first_fit_skip _ _ _ Hall). done.
  - intros depth s s' r Hrun. apply schedule_promotions in Hrun.
    induction Hrun as [s|s s1 s' Hstep _ IH]; [by left|].
    destruct (promotion_maps _ _ Hstep) as [Hq Hr]. intros k j Hk.
    destruct (IH k j Hk) as [H1|(Hd & k0 & j0 & Hk0 & Hid & ->)].
    + by apply Hr.
    + right. split; [done|]. exists k0, j0. eauto.
Qed.

Lemma scheduler_order_and_blocked_jobs_witness :
  schedule 10 master_chain = (master_chain, Ok tt)
  ∧ ∀ k j, running (schedule 10 master_a_queued).1 !! k = Some j →
      running master_a_queued !! k = Some j
      ∨ (dependencies j = ∅
         ∧ ∃ k0 j0, queued master_a_queued !! k0 = Some j0 ∧ job_id j0 = Some k
                    ∧ j = set_process (Some (worker k)) j0).
Proof.
  destruct scheduler_order_and_blocked_jobs as [H1 H2]. split.
  - destruct (H1 9%nat master_chain) as (l & _ & _ & Huniq & Hscan & _).
    assert (Hl : sorted (values (dict_order master_chain) (queued master_chain)) = l).
    { apply Huniq; [|apply sorted_perm|apply sorted_sorted].
      apply keys_ok_check, (bool_decide_unpack _). vm_compute. exact I. }
    destruct l as [|j4 [|j2 rest]]; [vm_compute in Hl; discriminate..|].
    vm_compute in Hl. injection Hl as <- <- <-.
    apply (Hscan [_] _ _ eq_refl).
    + constructor; [|constructor]. split; [reflexivity|]. by vm_compute.
    + intros He. apply (f_equal size) in He. vm_compute in He. discriminate.
  - apply (H2 10%nat master_a_queued _ (schedule 10 master_a_queued).2).
    by destruct (schedule 10 master_a_queued).
Defined.

(** ** The scheduler leaves no startable job behind *)

Lemma first_fit_none_sorted slots l :
  StronglySorted job_le l → first_fit slots l = None →
  ∀ j, j ∈ l → dependencies j = ∅ → slots < threads j.
Proof.
  induction 1 as [|x l Hl IH Hx]; simpl; intros Hfit j Hj Hd.
  { by apply elem_of_nil in Hj. }
  destruct (0 <? size (dependencies x))%nat eqn:Hs.
  - apply Nat.ltb_lt in Hs. exfalso.
    apply elem_of_cons in Hj as [->|Hj].
    + rewrite Hd, size_empty in Hs. lia.
    + rewrite Forall_forall in Hx. specialize (Hx j Hj). unfold job_le in Hx.
      rewrite Hd, size_empty in Hx. destruct Hx as [?|[? _]]; lia.
  - destruct (threads x <=? slots) eqn:Ht; [done|]. apply Z.leb_gt in Ht.
    apply elem_of_cons in Hj as [->|Hj]; [done|]. by apply IH.
Qed.

Lemma schedule_exhausts (depth : nat) (s s' : _GridMaster) :
  schedule depth s = (s', Ok tt) →
  (∀ k j, queued s !! k = Some j → 1 ≤ threads j) →
  (∀ k j, queued s' !! k = Some j → dependencies j = ∅ →
          slots_available s' < threads j)
  ∧ (0 ≤ slots_available s → 0 ≤ slots_available s').
Proof.
  revert s. induction depth as [|depth IH]; intros s; simpl; [done|].
  unfold bind, get. rewrite schedule_scan_run.
  destruct (first_fit _ _) as [job|] eqn:Hfit.
  - assert (Hstep : promotion s (promoted job s)) by (by exists job).
    destruct (promotion_maps _ _ Hstep) as [Hq _].
    apply first_fit_Some in Hfit as (_ & _ & Hfits).
    assert (Hslots : slots_available (promoted job s) = slots_available s - threads job).
    { unfold promoted, promote_job, bind. destruct (_run_job job s) as [s1 [[]|e]] eqn:Hr.
      - unfold _run_job, bind, get, ret in Hr. destruct (job_id job) as [id|].
        + case_bool_decide as Hin.
          * destruct Hin as [j0 Hin]. unfold modify, del_queued, bind, get, emit, modify in Hr.
            simpl in Hr. rewrite Hin in Hr. injection Hr as <-. simpl. lia.
          * injection Hr as <-. simpl. lia.
        + injection Hr as <-. simpl. lia.
      - exfalso. pose proof (promote_job_run job s) as Hp.
        unfold promote_job, bind in Hp. by rewrite Hr in Hp. }
    destruct (1 <=? slots_available (promoted job s)) eqn:Hc.
    + intros Hrun Hpos. destruct (IH _ Hrun) as [H1 H2].
      { intros k j Hk. apply (Hpos k). by apply Hq. }
      split; [done|]. intros H0. apply H2. lia.
    + intros [= <-] Hpos. apply Z.leb_gt in Hc. split; [|lia].
      intros k j Hk _. specialize (Hpos k j (Hq _ _ Hk)). lia.
  - intros [= <-] _. split; [|done]. intros k j Hk Hd.
    eapply first_fit_none_sorted; [apply sorted_sorted|done| |done].
    rewrite sorted_perm. apply elem_of_values. eauto.
Qed.

(** X3: When [schedule] returns, no queued job that is free of dependencies
    fits into the free slots, provided every queued job needs at least one
    thread: the restart after each promotion goes on until nothing can be
    started.  It also never takes more slots than are free. *)
Theorem schedule_starts_all_that_fit (depth : nat) (s s' : _GridMaster) :
  schedule depth s = (s', Ok tt) →
  (∀ k j, queued s !! k = Some j → 1 ≤ threads j) →
  (∀ k j, queued s' !! k = Some j → dependencies j = ∅ →
          slots_available s' < threads j)
  ∧ (0 ≤ slots_available s → 0 ≤ slots_available s').
Proof. apply schedule_exhausts. Qed.

Lemma schedule_starts_all_that_fit_witness :
  (∀ k j, queued (schedule 10 master_a_queued).1 !! k = Some j →
          dependencies j = ∅ →
          slots_available (schedule 10 master_a_queued).1 < threads j)
  ∧ 0 ≤ slots_available (schedule 10 master_a_queued).1.
Proof.
  destruct (schedule_starts_all_that_fit 10 master_a_queued
              (schedule 10 master_a_queued).1) as [H1 H2].
  - vm_compute. reflexivity.
  - intros k j H. destruct (decide (k = 1)) as [->|Hne].
    + vm_compute in H. injection H as <-. vm_compute. discriminate.
    + change (queued master_a_queued)
        with (<[1 := set_stderr (Some "/tmp/jip-1.err")
                        (set_stdout (Some "/tmp/jip-1.out")
                           (set_job_id (Some 1) job_a))]> (∅ : gmap Z _Job)) in H.
      by rewrite lookup_insert_ne, lookup_empty in H.
  - split; [exact H1|]. apply H2. vm_compute. discriminate.
Defined.

(** ** The dependency update *)

Lemma remove_dependency_idemp id j :
  remove_dependency id (remove_dependency id j) = remove_dependency id j.
Proof.
  destruct id as [i|]; [|done]. destruct j. simpl. unfold set_dependencies. simpl.
  f_equal. apply set_eq. intros x. rewrite !elem_of_difference. tauto.
Qed.

Lemma update_loop_run (id : option Z) (l : list Z) (s : _GridMaster) :
  ∃ s',
    for_each l (λ c,
      s <- get ;;
      match queued s !! c with
      | Some cj => modify (set_queued (<[c := remove_dependency id cj]> (queued s)))
      | None => ret tt
      end) s = (s', Ok tt)
    ∧ pruned s s'
    ∧ ∀ k, queued s' !! k
           = (λ j, if decide (k ∈ l) then remove_dependency id j else j)
             <$> queued s !! k.
Proof.
  revert s. induction l as [|c l IH]; intros s.
  - exists s. split; [done|]. split; [reflexivity|]. intros k.
    by destruct (queued s !! k).
  - set (s1 := match queued s !! c with
               | Some cj => set_queued (<[c := remove_dependency id cj]> (queued s)) s
               | None => s
               end).
    destruct (IH s1) as (s' & Hrun & Hpr & Hq).
    exists s'. split; [|split].
    + simpl. unfold bind at 1, bind at 1, get at 1. subst s1.
      destruct (queued s !! c); exact Hrun.
    + etransitivity; [|exact Hpr]. subst s1.
      destruct (queued s !! c) as [cj|] eqn:Hc; [|reflexivity].
      apply pruned_set_queued. intros k j' Hk.
      destruct (decide (c = k)) as [->|Hne].
      * rewrite lookup_insert_eq in Hk. injection Hk as <-. exists cj.
        split; [done|]. apply remove_dependency_spec.
      * rewrite lookup_insert_ne in Hk by done. exists j'.
        split; [done|]. split; [apply set_dependencies_same|done].
    + intros k. rewrite Hq. subst s1.
      destruct (decide (c = k)) as [->|Hne].
      * destruct (queued s !! k) as [cj|] eqn:Hc; simpl.
        -- rewrite lookup_insert_eq. simpl. rewrite (decide_True _ _ (list_elem_of_here k l)).
           destruct (decide (k ∈ l)); [by rewrite remove_dependency_idemp|done].
        -- by rewrite Hc.
      * assert (Hl : queued (match queued s !! c with
                             | Some cj => set_queued (<[c := remove_dependency id cj]> (queued s)) s
                             | None => s
                             end) !! k = queued s !! k).
        { destruct (queued s !! c); simpl; [by rewrite lookup_insert_ne|done]. }
        rewrite Hl. destruct (queued s !! k); simpl; [|done].
        destruct (decide (k ∈ l)) as [Hin|Hnin].
        -- by rewrite decide_True by (by right).
        -- rewrite decide_False; [done|]. intros Hc. apply elem_of_cons in Hc as [?|?]; congruence.
Qed.

(** X4: [_update_dependencies] always returns.  It takes the id of the job
    out of the dependency set of each of its queued children and leaves
    every other queued job, the running map and the rest of the master as
    they are; a queued child that does not hold the id is left as it is. *)
Theorem update_dependencies_detaches (job : _Job) (s : _GridMaster) :
  ∃ s',
    _update_dependencies job s = (s', Ok tt)
    ∧ (∀ k, queued s' !! k
            = (λ j, if decide (k ∈ children job)
                    then remove_dependency (job_id job) j else j)
              <$> queued s !! k)
    ∧ running s' = running s
    ∧ slots_available s' = slots_available s
    ∧ _current_id s' = _current_id s
    ∧ (∀ id c j', job_id job = Some id → c ∈ children job →
                  queued s' !! c = Some j' → id ∉ dependencies j').
Proof.
  destruct (update_loop_run (job_id job) (elements (children job)) s)
    as (s' & Hrun & Hpr & Hq).
  assert (Hq' : ∀ k, queued s' !! k
                     = (λ j, if decide (k ∈ children job)
                             then remove_dependency (job_id job) j else j)
                       <$> queued s !! k).
  { intros k. rewrite Hq. destruct (queued s !! k); simpl; [|done].
    destruct (decide (k ∈ children job)) as [Hin|Hnin].
    - by rewrite decide_True by (by apply elem_of_elements).
    - rewrite decide_False; [done|]. by rewrite elem_of_elements. }
  exists s'. split; [exact Hrun|]. split; [exact Hq'|].
  destruct Hpr as [? ? _ _ ? _ _ _]. repeat (split; [done|]).
  intros id c j' Hid Hc Hj'. rewrite Hq', Hid in Hj'.
  destruct (queued s !! c) as [j|]; [|done]. simpl in Hj'.
  rewrite decide_True in Hj' by done. injection Hj' as <-. simpl.
  intros H. apply elem_of_difference in H as [_ H]. apply H. by apply elem_of_singleton.
Qed.

Lemma update_dependencies_detaches_witness :
  ∃ s', _update_dependencies chain_head master_chain = (s', Ok tt)
        ∧ (∀ j', queued s' !! 2 = Some j' → 1 ∉ dependencies j')
        ∧ queued s' !! 4 = queued master_chain !! 4
        ∧ running s' = running master_chain.
Proof.
  destruct (update_dependencies_detaches chain_head master_chain)
    as (s' & Hrun & Hq & Hr & _ & _ & Hgone).
  exists s'. split; [exact Hrun|]. split; [|split; [|exact Hr]].
  - intros j'. apply (Hgone 1 2); vm_compute; reflexivity.
  - rewrite Hq. destruct (queued master_chain !! 4) as [j|]; [|done]. simpl.
    rewrite decide_False; [done|]. vm_compute. discriminate.
Defined.

(** ** The loop reads its messages in order *)

Lemma start_append depth msgs1 msgs2 s s1 rest e :
  start depth msgs1 s = (s1, rest, e) →
  (e = AwaitsMessage → start depth (msgs1 ++ msgs2) s = start depth msgs2 s1)
  ∧ (e ≠ AwaitsMessage → start depth (msgs1 ++ msgs2) s = (s1, rest ++ msgs2, e)).
Proof.
  revert s. induction msgs1 as [|msg msgs1 IH]; intros s; simpl.
  - destruct (wait_mode s && (_num_jobs s =? 0)%nat) eqn:Hd.
    + intros [= <- <- <-]. split; [done|]. intros _.
      destruct msgs2; simpl; by rewrite Hd.
    + intros [= <- <- <-]. split; [done|]. by intros [].
  - destruct (wait_mode s && (_num_jobs s =? 0)%nat) eqn:Hd.
    + intros [= <- <- <-]. split; [done|]. done.
    + destruct (dispatch depth msg s) as [s2 [[]|err]].
      * apply IH.
      * intros [= <- <- <-]. split; [done|]. done.
      * intros [= <- <- <-]. split; [done|]. done.
Qed.

(** X5: Messages that arrive later are handled later: when the loop has read
    all of a first batch and waits, it goes on with the second batch from
    the state it reached; when it has stopped within the first batch, the
    second is left unread behind what was left of the first. *)
Theorem start_app (depth : nat) (msgs1 msgs2 : list Msg) (s s1 : _GridMaster)
    (rest : list Msg) (e : LoopEnd) :
  start depth msgs1 s = (s1, rest, e) →
  (e = AwaitsMessage → start depth (msgs1 ++ msgs2) s = start depth msgs2 s1)
  ∧ (e ≠ AwaitsMessage → start depth (msgs1 ++ msgs2) s = (s1, rest ++ msgs2, e)).
Proof. apply start_append. Qed.

Lemma start_app_witness :
  start 10 ([SUBMIT job_a; SUBMIT job_b] ++ [DONE 1 0]) (create_master ascending 1)
  = start 10 [DONE 1 0] master_a_running
  ∧ start 10 ([EXIT; JOBS] ++ [WAIT]) (create_master ascending 1)
    = (create_master ascending 1, [JOBS] ++ [WAIT], HandlerStopped).
Proof.
  split.
  - eapply (start_app 10 [SUBMIT job_a; SUBMIT job_b] [DONE 1 0]);
      [vm_compute; reflexivity|reflexivity].
  - eapply (start_app 10 [EXIT; JOBS] [WAIT]); [vm_compute; reflexivity|discriminate].
Defined.

(** ** Termination of the child *)

Lemma slept_app evs1 evs2 : slept (evs1 ++ evs2) = slept evs1 + slept evs2.
Proof.
  induction evs1 as [|e evs1 IH]; simpl; [done|]. destruct e; lia.
Qed.

Lemma probe_slept alive n ts :
  Forall (λ t, 0 ≤ t) ts →
  0 ≤ slept (probe alive n ts).1 ≤ foldr Z.add 0 ts.
Proof.
  intros H. revert n. induction H as [|t ts Ht Hts IH]; intros n; simpl; [lia|].
  destruct (alive n).
  - specialize (IH (S n)). destruct (probe alive (S n) ts). simpl in *. lia.
  - simpl. assert (0 ≤ foldr Z.add 0 ts); [|lia].
    clear -Hts. induction Hts; simpl; lia.
Qed.

Lemma probe_signals alive n ts : signals (probe alive n ts).1 = O.
Proof.
  revert n. induction ts as [|t ts IH]; intros n; simpl; [done|].
  destruct (alive n); [|done]. specialize (IH (S n)).
  by destruct (probe alive (S n) ts).
Qed.

Lemma probe_stubborn alive n ts :
  (∀ k, (n ≤ k < n + length ts)%nat → alive k = true) →
  probe alive n ts = (Sleep <$> ts, Some "'Popen' object has no attribute '_popen'").
Proof.
  revert n. induction ts as [|t ts IH]; intros n H; simpl; [done|].
  rewrite H by (simpl; lia). rewrite IH; [done|]. intros k Hk. apply H. simpl. lia.
Qed.

Lemma probe_gives_up alive n ts evs :
  probe alive n ts = (evs, None) → ∃ k, (n ≤ k)%nat ∧ alive k = false.
Proof.
  revert n evs. induction ts as [|t ts IH]; intros n evs; simpl; [done|].
  destruct (alive n) eqn:Ha.
  - destruct (probe alive (S n) ts) as [evs' exc] eqn:Hp. intros [= _ ->].
    destruct (IH _ _ Hp) as (k & ? & ?). exists k. split; [lia|done].
  - intros _. exists n. split; [lia|done].
Qed.

(** X6: [_terminate_process] signals the child at most once and sleeps at most
    8.25 seconds in all.  Without a child it does nothing.  If it ends
    without an exception, the child was not started, or was seen dead; a
    child that outlives all fourteen looks makes it raise on
    [process._popen] instead of killing the child. *)
Theorem terminate_process_bounded (process : option bool) (alive : nat → bool) :
  0 ≤ slept (_terminate_process process alive).1 ≤ 8250
  ∧ (signals (_terminate_process process alive).1 ≤ 1)%nat
  ∧ (process = None → _terminate_process process alive = ([], None))
  ∧ (process = Some false → (_terminate_process process alive).2 = None →
       ∃ k, alive k = false)
  ∧ (process = Some false → (∀ k, (k < 14)%nat → alive k = true) →
       (_terminate_process process alive).2
       = Some "'Popen' object has no attribute '_popen'"
       ∧ slept (_terminate_process process alive).1 = 8250).
Proof.
  assert (Hsum : foldr Z.add 0 [10; 10; 10; 20; 20; 20; 20; 20; 20; 100; 1000; 2000; 5000]
                 = 8250) by reflexivity.
  assert (Hlen : length [10; 10; 10; 20; 20; 20; 20; 20; 20; 100; 1000; 2000; 5000]
                 = 13%nat) by reflexivity.
  assert (Hts : Forall (λ t, 0 ≤ t)
                  [10; 10; 10; 20; 20; 20; 20; 20; 20; 100; 1000; 2000; 5000])
    by (repeat constructor; lia).
  unfold _terminate_process.
  remember [10; 10; 10; 20; 20; 20; 20; 20; 20; 100; 1000; 2000; 5000] as ts eqn:Ets.
  clear Ets.
  split; [|split; [|split; [|split]]].
  - destruct process as [[]|]; [simpl; lia| |simpl; lia].
    destruct (alive O); [|simpl; lia].
    pose proof (probe_slept alive 1 ts Hts) as H. rewrite Hsum in H.
    destruct (probe alive 1 ts). simpl in *. lia.
  - destruct process as [[]|]; [unfold signals; simpl; lia| |unfold signals; simpl; lia].
    destruct (alive O); [|unfold signals; simpl; lia].
    pose proof (probe_signals alive 1 ts) as H.
    destruct (probe alive 1 ts). simpl in *. unfold signals in *. simpl. lia.
  - by intros ->.
  - intros -> H. destruct (alive O) eqn:H0; [|by exists O].
    destruct (probe alive 1 ts) as [evs exc] eqn:Hp. simpl in H. subst exc.
    destruct (probe_gives_up _ _ _ _ Hp) as (k & _ & ?). by exists k.
  - intros -> H. rewrite (H O) by lia. rewrite probe_stubborn.
    + split; [reflexivity|]. simpl.
      assert (Hmap : ∀ l, slept (Sleep <$> l) = foldr Z.add 0 l).
      { induction l as [|t l IH]; simpl; [done|]. f_equal. exact IH. }
      change (slept (SendSIGTERM :: (Sleep <$> ts))) with (slept (Sleep <$> ts)).
      by rewrite Hmap.
    + intros k Hk. apply H. lia.
Qed.

Lemma terminate_process_bounded_witness :
  (∃ k, child_alive env_obedient k = false)
  ∧ (_terminate_process (Some false) (child_alive env_stubborn)).2
    = Some "'Popen' object has no attribute '_popen'"
  ∧ slept (_terminate_process (Some false) (child_alive env_stubborn)).1 = 8250
  ∧ _terminate_process None (child_alive env_stubborn) = ([], None).
Proof.
  destruct (terminate_process_bounded (Some false) (child_alive env_obedient))
    as (_ & _ & _ & H4 & _).
  destruct (terminate_process_bounded (Some false) (child_alive env_stubborn))
    as (_ & _ & _ & _ & H5).
  destruct (terminate_process_bounded None (child_alive env_stubborn))
    as (_ & _ & H3 & _).
  split; [apply H4; [reflexivity|vm_compute; reflexivity]|].
  destruct H5 as [H5 H6]; [reflexivity|by intros|].
  split; [exact H5|]. split; [exact H6|by apply H3].
Defined.

(** ** What the executor reports *)

Lemma sent_handle_term_any env job_id process m :
  m ∈ sent (handle_term env job_id process).1 → m = DONE job_id 1.
Proof.
  unfold handle_term.
  pose proof (sent_terminate_process process (child_alive env)) as H.
  destruct (_terminate_process process (child_alive env)) as [evs [err|]]; simpl in *.
  - rewrite H. intros Hm. by apply elem_of_nil in Hm.
  - rewrite sent_app, H. simpl. by intros ?%list_elem_of_singleton.
Qed.

Lemma sent_handle_term_uncaught_any env job_id process m :
  m ∈ sent (handle_term_uncaught env job_id process) → m = DONE job_id 1.
Proof.
  unfold handle_term_uncaught.
  pose proof (sent_handle_term_any env job_id process m) as H.
  destruct (handle_term env job_id process) as [evs [err|]]; simpl in *; [|done].
  rewrite sent_app. simpl. by rewrite app_nil_r.
Qed.

Lemma try_body_points env job code :
  (try_body env job).2 = inr code →
  (try_body env job).1 = [StdoutOpened; StderrOpened; ChildRunning].
Proof.
  unfold try_body.
  destruct (stdout job); [|done]. destruct (fs_open env _); [done|].
  destruct (stderr job); [|done]. destruct (fs_open env _); [done|].
  destruct (cmd job); [|done]. by destruct (os_popen env _ _).
Qed.

(** X7: Whatever happens to it, an executor only sends completion and failure
    notices for its own job.  It reports the exit code 0 only when the
    child was started, [wait] returned 0 and no termination signal arrived
    before the report was sent: neither a fault nor a signal that
    interrupts the job is reported as success.  A run without a signal in
    which [wait] returns 0 sends this report and nothing else. *)
Theorem executor_reports_no_false_success (env : ExecEnv) (job_id : Z) (job : _Job) :
  (∀ m, m ∈ sent (_execute_job env job_id job) →
     is_notice job_id m = true
     ∧ (m = DONE job_id 0 →
          (try_body env job).2 = inr 0
          ∧ (sigterm env = None ∨ sigterm env = Some Reported)))
  ∧ ((try_body env job).2 = inr 0 → sigterm env = None →
       sent (_execute_job env job_id job) = [DONE job_id 0]).
Proof.
  unfold _execute_job. pose proof (try_body_points env job) as Hpts.
  destruct (try_body env job) as [points res]. simpl in *.
  split; [|by intros -> ->].
  set (except := match res with
                 | inl err => [Put (FAILED job_id err)]
                 | inr _ => []
                 end).
  set (result := match res with inl _ => -1 | inr code => code end).
  assert (Hother : ∀ m (P : Prop),
            m = DONE job_id 1 ∨ m = DONE job_id (-1) ∨ (∃ err, m = FAILED job_id err) →
            is_notice job_id m = true ∧ (m = DONE job_id 0 → P)).
  { intros m' P [-> | [-> | [err ->]]]; simpl; rewrite bool_decide_eq_true_2 by done;
      by split. }
  assert (Hreport : ∀ m (P : Prop),
            (res = inr 0 → P) →
            (∃ err, m = FAILED job_id err) ∨ m = DONE job_id result →
            is_notice job_id m = true ∧ (m = DONE job_id 0 → res = inr 0 ∧ P)).
  { intros m' P HP [[err ->] | ->]; simpl; rewrite bool_decide_eq_true_2 by done;
      (split; [done|]); [done|].
    subst result. destruct res as [|code]; [done|]. intros [= ->]. by split; [|apply HP]. }
  assert (Hplain : ∀ m, m ∈ sent (except ++ [Put (DONE job_id result)]) →
            (∃ err, m = FAILED job_id err) ∨ m = DONE job_id result).
  { intros m'. rewrite sent_app. subst except. destruct res; simpl.
    - intros Hm. apply elem_of_cons in Hm as [->|Hm]; [eauto|].
      apply list_elem_of_singleton in Hm as ->. by right.
    - intros ->%list_elem_of_singleton. by right. }
  assert (Hexc : ∀ m, m ∈ sent except → ∃ err, m = FAILED job_id err).
  { intros m'. subst except. destruct res; simpl.
    - intros ->%list_elem_of_singleton. eauto.
    - intros Hm. by apply elem_of_nil in Hm. }
  assert (Hcaught : ∀ process m,
            m ∈ match handle_term env job_id process with
                | (evs, None) => sent evs
                | (evs, Some err) =>
                    sent (evs ++ [Put (FAILED job_id err); Put (DONE job_id (-1))])
                end →
            m = DONE job_id 1 ∨ m = DONE job_id (-1) ∨ (∃ err, m = FAILED job_id err)).
  { intros process m'.
    destruct (sent_handle_term_caught env job_id process) as [H|[err H]]; simpl in H;
      rewrite H.
    - intros ->%list_elem_of_singleton. by left.
    - intros Hm. apply elem_of_cons in Hm as [->|Hm]; [eauto|].
      apply list_elem_of_singleton in Hm as ->. auto. }
  assert (Hinside : ∀ p m,
            p ∈ [StdoutOpened; StderrOpened; ChildRunning] →
            m ∈ (if bool_decide (p ∈ points)
                 then match handle_term env job_id
                              (if bool_decide (p = ChildRunning) then Some false else None) with
                      | (evs, None) => sent evs
                      | (evs, Some err) =>
                          sent (evs ++ [Put (FAILED job_id err); Put (DONE job_id (-1))])
                      end
                 else sent (except ++ [Put (DONE job_id result)])) →
            is_notice job_id m = true
            ∧ (m = DONE job_id 0 → res = inr 0 ∧ (Some p = None ∨ Some p = Some Reported))).
  { intros p m' Hp Hm. case_bool_decide as Hin.
    - apply Hother. by eapply Hcaught.
    - apply Hreport; [|by apply Hplain].
      intros Hres. destruct Hin. by rewrite (Hpts 0 Hres). }
  intros m Hm. destruct (sigterm env) as [[]|].
  - by apply elem_of_nil in Hm.
  - apply Hother. left. by eapply sent_handle_term_uncaught_any.
  - apply (Hinside StdoutOpened); [rewrite !elem_of_cons; auto|].
    destruct (bool_decide (StdoutOpened ∈ points)); [|done].
    by destruct (handle_term env job_id _) as [evs [err|]].
  - apply (Hinside StderrOpened); [rewrite !elem_of_cons; auto|].
    destruct (bool_decide (StderrOpened ∈ points)); [|done].
    by destruct (handle_term env job_id _) as [evs [err|]].
  - apply (Hinside ChildRunning); [rewrite !elem_of_cons; auto|].
    destruct (bool_decide (ChildRunning ∈ points)); [|done].
    by destruct (handle_term env job_id _) as [evs [err|]].
  - rewrite sent_app in Hm. apply elem_of_app in Hm as [Hm|Hm].
    + apply Hother. right. right. by apply Hexc.
    + apply Hother. left. by eapply sent_handle_term_uncaught_any.
  - rewrite sent_app in Hm. apply elem_of_app in Hm as [Hm|Hm].
    + apply Hreport; [by right|by apply Hplain].
    + apply Hother. left. by eapply sent_handle_term_uncaught_any.
  - apply Hreport; [by left|by apply Hplain].
Qed.

Lemma executor_reports_no_false_success_witness :
  ((try_body env_clean job_a).2 = inr 0
   ∧ (sigterm env_clean = None ∨ sigterm env_clean = Some Reported))
  ∧ sent (_execute_job env_clean 1 job_a) = [DONE 1 0]
  ∧ DONE 1 0 ∉ sent (_execute_job env_obedient 1 job_a).
Proof.
  destruct (executor_reports_no_false_success env_clean 1 job_a) as [H1 H2].
  destruct (executor_reports_no_false_success env_obedient 1 job_a) as [H3 _].
  split; [|split].
  - apply (H1 (DONE 1 0)); [vm_compute; left|reflexivity].
  - apply H2; reflexivity.
  - intros Hin. destruct (H3 _ Hin) as [_ H]. by destruct (H eq_refl) as [_ [?|?]].
Defined.

(** ** The steps of the handlers *)

Lemma _handle_done_steps depth id state s s' :
  _handle_done depth id state s = (s', Ok true) →
  (running s !! id = None ∧ s' = s)
  ∨ ∃ job p sa s1,
      running s !! id = Some job ∧ process job = Some p
      ∧ _update_dependencies (set_process None job)
          (set_slots_available (slots_available s + threads job)
             (set_running (<[id := set_process None job]> (running s))
                (set_os_events (os_events s ++ [Joined p]) s)))
        = (sa, Ok tt)
      ∧ (if state =? 0 then s1 = sa
         else _remove_children depth (set_process None job) sa = (s1, Ok tt))
      ∧ schedule depth (set_running (delete id (running s1)) s1) = (s', Ok tt).
Proof.
  unfold _handle_done. intros H. run_inv H.
  destruct (running s !! id) as [job|] eqn:Hr;
    [|left; by apply ret_inv in H as [-> _]].
  right. run_inv H. apply process_join_inv in Hrun as (p & Hp & ->).
  run_inv H. run_inv H. run_inv H. run_inv H.
  run_inv H. apply del_running_inv in Hrun1 as [_ ->].
  run_inv H. apply ret_inv in H as [-> _].
  repeat match goal with u : () |- _ => destruct u end.
  exists job, p, s0, s1. split; [done|]. split; [done|]. split; [exact Hrun|].
  split; [|done].
  destruct (state =? 0); simpl in Hrun0; [by apply ret_inv in Hrun0 as [-> _]|done].
Qed.

Lemma _handle_cancel_steps depth id s s' :
  _handle_cancel depth (Some id) s = (s', Ok true) →
  (running s !! id = None ∧ queued s !! id = None ∧ s' = s)
  ∨ ∃ job s0 sa s1,
      ((∃ job0 p, running s !! id = Some job0 ∧ process job0 = Some p
                  ∧ job = set_process None job0
                  ∧ s0 = set_running (delete id (running s))
                           (set_slots_available (slots_available s + threads job0)
                              (set_os_events
                                 ((os_events s ++ [Terminated p]) ++ [Joined p]) s)))
       ∨ (running s !! id = None ∧ queued s !! id = Some job
          ∧ s0 = set_queued (delete id (queued s)) s))
      ∧ _update_dependencies job s0 = (sa, Ok tt)
      ∧ _remove_children depth job sa = (s1, Ok tt)
      ∧ schedule depth s1 = (s', Ok tt).
Proof.
  unfold _handle_cancel. intros H. run_inv H.
  run_inv H. run_inv H.
  destruct (running s !! id) as [job0|] eqn:Hr.
  - right. run_inv Hrun. apply process_terminate_inv in Hrun0 as (p & Hp & ->).
    run_inv Hrun. apply process_join_inv in Hrun0 as (p' & Hp' & ->).
    assert (p' = p) by congruence. subst p'.
    run_inv Hrun. run_inv Hrun. apply del_running_inv in Hrun0 as [_ ->].
    apply ret_inv in Hrun as [-> ->].
    run_inv H. run_inv H. run_inv H. apply ret_inv in H as [-> _].
    repeat match goal with u : () |- _ => destruct u end.
    eexists _, _, _, _. split; [left; exists job0, p; eauto|].
    split; [exact Hrun|]. split; [exact Hrun0|]. done.
  - destruct (queued s !! id) as [job|] eqn:Hq.
    + right. run_inv Hrun. apply del_queued_inv in Hrun0 as [_ ->].
      apply ret_inv in Hrun as [-> ->].
      run_inv H. run_inv H. run_inv H. apply ret_inv in H as [-> _].
      repeat match goal with u : () |- _ => destruct u end.
      eexists _, _, _, _. split; [right; eauto|].
      split; [exact Hrun|]. split; [exact Hrun0|]. done.
    + left. apply ret_inv in Hrun as [-> ->]. by apply ret_inv in H as [-> _].
Qed.

(** What a run of promotions does to the ids in use and to a job that
    is queued under its id. *)
Lemma promotions_track s s' :
  rtc promotion s s' → keys_ok s →
  (∀ k j, queued s' !! k = Some j → queued s !! k = Some j)
  ∧ (∀ k j, running s' !! k = Some j →
            running s !! k = Some j
            ∨ ∃ j0, queued s !! k = Some j0 ∧ dependencies j0 = ∅
                    ∧ j = set_process (Some (worker k)) j0)
  ∧ (∀ k j, queued s !! k = Some j →
            queued s' !! k = Some j
            ∨ running s' !! k = Some (set_process (Some (worker k)) j))
  ∧ (∀ k, is_Some (running s !! k) → is_Some (running s' !! k)).
Proof.
  induction 1 as [s|s s1 s' Hstep _ IH]; intros Hk.
  { split; [done|]. split; [by left|]. split; [by left|done]. }
  destruct (promotion_keyed s s1 Hk Hstep)
    as (k0 & job & Hq & Hid & Hd & _ & Hr1 & Hq1 & _).
  destruct (IH (promotion_keys_ok _ _ Hk Hstep)) as (I1 & I2 & I3 & I4).
  split; [|split; [|split]].
  - intros k j H. apply I1 in H. rewrite Hq1 in H.
    by apply lookup_delete_Some in H as [_ H].
  - intros k j H. destruct (I2 k j H) as [H1|(j0 & H1 & ? & ->)].
    + rewrite Hr1 in H1. destruct (decide (k0 = k)) as [<-|Hne].
      * rewrite lookup_insert_eq in H1. injection H1 as <-. right. by exists job.
      * rewrite lookup_insert_ne in H1 by done. by left.
    + rewrite Hq1 in H1. apply lookup_delete_Some in H1 as [_ H1]. right. by exists j0.
  - intros k j H. destruct (decide (k0 = k)) as [<-|Hne].
    + right. rewrite Hq in H. injection H as <-.
      assert (Hin : running s1 !! k0 = Some (set_process (Some (worker k0)) job))
        by (by rewrite Hr1, lookup_insert_eq).
      destruct (I4 k0 (mk_is_Some _ _ Hin)) as [j' Hj'].
      destruct (I2 k0 j' Hj') as [H1|(j0 & H1 & _)]; [congruence|].
      by rewrite Hq1, lookup_delete_eq in H1.
    + apply I3. by rewrite Hq1, lookup_delete_ne.
  - intros k Hin. apply I4. rewrite Hr1.
    destruct (decide (k0 = k)) as [<-|Hne]; [by rewrite lookup_insert_eq|].
    by rewrite lookup_insert_ne.
Qed.

(** ** The ids in use *)

Lemma _handle_submit_steps depth job s s' r :
  _handle_submit depth job s = (s', r) →
  let id := _current_id s + 1 in
  let job' := set_stderr (_resolve_log id (stderr job))
                (set_stdout (_resolve_log id (stdout job))
                   (set_job_id (Some id) job)) in
  ∃ s1,
    relinked (set_queued (<[id := job']> (queued s)) (set_current_id id s)) s1
    ∧ (∀ d, d ∈ dependencies job →
         (∀ j, queued s1 !! d = Some j → id ∈ children j)
         ∧ (∀ j, running s1 !! d = Some j → id ∈ children j))
    ∧ rtc promotion (set_response (response s1 ++ [ReplyId id]) s1) s'
    ∧ (r = Ok true ∨ r = Raise RecursionError).
Proof.
  intros H id job'.
  destruct (_handle_submit_queues _ _ _ _ _ H) as (s1 & Hrel & Hall & Hyes & Hno).
  exists s1. split; [exact Hrel|]. split; [exact Hall|].
  destruct (1 <=? slots_available s1).
  - destruct Hyes as (r' & Hrun & Hr); [done|]. split; [by eapply schedule_promotions|].
    destruct Hr; auto.
  - destruct Hno as [-> ->]; [done|]. split; [reflexivity|by left].
Qed.

Lemma tidy_sub s s' :
  tidy s → _current_id s' = _current_id s →
  (∀ k j, running s' !! k = Some j → running s !! k = Some j) →
  (∀ k, is_Some (queued s' !! k) → is_Some (queued s !! k)) →
  tidy s'.
Proof.
  intros [Hr Hc Hl] Hid Hrun Hq. split.
  - intros k j H. by apply Hr, Hrun.
  - by rewrite Hid.
  - intros k [H|[j H]]; apply Hl; [left; by apply Hq|right].
    apply Hrun in H. eauto.
Qed.

Lemma pruned_sub s s' k : pruned s s' → is_Some (queued s' !! k) → is_Some (queued s !! k).
Proof. intros Hp [j' H]. destruct (pruned_queued _ _ Hp k j' H) as (j & ? & _). eauto. Qed.

Lemma tidy_pruned s s' : pruned s s' → tidy s → tidy s'.
Proof.
  intros Hp Ht. apply (tidy_sub s); [done|apply Hp| |].
  - intros k j. by rewrite (pruned_running _ _ Hp).
  - intros k. by apply pruned_sub.
Qed.

Lemma promotions_current_id s s' :
  rtc promotion s s' → keys_ok s → _current_id s' = _current_id s.
Proof.
  induction 1 as [s|s s1 s' Hstep _ IH]; intros Hk; [done|].
  destruct (promotion_keyed s s1 Hk Hstep)
    as (k & job & _ & _ & _ & _ & _ & _ & _ & _ & _ & Hc & _).
  rewrite IH by (by eapply promotion_keys_ok). exact Hc.
Qed.

Lemma tidy_promotions s s' : rtc promotion s s' → keys_ok s → tidy s → tidy s'.
Proof.
  intros Hrtc Hk [Hr Hc Hl].
  destruct (promotions_track _ _ Hrtc Hk) as (I1 & I2 & _ & _).
  split.
  - intros k j H. destruct (I2 k j H) as [H1|(j0 & H1 & _ & ->)]; [by apply Hr|].
    simpl. split; [by apply Hk|done].
  - by rewrite (promotions_current_id s s').
  - intros k [[j H]|[j H]]; apply Hl.
    + left. apply I1 in H. eauto.
    + destruct (I2 k j H) as [?|(j0 & ? & _)]; eauto.
Qed.

Lemma tidy_relinked s s' : relinked s s' → tidy s → tidy s'.
Proof.
  intros Hrel [Hr Hc Hl]. split.
  - intros k j' H. pose proof (relinked_running _ _ Hrel k) as HR. rewrite H in HR.
    inversion HR as [j ? [-> _] Hj|]; subst. simpl. apply Hr. by symmetry.
  - by rewrite (relinked_id _ _ Hrel).
  - intros k [[j' H]|[j' H]]; apply Hl.
    + pose proof (relinked_queued _ _ Hrel k) as HR. rewrite H in HR.
      inversion HR; subst; eauto.
    + pose proof (relinked_running _ _ Hrel k) as HR. rewrite H in HR.
      inversion HR; subst; eauto.
Qed.

Lemma dispatch_tidy depth msg s s' :
  dispatch depth msg s = (s', Ok true) → shape s → tidy s → tidy s'.
Proof.
  destruct msg as [| |job| |id state|id error|[id|]]; simpl; intros H Hs Ht.
  - by apply _handle_exit_stops in H.
  - injection H as <-. by destruct Ht.
  - destruct (_handle_submit_steps _ _ _ _ _ H) as (s1 & Hrel & _ & Hrtc & _).
    match type of Hrel with
    | relinked (set_queued (<[_ := ?j]> _) _) _ =>
        destruct (submit_queued_preserves s j Hs eq_refl) as (Hs0 & _)
    end.
    destruct (relinked_preserves _ _ Hrel) as (Hs1 & _). specialize (Hs1 Hs0).
    apply (tidy_promotions _ _ Hrtc); [apply Hs1|].
    assert (Ht1 : tidy s1).
    { apply (tidy_relinked _ _ Hrel). destruct Ht as [Hr Hc Hl]. split; simpl.
      - done.
      - lia.
      - intros k [Hq|Hq]; [|apply Hl; by right].
        destruct (decide (_current_id s + 1 = k)) as [<-|Hne]; [lia|].
        rewrite lookup_insert_ne in Hq by done. apply Hl. by left. }
    by destruct Ht1.
  - unfold _handle_wait, bind, get, ret, modify in H.
    destruct (negb (wait_mode s)); injection H as <-; [|done]. by destruct Ht.
  - destruct (_handle_done_steps _ _ _ _ _ H) as [[_ ->]|(job & p & sa & s1 & Hr & _ & Hu & Hc & Hrtc)];
      [done|]. apply schedule_promotions in Hrtc.
    apply _update_dependencies_pruned in Hu.
    assert (Hp : pruned sa s1).
    { destruct (state =? 0); [by subst|by eapply _remove_children_pruned]. }
    assert (Hp1 : pruned (set_slots_available (slots_available s + threads job)
                            (set_running (<[id := set_process None job]> (running s))
                               (set_os_events (os_events s ++ [Joined p]) s))) s1)
      by (by etransitivity).
    assert (Hrun1 : running s1 = <[id := set_process None job]> (running s))
      by apply (pruned_running _ _ Hp1).
    apply (tidy_promotions _ _ Hrtc).
    + intros k j Hk. simpl in Hk.
      destruct (pruned_queued _ _ Hp1 k j Hk) as (j0 & Hj0 & -> & _). simpl.
      by apply (shape_keys _ Hs).
    + apply (tidy_sub s); [done|apply (pruned_id _ _ Hp1)| |].
      * intros k j. simpl. rewrite Hrun1, delete_insert_eq.
        intros Hk. by apply lookup_delete_Some in Hk as [_ Hk].
      * intros k. simpl. intros Hk. by apply (pruned_sub _ _ _ Hp1) in Hk.
  - by rewrite (_handle_failed_raises depth id error s) in H.
  - destruct (_handle_cancel_steps _ _ _ _ H)
      as [(_ & _ & ->)|(job & s0 & sa & s1 & Hcase & Hu & Hc & Hrtc)]; [done|].
    apply schedule_promotions in Hrtc.
    apply _update_dependencies_pruned in Hu. apply _remove_children_pruned in Hc.
    assert (Hp : pruned s0 s1) by (by etransitivity).
    assert (Hs0 : shape s0 ∧ tidy s0).
    { destruct Hcase as [(job0 & p & Hr & _ & _ & ->)|(Hr & Hq & ->)].
      - split.
        + apply (freed_preserves (set_os_events ((os_events s ++ [Terminated p]) ++ [Joined p]) s) id job0);
            [by apply shape_set_os_events|done].
        + apply (tidy_sub s); [done|done| |done].
          intros k j. simpl. intros Hk. by apply lookup_delete_Some in Hk as [_ Hk].
      - assert (Hpq : pruned s (set_queued (delete id (queued s)) s)).
        { eapply del_queued_pruned. unfold del_queued, bind, get, modify.
          by rewrite Hq. }
        split; [by eapply pruned_shape|by eapply tidy_pruned]. }
    destruct Hs0 as [Hs0 Ht0].
    apply (tidy_promotions _ _ Hrtc).
    + apply (shape_keys _ (pruned_shape _ _ Hp Hs0)).
    + by eapply tidy_pruned.
  - done.
Qed.

Lemma handles_tidy depth s msgs s' :
  handles depth s msgs s' → shape s → tidy s → shape s' ∧ tidy s'.
Proof.
  induction 1 as [s|s msg s1 msgs s' Hstep _ IH]; intros Hs Ht; [done|].
  apply IH.
  - by destruct (dispatch_preserves _ _ _ _ Hstep Hs).
  - by eapply dispatch_tidy.
Qed.

(** X8: In every state the master reaches from its initial state by handling
    messages, a job is in at most one of the two maps, it is stored under
    the id it carries, every id in use lies between 1 and the last id
    handed out, and a running job holds its worker process. *)
Theorem reachable_jobs_in_order (depth : nat) (order : DictOrder) (cpu_count : Z)
    (cores : option Z) (msgs : list Msg) (s : _GridMaster) :
  handles depth (_GridMaster_init order cpu_count cores) msgs s →
  (∀ k j, queued s !! k = Some j → job_id j = Some k ∧ running s !! k = None)
  ∧ (∀ k j, running s !! k = Some j →
       job_id j = Some k ∧ process j = Some (worker k) ∧ queued s !! k = None)
  ∧ (∀ k, is_Some (queued s !! k) ∨ is_Some (running s !! k) →
       1 ≤ k ≤ _current_id s).
Proof.
  intros H. destruct (handles_tidy _ _ _ _ H) as [[Hk Hd Hi] [Hr Hc Hl]].
  - apply shape_init.
  - split; simpl; [|done|].
    + intros k j Hj. simpl in Hj. by rewrite lookup_empty in Hj.
    + intros k [[j Hj]|[j Hj]]; simpl in Hj; by rewrite lookup_empty in Hj.
  - split; [|split].
    + intros k j Hj. split; [by apply Hk|]. apply Hd. eauto.
    + intros k j Hj. destruct (Hr k j Hj). repeat (split; [done|]).
      destruct (queued s !! k) as [j'|] eqn:Hq; [|done].
      rewrite Hd in Hj by eauto. done.
    + intros k Hin. split; [by apply Hl|by apply Hi].
Qed.

Lemma reachable_jobs_in_order_witness :
  (∀ k j, queued master_chain !! k = Some j →
          job_id j = Some k ∧ running master_chain !! k = None)
  ∧ (∀ k j, running master_chain !! k = Some j →
       job_id j = Some k ∧ process j = Some (worker k) ∧ queued master_chain !! k = None)
  ∧ (∀ k, is_Some (queued master_chain !! k) ∨ is_Some (running master_chain !! k) →
       1 ≤ k ≤ _current_id master_chain).
Proof.
  apply (reachable_jobs_in_order 10 ascending 1 None
           [SUBMIT job_a; SUBMIT job_b; SUBMIT job_c; SUBMIT job_a]).
  apply start_handles. vm_compute. reflexivity.
Defined.

(** ** Submission *)

Lemma promotions_running_kept s s' :
  rtc promotion s s' → shape s →
  ∀ k j, running s !! k = Some j → running s' !! k = Some j.
Proof.
  induction 1 as [s|s s1 s' Hstep _ IH]; intros Hs k j Hk; [done|].
  apply IH; [by eapply promotion_shape|].
  destruct (promotion_fields s s1 Hs Hstep)
    as (k0 & job & _ & _ & _ & _ & Hnone & Hr1 & _).
  rewrite Hr1, lookup_insert_ne; [done|]. intros ->. congruence.
Qed.

(** X9: The submit handler gives the job the id after the last one handed
    out, which no job in the master has, and answers with it.  The job is
    then stored under this id, queued or already running, with the log
    paths resolved for the id and otherwise as it was submitted.  The
    handler returns unless the scheduler runs out of frames. *)
Theorem submit_assigns_fresh_id (depth : nat) (job : _Job) (s s' : _GridMaster)
    (r : outcome bool) :
  shape s → _handle_submit depth job s = (s', r) →
  let id := _current_id s + 1 in
  _current_id s' = id
  ∧ response s' = response s ++ [ReplyId id]
  ∧ queued s !! id = None ∧ running s !! id = None
  ∧ (∃ j, (queued s' !! id = Some j ∧ running s' !! id = None ∧ process j = process job
           ∨ running s' !! id = Some j ∧ queued s' !! id = None
             ∧ process j = Some (worker id))
          ∧ job_id j = Some id
          ∧ dependencies j = dependencies job
          ∧ threads j = threads job
          ∧ cmd j = cmd job
          ∧ working_directory j = working_directory job
          ∧ stdout j = _resolve_log id (stdout job)
          ∧ stderr j = _resolve_log id (stderr job))
  ∧ (r = Ok true ∨ r = Raise RecursionError).
Proof.
  intros Hs H id.
  destruct (_handle_submit_steps _ _ _ _ _ H) as (s1 & Hrel & _ & Hrtc & Hr).
  fold id in Hrel, Hrtc.
  set (job' := set_stderr _ (set_stdout _ (set_job_id (Some id) job))) in Hrel.
  destruct (submit_queued_preserves s job' Hs eq_refl) as (Hs0 & _).
  destruct (relinked_preserves _ _ Hrel) as (Hs1 & _). specialize (Hs1 Hs0).
  set (s2 := set_response (response s1 ++ [ReplyId id]) s1) in *.
  assert (Hs2 : shape s2) by (by apply shape_set_response).
  destruct (promotions_preserve _ _ Hrtc Hs2) as (Hs' & _ & _ & _ & Hid & _ & Hresp).
  destruct (promotions_track _ _ Hrtc (shape_keys _ Hs2)) as (_ & _ & I3 & _).
  assert (Hfresh : queued s !! id = None ∧ running s !! id = None).
  { assert (Hn : ¬ (is_Some (queued s !! id) ∨ is_Some (running s !! id))).
    { intros Hin. apply (shape_ids _ Hs) in Hin. subst id. lia. }
    split.
    - destruct (queued s !! id) eqn:E; [|done]. destruct Hn. eauto.
    - destruct (running s !! id) eqn:E; [|done]. destruct Hn. eauto. }
  assert (HB : ∃ B, queued s2 !! id = Some B ∧ B = set_children (children B) job').
  { pose proof (relinked_queued _ _ Hrel id) as HR. simpl in HR.
    rewrite lookup_insert_eq in HR. inversion HR as [j0 B [EB _] Hj0 HB|]; subst j0.
    exists B. by split. }
  destruct HB as (B & HB & EB).
  split; [rewrite Hid; apply (relinked_id _ _ Hrel)|].
  split; [rewrite Hresp; simpl; by rewrite (relinked_response _ _ Hrel)|].
  split; [apply Hfresh|]. split; [apply Hfresh|]. split; [|exact Hr].
  destruct (I3 id B HB) as [Hq|Hrun].
  - exists B. split.
    + left. split; [done|]. split; [by apply (shape_disjoint _ Hs'); eauto|].
      by rewrite EB.
    + rewrite EB. by repeat split.
  - exists (set_process (Some (worker id)) B). split.
    + right. split; [done|]. split; [|done].
      destruct (queued s' !! id) as [j|] eqn:Hq; [|done].
      rewrite (shape_disjoint _ Hs' id) in Hrun by eauto. done.
    + rewrite EB. by repeat split.
Qed.

Lemma shape_check (s : _GridMaster) :
  map_Forall (λ k j, job_id j = Some k ∧ running s !! k = None
                     ∧ k ≤ _current_id s) (queued s) →
  map_Forall (λ k _, k ≤ _current_id s) (running s) →
  shape s.
Proof.
  intros Hq Hr. split.
  - intros k j Hk. by destruct (Hq k j Hk).
  - intros k [j Hk]. by destruct (Hq k j Hk) as (_ & ? & _).
  - intros k [[j Hk]|[j Hk]]; [by destruct (Hq k j Hk) as (_ & _ & ?)|].
    by apply (Hr k j).
Qed.

Lemma submit_assigns_fresh_id_witness :
  _current_id master_a_running = 2
  ∧ response master_a_running = response master_a_submitted ++ [ReplyId 2]
  ∧ queued master_a_submitted !! 2 = None.
Proof.
  destruct (submit_assigns_fresh_id 10 job_b master_a_submitted master_a_running (Ok true))
    as (H1 & H2 & H3 & _).
  - apply shape_check; apply (bool_decide_unpack _); vm_compute; exact I.
  - vm_compute. reflexivity.
  - split; [exact H1|]. split; [exact H2|exact H3].
Defined.

(** ** Listing and leaving *)

Lemma keys_perm order (m : gmap Z _Job) : keys order m ≡ₚ (map_to_list m).*1.
Proof. unfold keys. by rewrite iteritems_perm. Qed.

Lemma elem_of_keys order (m : gmap Z _Job) k : k ∈ keys order m ↔ is_Some (m !! k).
Proof.
  rewrite keys_perm, list_elem_of_fmap. split.
  - intros ([k' j] & -> & H). apply elem_of_map_to_list in H. eauto.
  - intros [j H]. exists (k, j). split; [done|]. by apply elem_of_map_to_list.
Qed.

Lemma NoDup_keys order (m : gmap Z _Job) : NoDup (keys order m).
Proof. rewrite keys_perm. apply NoDup_fst_map_to_list. Qed.

Lemma length_keys order (m : gmap Z _Job) : length (keys order m) = size m.
Proof. by rewrite keys_perm, length_fmap, length_map_to_list. Qed.

(** X10: The list handler answers with the ids of the queued jobs followed by
    those of the running jobs, and changes nothing but the response queue.
    Whatever the order in which the dictionaries hand out their keys, each
    part holds exactly the ids of its map, each once; so the answer holds
    the ids in use, as many as [_num_jobs] counts, and each once when no
    id is in both maps. *)
Theorem jobs_lists_ids_in_use (s : _GridMaster) :
  let qs := keys (dict_order s) (queued s) in
  let rs := keys (dict_order s) (running s) in
  _handle_jobs s = (set_response (response s ++ [ReplyJobs (qs ++ rs)]) s, Ok true)
  ∧ (∀ k, k ∈ qs ↔ is_Some (queued s !! k)) ∧ NoDup qs
  ∧ (∀ k, k ∈ rs ↔ is_Some (running s !! k)) ∧ NoDup rs
  ∧ length (qs ++ rs) = _num_jobs s
  ∧ ((∀ k, is_Some (queued s !! k) → running s !! k = None) → NoDup (qs ++ rs)).
Proof.
  intros qs rs. subst qs rs. split; [reflexivity|].
  split; [apply elem_of_keys|]. split; [apply NoDup_keys|].
  split; [apply elem_of_keys|]. split; [apply NoDup_keys|]. split.
  - unfold _num_jobs. by rewrite length_app, !length_keys.
  - intros Hd. apply NoDup_app. split; [apply NoDup_keys|].
    split; [|apply NoDup_keys].
    intros k Hq Hr. apply elem_of_keys in Hq, Hr. rewrite Hd in Hr by done.
    by destruct Hr.
Qed.

Lemma jobs_lists_ids_in_use_witness :
  _handle_jobs master_chain
  = (set_response (response master_chain ++ [ReplyJobs ([2; 3; 4] ++ [1])]) master_chain,
     Ok true)
  ∧ NoDup ([2; 3; 4] ++ [1]).
Proof.
  assert (Hq : keys (dict_order master_chain) (queued master_chain) = [2; 3; 4])
    by (vm_compute; reflexivity).
  assert (Hr : keys (dict_order master_chain) (running master_chain) = [1])
    by (vm_compute; reflexivity).
  rewrite <-Hq, <-Hr.
  destruct (jobs_lists_ids_in_use master_chain) as (H1 & _ & _ & _ & _ & _ & H2).
  split; [exact H1|]. apply H2.
  intros k [j Hk].
  assert (Hs : shape master_chain).
  { apply shape_check; apply (bool_decide_unpack _); vm_compute; exact I. }
  apply (shape_disjoint _ Hs). eauto.
Defined.

Lemma set_os_events_twice e1 e2 s :
  set_os_events e2 (set_os_events e1 s) = set_os_events e2 s.
Proof. by destruct s. Qed.

Lemma exit_loop_run (l : list (Z * _Job)) (s : _GridMaster) :
  Forall (λ kj, is_Some (process kj.2)) l →
  for_each l (λ '(_, p), process_terminate p ;; process_join p) s
  = (set_os_events (os_events s ++ exit_events l) s, Ok tt).
Proof.
  intros H. revert s. induction H as [|[k j] l [p Hp] _ IH]; intros s.
  - simpl. unfold ret. f_equal. destruct s; simpl. by rewrite app_nil_r.
  - simpl in Hp. simpl. unfold bind at 1, bind at 1, process_terminate, process_join.
    rewrite Hp. unfold emit, modify. simpl. rewrite IH. simpl.
    rewrite set_os_events_twice, set_os_events_twice.
    unfold exit_events. simpl. by rewrite <-!app_assoc.
Qed.

(** X11: The exit handler goes through the running jobs in the order of the
    dictionary and terminates and joins the process of each.  Whatever
    that order is, every running job has its process terminated and
    joined, no other process is touched, nothing else in the master
    changes, and the loop stops with the messages behind [EXIT] unread.
    It relies on every running job holding a process. *)
Theorem exit_terminates_workers_and_stops (depth : nat) (s : _GridMaster)
    (rest : list Msg) :
  (∀ k j, running s !! k = Some j → is_Some (process j)) →
  let events := exit_events (iteritems (dict_order s) (running s)) in
  _handle_exit s = (set_os_events (os_events s ++ events) s, Ok false)
  ∧ (∀ k j p, running s !! k = Some j → process j = Some p →
       Terminated p ∈ events ∧ Joined p ∈ events)
  ∧ (∀ e, e ∈ events →
       ∃ k j p, running s !! k = Some j ∧ process j = Some p
                ∧ (e = Terminated p ∨ e = Joined p))
  ∧ ((wait_mode s && (_num_jobs s =? 0)%nat) = false →
     start depth (EXIT :: rest) s
     = (set_os_events (os_events s ++ events) s, rest, HandlerStopped)).
Proof.
  intros Hp events. subst events.
  assert (Hrun : _handle_exit s
                 = (set_os_events
                      (os_events s ++ exit_events (iteritems (dict_order s) (running s))) s,
                    Ok false)).
  { assert (Hall : Forall (λ kj, is_Some (process kj.2))
                     (iteritems (dict_order s) (running s))).
    { apply Forall_forall. intros [k j] Hin. apply elem_of_iteritems in Hin.
      by apply (Hp k). }
    unfold _handle_exit, bind at 1, get.
    by rewrite (bind_Ok _ _ _ _ _ (exit_loop_run _ s Hall)). }
  split; [exact Hrun|]. split; [|split].
  - intros k j p Hk Hj. apply (elem_of_iteritems (dict_order s)) in Hk.
    unfold exit_events. split; apply list_elem_of_bind; exists (k, j);
      (split; [|done]); rewrite Hj; [left|right; left].
  - intros e He. unfold exit_events in He. apply list_elem_of_bind in He as ([k j] & He & Hk).
    apply elem_of_iteritems in Hk. destruct (process j) as [p|] eqn:Hj.
    + exists k, j, p. split; [done|]. split; [done|].
      apply elem_of_cons in He as [->|He]; [by left|].
      apply list_elem_of_singleton in He as ->. by right.
    + by apply elem_of_nil in He.
  - intros Hd. rewrite start_step by done. simpl. by rewrite Hrun.
Qed.

Lemma exit_terminates_workers_and_stops_witness :
  start 10 [EXIT; JOBS] master_three
  = (set_os_events
       (os_events master_three
        ++ [Terminated (worker 1); Joined (worker 1);
            Terminated (worker 2); Joined (worker 2);
            Terminated (worker 3); Joined (worker 3)])
       master_three, [JOBS], HandlerStopped).
Proof.
  destruct (exit_terminates_workers_and_stops 10 master_three [JOBS]) as (_ & _ & _ & H).
  - assert (Hall : map_Forall (λ _ j, is_Some (process j)) (running master_three)).
    { apply (bool_decide_unpack _). vm_compute. exact I. }
    intros k j Hk. by apply (Hall k j).
  - rewrite H by (vm_compute; reflexivity). vm_compute. reflexivity.
Defined.

(** ** Cancellation *)

Lemma queued_descendant_same_children (q q' : gmap Z _Job) cs k :
  (∀ x, children <$> q' !! x = children <$> q !! x) →
  queued_descendant q cs k → queued_descendant q' cs k.
Proof.
  intros Hsame.
  assert (Hdom : ∀ x, is_Some (q !! x) → is_Some (q' !! x)).
  { intros x [j Hj]. specialize (Hsame x). rewrite Hj in Hsame.
    destruct (q' !! x); [eauto|done]. }
  induction 1 as [c Hc Hin|p pj c _ IH Hp Hc Hin].
  - apply qd_child; [done|by apply Hdom].
  - specialize (Hsame p) as Hpp. rewrite Hp in Hpp.
    destruct (q' !! p) as [pj'|] eqn:Hp'; [|done]. simpl in Hpp. injection Hpp as Hch.
    eapply qd_step; [exact IH|exact Hp'|by rewrite Hch|by apply Hdom].
Qed.

Lemma update_same_children job s sa :
  _update_dependencies job s = (sa, Ok tt) →
  ∀ x, children <$> queued sa !! x = children <$> queued s !! x.
Proof.
  intros Hu x. destruct (update_loop_run (job_id job) (elements (children job)) s)
    as (s' & Hrun & _ & Hq).
  unfold _update_dependencies in Hu. rewrite Hrun in Hu. injection Hu as <-.
  rewrite Hq. destruct (queued s !! x) as [j|]; [|done]. simpl.
  destruct (decide _); [|done]. by destruct (remove_dependency_spec (job_id job) j) as [-> _].
Qed.

(** X12: A cancel for a job that is running or queued takes it out of the
    master together with every queued descendant: none of them is in either
    map afterwards.  Running jobs other than the cancelled one stay as they
    are, children of the cancelled job included. *)
Theorem cancel_removes_job_and_descendants (depth : nat) (id : Z) (job : _Job)
    (s s' : _GridMaster) :
  shape s →
  running s !! id = Some job ∨ queued s !! id = Some job →
  _handle_cancel depth (Some id) s = (s', Ok true) →
  queued s' !! id = None ∧ running s' !! id = None
  ∧ (∀ k, queued_descendant (delete id (queued s)) (children job) k →
          queued s' !! k = None ∧ running s' !! k = None)
  ∧ (∀ k j, k ≠ id → running s !! k = Some j → running s' !! k = Some j).
Proof.
  intros Hs Hjob H.
  destruct (_handle_cancel_steps _ _ _ _ H)
    as [(Hr & Hq & _)|(job1 & s0 & sa & s1 & Hcase & Hu & Hc & Hsched)].
  { destruct Hjob; congruence. }
  apply schedule_promotions in Hsched.
  assert (H0 : shape s0 ∧ queued s0 = delete id (queued s)
               ∧ running s0 = delete id (running s)
               ∧ children job1 = children job).
  { destruct Hcase as [(job0 & p & Hr & _ & -> & ->)|(Hr & Hq & ->)].
    - assert (job0 = job) as ->.
      { destruct Hjob as [?|Hq]; [congruence|].
        rewrite (shape_disjoint _ Hs id) in Hr by eauto. done. }
      split; [|split; [|done]].
      + apply (freed_preserves (set_os_events ((os_events s ++ [Terminated p]) ++ [Joined p]) s)
                 id job); [by apply shape_set_os_events|done].
      + simpl. symmetry. apply delete_id.
        destruct (queued s !! id) eqn:E; [|done].
        rewrite (shape_disjoint _ Hs id) in Hr by eauto. done.
    - assert (job1 = job) as -> by (destruct Hjob; congruence).
      split; [|split; [done|split; [|done]]].
      + eapply pruned_shape; [|exact Hs]. eapply del_queued_pruned.
        unfold del_queued, bind, get, modify. by rewrite Hq.
      + simpl. symmetry. by apply delete_id. }
  destruct H0 as (Hs0 & Hq0 & Hr0 & Hch).
  pose proof (update_same_children _ _ _ Hu) as Hsame.
  pose proof (_update_dependencies_pruned _ _ _ _ Hu) as Hpa.
  pose proof (_remove_children_pruned _ _ _ _ _ Hc) as Hp1.
  pose proof (_remove_children_cascaded _ _ _ _ Hc) as Hcas.
  assert (Hp : pruned s0 s1) by (by etransitivity).
  pose proof (pruned_shape _ _ Hp Hs0) as Hs1.
  destruct (promotions_track _ _ Hsched (shape_keys _ Hs1)) as (I1 & I2 & _ & _).
  assert (Hr1 : running s1 = delete id (running s))
    by (by rewrite (pruned_running _ _ Hp)).
  assert (Hgone : ∀ k, queued s1 !! k = None → running s1 !! k = None →
                       queued s' !! k = None ∧ running s' !! k = None).
  { intros k Hqk Hrk. split.
    - destruct (queued s' !! k) as [j|] eqn:E; [|done]. apply I1 in E. congruence.
    - destruct (running s' !! k) as [j|] eqn:E; [|done].
      destruct (I2 k j E) as [?|(j0 & ? & _)]; congruence. }
  assert (Hqid : queued s1 !! id = None).
  { destruct (queued s1 !! id) as [j|] eqn:E; [|done].
    destruct (pruned_sub _ _ id Hp (mk_is_Some _ _ E)) as [j0 E0].
    by rewrite Hq0, lookup_delete_eq in E0. }
  split; [apply Hgone; [done|by rewrite Hr1, lookup_delete_eq]|].
  split; [apply Hgone; [done|by rewrite Hr1, lookup_delete_eq]|].
  split.
  - intros k Hk. rewrite <-Hq0, <-Hch in Hk.
    pose proof (queued_descendant_dom _ _ _ Hk) as Hdom.
    apply (queued_descendant_same_children _ (queued sa)) in Hk; [|done].
    apply Hgone; [by apply (Hcas k)|].
    rewrite Hr1. apply lookup_delete_None. right.
    rewrite Hq0 in Hdom. apply lookup_delete_is_Some in Hdom as [_ Hdom].
    by apply (shape_disjoint _ Hs).
  - intros k j Hne Hk. apply (promotions_running_kept _ _ Hsched Hs1).
    by rewrite Hr1, lookup_delete_ne.
Qed.

Lemma cancel_removes_job_and_descendants_witness :
  ∃ s', _handle_cancel 10 (Some 2) master_chain = (s', Ok true)
        ∧ queued s' !! 2 = None ∧ running s' !! 2 = None
        ∧ queued s' !! 3 = None ∧ running s' !! 3 = None
        ∧ is_Some (running s' !! 1).
Proof.
  destruct (_handle_cancel 10 (Some 2) master_chain) as [s' r] eqn:Hrun.
  assert (r = Ok true) as ->.
  { apply (f_equal snd) in Hrun. vm_compute in Hrun. congruence. }
  destruct (queued master_chain !! 2) as [job|] eqn:Hj;
    [|vm_compute in Hj; discriminate].
  destruct (cancel_removes_job_and_descendants 10 2 job master_chain s')
    as (H1 & H2 & H3 & H4); [|by right|exact Hrun|].
  { apply shape_check; apply (bool_decide_unpack _); vm_compute; exact I. }
  exists s'. split; [done|]. split; [exact H1|]. split; [exact H2|].
  destruct (H3 3) as [H5 H6].
  { apply qd_child; [|vm_compute; eauto].
    vm_compute in Hj. injection Hj as <-. vm_compute. reflexivity. }
  split; [exact H5|]. split; [exact H6|].
  destruct (running master_chain !! 1) as [j1|] eqn:H1r;
    [|vm_compute in H1r; discriminate].
  rewrite (H4 1 j1); [eauto|lia|done].
Defined.

(** ** Completion with code 0 *)

Lemma update_queue_lookup job s sa :
  _update_dependencies job s = (sa, Ok tt) →
  ∀ k, queued sa !! k
       = (λ j, if decide (k ∈ children job)
               then remove_dependency (job_id job) j else j)
         <$> queued s !! k.
Proof.
  intros Hu k.
  destruct (update_loop_run (job_id job) (elements (children job)) s)
    as (s' & Hrun & _ & Hq).
  unfold _update_dependencies in Hu. rewrite Hrun in Hu. injection Hu as <-.
  rewrite Hq. destruct (queued s !! k); simpl; [|done].
  destruct (decide (k ∈ children job)) as [Hin|Hnin].
  - by rewrite decide_True by (by apply elem_of_elements).
  - rewrite decide_False; [done|]. by rewrite elem_of_elements.
Qed.

(** The state in which a clean completion calls the scheduler. *)
Lemma clean_completion_steps depth id job s s' :
  shape s → running s !! id = Some job →
  _handle_done depth id 0 s = (s', Ok true) →
  ∃ s3,
    schedule depth s3 = (s', Ok tt) ∧ shape s3
    ∧ running s3 = delete id (running s)
    ∧ (∀ k, queued s3 !! k
            = (λ j, if decide (k ∈ children job)
                    then remove_dependency (job_id job) j else j)
              <$> queued s !! k).
Proof.
  intros Hs Hr H.
  destruct (_handle_done_steps _ _ _ _ _ H)
    as [[Hn _]|(job0 & p & sa & s1 & Hr0 & _ & Hu & Hc & Hsched)]; [congruence|].
  assert (job0 = job) as -> by congruence. simpl in Hc. subst s1.
  pose proof (_update_dependencies_pruned _ _ _ _ Hu) as Hp.
  exists (set_running (delete id (running sa)) sa). split; [done|].
  set (sj := set_os_events (os_events s ++ [Joined p]) s) in *.
  destruct (release_preserves sj id job (set_process None job) sa _
              (shape_set_os_events _ _ Hs) Hr eq_refl Hp eq_refl) as (Hs3 & _).
  split; [exact Hs3|]. split.
  - simpl. rewrite (pruned_running _ _ Hp). simpl. by rewrite delete_insert_eq.
  - intros k. simpl. by rewrite (update_queue_lookup _ _ _ Hu).
Qed.

(** X13: When a running job completes with code 0, it leaves the master, and
    no queued job is lost: each is still queued or has been started.  A
    child that is still queued no longer holds the id among its
    dependencies.  The other running jobs stay as they are. *)
Theorem clean_completion_keeps_queue (depth : nat) (id : Z) (job : _Job)
    (s s' : _GridMaster) :
  shape s → running s !! id = Some job → job_id job = Some id →
  _handle_done depth id 0 s = (s', Ok true) →
  queued s' !! id = None ∧ running s' !! id = None
  ∧ (∀ k, is_Some (queued s !! k) →
          is_Some (queued s' !! k) ∨ is_Some (running s' !! k))
  ∧ (∀ c j', c ∈ children job → queued s' !! c = Some j' → id ∉ dependencies j')
  ∧ (∀ k j, k ≠ id → running s !! k = Some j → running s' !! k = Some j).
Proof.
  intros Hs Hr Hid H.
  destruct (clean_completion_steps _ _ _ _ _ Hs Hr H) as (s3 & Hsched & Hs3 & Hr3 & Hq3).
  apply schedule_promotions in Hsched.
  destruct (promotions_track _ _ Hsched (shape_keys _ Hs3)) as (I1 & I2 & I3 & _).
  assert (Hqid : queued s !! id = None).
  { destruct (queued s !! id) eqn:E; [|done].
    rewrite (shape_disjoint _ Hs id) in Hr by eauto. done. }
  split; [|split; [|split; [|split]]].
  - destruct (queued s' !! id) as [j|] eqn:E; [|done]. apply I1 in E.
    rewrite Hq3, Hqid in E. done.
  - destruct (running s' !! id) as [j|] eqn:E; [|done].
    destruct (I2 id j E) as [E'|(j0 & E' & _)].
    + by rewrite Hr3, lookup_delete_eq in E'.
    + rewrite Hq3, Hqid in E'. done.
  - intros k [j Hk].
    destruct (I3 k _ (eq_trans (Hq3 k) (f_equal _ Hk))) as [E|E]; eauto.
  - intros c j' Hc Hj'. apply I1 in Hj'. rewrite Hq3 in Hj'.
    destruct (queued s !! c) as [j|]; [|done]. simpl in Hj'.
    rewrite decide_True, Hid in Hj' by done. injection Hj' as <-. simpl.
    intros Hin. apply elem_of_difference in Hin as [_ Hin]. apply Hin.
    by apply elem_of_singleton.
  - intros k j Hne Hk. apply (promotions_running_kept _ _ Hsched Hs3).
    by rewrite Hr3, lookup_delete_ne.
Qed.

Lemma clean_completion_keeps_queue_witness :
  queued master_a_done !! 1 = None ∧ running master_a_done !! 1 = None
  ∧ (is_Some (queued master_a_done !! 2) ∨ is_Some (running master_a_done !! 2)).
Proof.
  destruct (running master_a_running !! 1) as [job|] eqn:Hj;
    [|vm_compute in Hj; discriminate].
  destruct (clean_completion_keeps_queue 10 1 job master_a_running master_a_done)
    as (H1 & H2 & H3 & _).
  - apply shape_check; apply (bool_decide_unpack _); vm_compute; exact I.
  - exact Hj.
  - vm_compute in Hj. injection Hj as <-. reflexivity.
  - vm_compute. reflexivity.
  - split; [exact H1|]. split; [exact H2|]. apply H3. vm_compute. eauto.
Defined.

(** X14: When a running job completes with code 0, each queued child that
    waited for nothing else is started by the scheduler run that follows,
    unless the free slots are too few for it when that run ends.  Every
    queued job is taken to need at least one thread. *)
Theorem completion_releases_children (depth : nat) (id : Z) (job : _Job)
    (s s' : _GridMaster) (c : Z) (j : _Job) :
  shape s → running s !! id = Some job → job_id job = Some id →
  (∀ k j, queued s !! k = Some j → 1 ≤ threads j) →
  _handle_done depth id 0 s = (s', Ok true) →
  c ∈ children job → queued s !! c = Some j → dependencies j ⊆ {[ id ]} →
  running s' !! c = Some (set_process (Some (worker c)) (set_dependencies ∅ j))
  ∨ (queued s' !! c = Some (set_dependencies ∅ j)
     ∧ slots_available s' < threads j).
Proof.
  intros Hs Hr Hid Hpos H Hc Hj Hdeps.
  destruct (clean_completion_steps _ _ _ _ _ Hs Hr H) as (s3 & Hsched & Hs3 & Hr3 & Hq3).
  assert (Hres : queued s3 !! c = Some (set_dependencies ∅ j)).
  { rewrite Hq3, Hj. simpl. rewrite decide_True, Hid by done. simpl.
    do 2 f_equal. apply set_eq. intros x. rewrite elem_of_difference.
    split; [|by intros ?%not_elem_of_empty]. intros [Hx Hnx]. destruct Hnx. by apply Hdeps. }
  assert (Hpos3 : ∀ k j, queued s3 !! k = Some j → 1 ≤ threads j).
  { intros k j0. rewrite Hq3. destruct (queued s !! k) as [j1|] eqn:Hk; [|done].
    simpl. intros [= <-]. specialize (Hpos k j1 Hk).
    destruct (decide _); [|done].
    by destruct (remove_dependency_spec (job_id job) j1) as [-> _]. }
  destruct (schedule_exhausts _ _ _ Hsched Hpos3) as [Hfull _].
  apply schedule_promotions in Hsched.
  destruct (promotions_track _ _ Hsched (shape_keys _ Hs3)) as (_ & _ & I3 & _).
  destruct (I3 c _ Hres) as [Hq|Hrun]; [right|by left].
  split; [done|]. by apply (Hfull c (set_dependencies ∅ j)).
Qed.

Lemma completion_releases_children_witness :
  running master_a_done !! 2
  = Some (set_process (Some (worker 2))
            (set_dependencies ∅
               (set_stderr (Some "/tmp/jip-2.err")
                  (set_stdout (Some "/tmp/jip-2.out") (set_job_id (Some 2) job_b)))))
  ∨ (queued master_a_done !! 2
     = Some (set_dependencies ∅
               (set_stderr (Some "/tmp/jip-2.err")
                  (set_stdout (Some "/tmp/jip-2.out") (set_job_id (Some 2) job_b))))
     ∧ slots_available master_a_done < 1).
Proof.
  destruct (running master_a_running !! 1) as [job|] eqn:Hj;
    [|vm_compute in Hj; discriminate].
  assert (Hjob : job = set_children {[ 2 ]}
                         (set_process (Some (worker 1))
                            (set_stderr (Some "/tmp/jip-1.err")
                               (set_stdout (Some "/tmp/jip-1.out")
                                  (set_job_id (Some 1) job_a))))).
  { vm_compute in Hj. injection Hj as <-. reflexivity. }
  apply (completion_releases_children 10 1 job master_a_running master_a_done 2).
  - apply shape_check; apply (bool_decide_unpack _); vm_compute; exact I.
  - exact Hj.
  - by rewrite Hjob.
  - intros k j0 Hk. destruct (decide (k = 2)) as [->|Hne].
    + vm_compute in Hk. injection Hk as <-. vm_compute. discriminate.
    + change (queued master_a_running)
        with (<[2 := set_stderr (Some "/tmp/jip-2.err")
                       (set_stdout (Some "/tmp/jip-2.out")
                          (set_job_id (Some 2) job_b))]> (∅ : gmap Z _Job)) in Hk.
      by rewrite lookup_insert_ne, lookup_empty in Hk.
  - vm_compute. reflexivity.
  - rewrite Hjob. vm_compute. reflexivity.
  - vm_compute. reflexivity.
  - vm_compute. intros x Hx. exact Hx.
Defined.

(** ** The dependency graph stays free of cycles *)

Lemma register_child_queued id d s s' :
  register_child id d s = (s', Ok tt) →
  queued s' = match queued s !! d with
              | Some dj => <[d := add_child id dj]> (queued s)
              | None => queued s
              end.
Proof.
  unfold register_child, bind, get, modify, ret.
  destruct (queued s !! d) as [dj|]; simpl;
    destruct (running s !! d); by intros [= <-].
Qed.

(** The registration loop adds at most the new id to the children of a
    queued job, and only to jobs it was told to look at. *)
Lemma register_loop_children id ds s s' :
  for_each ds (register_child id) s = (s', Ok tt) →
  ∀ k j', queued s' !! k = Some j' →
    ∃ j, queued s !! k = Some j
         ∧ ∀ c, c ∈ children j' → c ∈ children j ∨ (c = id ∧ k ∈ ds).
Proof.
  revert s. induction ds as [|d ds IH]; intros s H k j' Hk; simpl in H.
  - injection H as <-. exists j'. split; [done|]. by left.
  - destruct (register_child_run id d s) as (s1 & Hrun & _).
    rewrite (bind_Ok _ _ _ _ _ Hrun) in H.
    destruct (IH _ H k j' Hk) as (j1 & Hj1 & Hch).
    rewrite (register_child_queued _ _ _ _ Hrun) in Hj1.
    destruct (queued s !! d) as [dj|] eqn:Hd.
    + destruct (decide (d = k)) as [->|Hne].
      * rewrite lookup_insert_eq in Hj1. injection Hj1 as <-. exists dj.
        split; [done|]. intros c Hc. destruct (Hch c Hc) as [Hc1|[-> Hin]].
        -- simpl in Hc1. apply elem_of_union in Hc1 as [?|Hc1]; [by left|].
           apply elem_of_singleton in Hc1 as ->. right. split; [done|left].
        -- right. split; [done|by right].
      * rewrite lookup_insert_ne in Hj1 by done. exists j1. split; [done|].
        intros c Hc. destruct (Hch c Hc) as [?|[-> Hin]]; [by left|].
        right. split; [done|by right].
    + exists j1. split; [done|]. intros c Hc.
      destruct (Hch c Hc) as [?|[-> Hin]]; [by left|]. right. split; [done|by right].
Qed.

Lemma children_later_pruned s s' :
  pruned s s' → children_later (queued s) → children_later (queued s').
Proof.
  intros Hp H k j' c Hk Hc.
  destruct (pruned_queued _ _ Hp k j' Hk) as (j & Hj & Ej & _).
  apply (H k j c Hj). by rewrite Ej in Hc.
Qed.

Lemma children_later_promotions s s' :
  rtc promotion s s' → children_later (queued s) → children_later (queued s').
Proof.
  induction 1 as [s|s s1 s' Hstep _ IH]; intros H; [done|]. apply IH.
  destruct (promotion_maps _ _ Hstep) as [Hq _].
  by eapply children_later_sub.
Qed.

(** X15: As long as no submitted job brings children of its own or names the
    id it is about to get, every child of a queued job has a larger id
    than its parent after each handled message.  The queued part of the
    dependency graph then has no cycle, which is what the cascade needs to
    come to an end. *)
Theorem dependency_graph_stays_acyclic (depth : nat) (msg : Msg) (s s' : _GridMaster) :
  shape s → children_later (queued s) → no_self_dependency s msg →
  dispatch depth msg s = (s', Ok true) →
  children_later (queued s').
Proof.
  intros Hs Hlater Hself H.
  destruct msg as [| |job| |id state|id error|[id|]]; simpl in H.
  - by apply _handle_exit_stops in H.
  - by injection H as <-.
  - destruct Hself as [Hnone Hnoself].
    set (id := _current_id s + 1) in *.
    set (job' := set_stderr (_resolve_log id (stderr job))
                   (set_stdout (_resolve_log id (stdout job))
                      (set_job_id (Some id) job))).
    set (s0 := set_queued (<[id := job']> (queued s)) (set_current_id id s)) in *.
    destruct (register_loop_run id (elements (dependencies job')) s0)
      as (s1 & Hloop & _ & _).
    assert (Hq1 : children_later (queued s1)).
    { intros k j1 c Hk Hc.
      destruct (register_loop_children _ _ _ _ Hloop k j1 Hk) as (j0 & Hj0 & Hch).
      subst s0. simpl in Hj0.
      destruct (decide (id = k)) as [<-|Hne].
      - rewrite lookup_insert_eq in Hj0. injection Hj0 as <-.
        destruct (Hch c Hc) as [Hc0|[_ Hin]].
        + simpl in Hc0. rewrite Hnone in Hc0. by apply not_elem_of_empty in Hc0.
        + apply elem_of_elements in Hin. done.
      - rewrite lookup_insert_ne in Hj0 by done.
        destruct (Hch c Hc) as [Hc0|[-> _]]; [by apply (Hlater k j0)|].
        assert (k ≤ _current_id s) by (apply (shape_ids _ Hs); left; eauto).
        subst id. lia. }
    assert (Hsame : rtc promotion (set_response (response s1 ++ [ReplyId id]) s1) s').
    { clear -H Hloop.
      unfold _handle_submit in H. rewrite (bind_Ok _ _ _ _ _ (_next_id_run s)) in H.
      unfold bind at 1, modify at 1 in H. simpl in H. fold id job' s0 in H.
      rewrite (bind_Ok _ _ _ _ _ Hloop) in H.
      unfold bind at 1, response_put, modify at 1 in H. simpl in H.
      unfold bind at 1, get at 1 in H. simpl in H. unfold bind, ret in H.
      destruct (1 <=? slots_available s1).
      - destruct (schedule depth _) as [s2 [[]|e]] eqn:Hs; [|done].
        injection H as <-. by eapply schedule_promotions.
      - by injection H as <-. }
    by apply (children_later_promotions _ _ Hsame).
  - unfold _handle_wait, bind, get, ret, modify in H.
    by destruct (negb (wait_mode s)); injection H as <-.
  - destruct (_handle_done_steps _ _ _ _ _ H)
      as [[_ ->]|(job & p & sa & s1 & _ & _ & Hu & Hc & Hsched)]; [done|].
    apply schedule_promotions in Hsched.
    apply _update_dependencies_pruned in Hu.
    assert (Hp : pruned sa s1).
    { destruct (state =? 0); [by subst|by eapply _remove_children_pruned]. }
    apply (children_later_promotions _ _ Hsched). simpl.
    apply (children_later_pruned _ _ Hp), (children_later_pruned _ _ Hu). exact Hlater.
  - by rewrite (_handle_failed_raises depth id error s) in H.
  - destruct (_handle_cancel_steps _ _ _ _ H)
      as [(_ & _ & ->)|(job & s0 & sa & s1 & Hcase & Hu & Hc & Hsched)]; [done|].
    apply schedule_promotions in Hsched.
    apply _update_dependencies_pruned in Hu. apply _remove_children_pruned in Hc.
    apply (children_later_promotions _ _ Hsched).
    apply (children_later_pruned _ _ Hc), (children_later_pruned _ _ Hu).
    destruct Hcase as [(job0 & p & _ & _ & _ & ->)|(_ & _ & ->)]; simpl; [done|].
    eapply children_later_sub; [|exact Hlater].
    intros k j Hk. by apply lookup_delete_Some in Hk as [_ Hk].
  - done.
Qed.

Lemma dependency_graph_stays_acyclic_witness :
  children_later (queued master_a_running).
Proof.
  apply (dependency_graph_stays_acyclic 10 (SUBMIT job_b) master_a_submitted).
  - apply shape_check; apply (bool_decide_unpack _); vm_compute; exact I.
  - apply children_later_check, (bool_decide_unpack _). vm_compute. exact I.
  - split; [reflexivity|]. vm_compute. discriminate.
  - vm_compute. reflexivity.
Defined.

(** ** Log paths *)

Lemma append_assoc_s (a b c : string) : (a +:+ b) +:+ c = a +:+ b +:+ c.
Proof.
  induction a as [|x a IH]; [reflexivity|].
  change (String x ((a +:+ b) +:+ c) = String x (a +:+ b +:+ c)). by rewrite IH.
Qed.

Lemma replace_J_plain r p : mentions_J p = false → replace_J r p = p.
Proof.
  revert r. induction p as [|c p IH]; intros r H; [done|].
  destruct p as [|c' p']; [done|].
  change (replace_J r (String c (String c' p')))
    with (if Ascii.eqb c "%"%char && Ascii.eqb c' "J"%char
          then r +:+ replace_J r p'
          else String c (replace_J r (String c' p'))).
  change (mentions_J (String c (String c' p')))
    with ((Ascii.eqb c "%"%char && Ascii.eqb c' "J"%char) || mentions_J (String c' p')) in H.
  apply orb_false_iff in H as [-> H]. by rewrite IH.
Qed.

Lemma replace_J_prefix r p q :
  no_percent p = true →
  replace_J r (p +:+ "%J" +:+ q) = p +:+ r +:+ replace_J r q.
Proof.
  induction p as [|c p IH]; intros H.
  - reflexivity.
  - simpl in H. apply andb_true_iff in H as [Hc H].
    apply negb_true_iff in Hc. specialize (IH H).
    change (String c p +:+ "%J" +:+ q) with (String c (p +:+ "%J" +:+ q)).
    destruct (p +:+ "%J" +:+ q) as [|c' rest] eqn:E.
    { destruct p; discriminate. }
    change (replace_J r (String c (String c' rest)))
      with (if Ascii.eqb c "%"%char && Ascii.eqb c' "J"%char
            then r +:+ replace_J r rest
            else String c (replace_J r (String c' rest))).
    rewrite Hc, andb_false_l, IH. reflexivity.
Qed.

Lemma no_percent_app p q : no_percent (p +:+ q) = no_percent p && no_percent q.
Proof.
  induction p as [|c p IH]; [reflexivity|].
  change (no_percent (String c p +:+ q))
    with (negb (Ascii.eqb c "%"%char) && no_percent (p +:+ q)).
  rewrite IH. simpl. by rewrite andb_assoc.
Qed.

(** X16: [replace("%J", ...)] leaves a path without the placeholder as it is,
    and a log path without a percent sign in front of its placeholder gets
    the id in its place.  So the default log file of the facade, resolved
    by the master for the id it assigned, is [jip-<id>.out] in the working
    directory. *)
Theorem log_paths_resolve (id : Z) (cwd : string) :
  (∀ p, mentions_J p = false → _resolve_log id (Some p) = Some p)
  ∧ _resolve_log id None = None
  ∧ (∀ p q, no_percent p = true →
       _resolve_log id (Some (p +:+ "%J" +:+ q))
       = Some (p +:+ pretty id +:+ replace_J (pretty id) q))
  ∧ (no_percent cwd = true →
       _resolve_log id (Some (path_join cwd "jip-%J.out"))
       = Some (path_join cwd ("jip-" +:+ pretty id +:+ ".out"))).
Proof.
  unfold _resolve_log. split; [|split; [done|split]].
  - intros p H. by rewrite replace_J_plain.
  - intros p q H. by rewrite replace_J_prefix.
  - intros H. f_equal. unfold path_join. destruct cwd as [|c cwd'].
    + apply (replace_J_prefix (pretty id) "jip-" ".out"). reflexivity.
    + destruct (ends_with_slash (String c cwd')).
      * change "jip-%J.out" with ("jip-" +:+ "%J" +:+ ".out").
        rewrite <-(append_assoc_s (String c cwd') "jip-").
        rewrite replace_J_prefix by (by rewrite no_percent_app, H).
        by rewrite append_assoc_s.
      * change ("/" +:+ "jip-%J.out") with ("/jip-" +:+ "%J" +:+ ".out").
        rewrite <-(append_assoc_s (String c cwd') "/jip-").
        rewrite replace_J_prefix by (by rewrite no_percent_app, H).
        by rewrite append_assoc_s.
Qed.

Lemma log_paths_resolve_witness :
  _resolve_log 12 (Some "/tmp/out.txt") = Some "/tmp/out.txt"
  ∧ _resolve_log 12 (Some ("/data/" +:+ "%J" +:+ ".log")) = Some "/data/12.log"
  ∧ _resolve_log 12 (Some (path_join "/data" "jip-%J.out")) = Some "/data/jip-12.out".
Proof.
  destruct (log_paths_resolve 12 "/data") as (H1 & _ & H3 & H4).
  split; [by apply H1|]. split; [by rewrite H3|]. by rewrite H4.
Defined.

(** ** The facade over its lifetime *)

(** X17: [start] launches the master once: a second call changes nothing.
    On a facade with a master and open queues, [shutdown] and [wait] send
    [EXIT] and [WAIT] and then wait in [join()]: they block if the master
    does not come to an end.  If it does, [shutdown] leaves a facade that
    knows no master, on which a further [shutdown] does nothing and
    [submit] raises [SubmissionError]; [wait] leaves a facade that still
    holds the master process but has closed its queues, so that every
    later call that sends a message fails on the closed queue without
    sending anything: [list], [cancel], [wait], [shutdown], and [submit]
    unless it has failed on its dependency ids before. *)
Theorem facade_lifecycle (c : LocalCluster) (getcwd : string) (job : PipelineJob) :
  LocalCluster_start (LocalCluster_start c) = LocalCluster_start c
  ∧ is_Some (master_process (LocalCluster_start c))
  ∧ master_requests (LocalCluster_start c) = master_requests c
  ∧ (is_Some (master_process c) → queues_closed c = false →
     LocalCluster_shutdown false c = (requests_put EXIT c, Blocks)
     ∧ ∃ c', LocalCluster_shutdown true c = (c', Returns tt)
             ∧ master_requests c' = master_requests c ++ [EXIT]
             ∧ master_process c' = None
             ∧ (∀ master_ends, LocalCluster_shutdown master_ends c' = (c', Returns tt))
             ∧ (∃ msg, LocalCluster_submit getcwd job c'
                       = (c', Raises (SubmissionError msg))))
  ∧ (is_Some (master_process c) → queues_closed c = false →
     LocalCluster_wait false c = (requests_put WAIT c, Blocks)
     ∧ ∃ c', LocalCluster_wait true c = (c', Returns tt)
             ∧ master_requests c' = master_requests c ++ [WAIT]
             ∧ master_process c' = master_process c
             ∧ (∃ e, LocalCluster_submit getcwd job c' = (c', Raises e)
                     ∧ (e = AssertionError ∨ e = TypeError))
             ∧ LocalCluster_list c' = (c', Raises AssertionError)
             ∧ LocalCluster_cancel job c' = (c', Raises AssertionError)
             ∧ (∀ master_ends,
                  LocalCluster_shutdown master_ends c' = (c', Raises AssertionError)
                  ∧ LocalCluster_wait master_ends c' = (c', Raises AssertionError))).
Proof.
  split; [|split; [|split; [|split]]].
  - unfold LocalCluster_start. by destruct (master_process c) eqn:E; simpl; rewrite ?E.
  - unfold LocalCluster_start. destruct (master_process c) eqn:E; simpl; rewrite ?E; eauto.
  - unfold LocalCluster_start. by destruct (master_process c).
  - intros [m Hm] Hopen. unfold LocalCluster_shutdown at 1 2. rewrite Hm, Hopen.
    split; [done|]. eexists. split; [reflexivity|]. simpl.
    repeat (split; [done|]). unfold LocalCluster_submit. simpl. eauto.
  - intros [m Hm] Hopen. unfold LocalCluster_wait at 1 2. rewrite Hm, Hopen.
    split; [done|]. eexists. split; [reflexivity|]. simpl.
    repeat (split; [done|]). split; [|done].
    unfold LocalCluster_submit. simpl.
    destruct (collect_deps _ _); eauto.
Qed.

Lemma facade_lifecycle_witness :
  (∃ c', LocalCluster_shutdown true cluster_answered = (c', Returns tt)
         ∧ master_requests c' = [EXIT] ∧ master_process c' = None)
  ∧ (∃ c', LocalCluster_wait true cluster_answered = (c', Returns tt)
           ∧ master_process c' = Some (GridMasterProcess "grid-master")
           ∧ LocalCluster_list c' = (c', Raises AssertionError)
           ∧ LocalCluster_shutdown true c' = (c', Raises AssertionError)).
Proof.
  destruct (facade_lifecycle cluster_answered "/home" pipeline_job) as (_ & _ & _ & H4 & H5).
  destruct H4 as (_ & c1 & H41 & H42 & H43 & _); [by eexists|reflexivity|].
  destruct H5 as (_ & c2 & H51 & _ & H53 & _ & H55 & _ & H57); [by eexists|reflexivity|].
  split.
  - exists c1. split; [exact H41|]. split; [exact H42|exact H43].
  - exists c2. split; [exact H51|]. split; [exact H53|]. split; [exact H55|].
    apply (H57 true).
Defined.

(** ** What [submit] sends *)




(** ** A submitted job that can start does start *)

Lemma _handle_submit_returns depth job s s' :
  _handle_submit depth job s = (s', Ok true) →
  let id := _current_id s + 1 in
  let job' := set_stderr (_resolve_log id (stderr job))
                (set_stdout (_resolve_log id (stdout job))
                   (set_job_id (Some id) job)) in
  ∃ s1,
    relinked (set_queued (<[id := job']> (queued s)) (set_current_id id s)) s1
    ∧ ((1 <=? slots_available s1) = true
       ∧ schedule depth (set_response (response s1 ++ [ReplyId id]) s1) = (s', Ok tt)
       ∨ (1 <=? slots_available s1) = false
         ∧ s' = set_response (response s1 ++ [ReplyId id]) s1).
Proof.
  intros H id job'.
  destruct (register_loop_run id (elements (dependencies job'))
              (set_queued (<[id := job']> (queued s)) (set_current_id id s)))
    as (s1 & Hloop & Hrel & _).
  exists s1. split; [exact Hrel|].
  unfold _handle_submit in H. rewrite (bind_Ok _ _ _ _ _ (_next_id_run s)) in H.
  unfold bind at 1, modify at 1 in H. simpl in H. fold id job' in H.
  rewrite (bind_Ok _ _ _ _ _ Hloop) in H.
  unfold bind at 1, response_put, modify at 1 in H. simpl in H.
  unfold bind at 1, get at 1 in H. simpl in H. unfold bind, ret in H.
  destruct (1 <=? slots_available s1).
  - left. split; [done|].
    destruct (schedule depth _) as [s2 [[]|e]]; [|done]. by injection H as <-.
  - right. split; [done|]. by injection H as <-.
Qed.

(** X19: When the submit handler returns for a job without dependencies, the
    job runs, or it is queued and needs more threads than there are free
    slots.  Every job is taken to need at least one thread. *)
Theorem submit_starts_job_that_fits (depth : nat) (job : _Job) (s s' : _GridMaster) :
  shape s →
  (∀ k j, queued s !! k = Some j → 1 ≤ threads j) →
  1 ≤ threads job → dependencies job = ∅ →
  _handle_submit depth job s = (s', Ok true) →
  let id := _current_id s + 1 in
  is_Some (running s' !! id)
  ∨ (is_Some (queued s' !! id) ∧ slots_available s' < threads job).
Proof.
  intros Hs Hpos Hjob Hdeps H id.
  destruct (_handle_submit_returns _ _ _ _ H) as (s1 & Hrel & Hcase).
  fold id in Hrel, Hcase.
  set (job' := set_stderr _ (set_stdout _ (set_job_id (Some id) job))) in Hrel.
  destruct (submit_queued_preserves s job' Hs eq_refl) as (Hs0 & _).
  destruct (relinked_preserves _ _ Hrel) as (Hs1 & _). specialize (Hs1 Hs0).
  assert (HB : ∃ B, queued s1 !! id = Some B ∧ dependencies B = ∅
                    ∧ threads B = threads job).
  { pose proof (relinked_queued _ _ Hrel id) as HR. simpl in HR.
    rewrite lookup_insert_eq in HR. inversion HR as [j0 B [EB _] Hj0 HB|]; subst j0.
    exists B. split; [done|]. rewrite EB. by split. }
  destruct HB as (B & HB & HdB & HtB).
  assert (Hpos1 : ∀ k j, queued s1 !! k = Some j → 1 ≤ threads j).
  { intros k j' Hj'. pose proof (relinked_queued _ _ Hrel k) as HR. rewrite Hj' in HR.
    inversion HR as [j ? [-> _] Hj|]; subst. simpl. symmetry in Hj. simpl in Hj.
    destruct (decide (id = k)) as [<-|Hne].
    - rewrite lookup_insert_eq in Hj. by injection Hj as <-.
    - rewrite lookup_insert_ne in Hj by done. by apply (Hpos k). }
  destruct Hcase as [[_ Hsched]|[Hno ->]].
  - destruct (schedule_exhausts _ _ _ Hsched Hpos1) as [Hfull _].
    apply schedule_promotions in Hsched.
    destruct (promotions_track _ _ Hsched) as (_ & _ & I3 & _).
    { apply (shape_keys _ (shape_set_response _ _ Hs1)). }
    destruct (I3 id B HB) as [Hq|Hr]; [right|left; eauto].
    split; [eauto|]. rewrite <-HtB. by apply (Hfull id).
  - right. split; [simpl; eauto|]. simpl. apply Z.leb_gt in Hno. lia.
Qed.

Lemma submit_starts_job_that_fits_witness :
  is_Some (running master_a_submitted !! 1)
  ∨ (is_Some (queued master_a_submitted !! 1)
     ∧ slots_available master_a_submitted < threads job_a).
Proof.
  apply (submit_starts_job_that_fits 10 job_a (create_master ascending 1)).
  - apply shape_init.
  - intros k j Hk. simpl in Hk. by rewrite lookup_empty in Hk.
  - vm_compute. discriminate.
  - reflexivity.
  - vm_compute. reflexivity.
Defined.

(** ** What can go wrong in a handler *)

Lemma schedule_raises depth s s' e :
  schedule depth s = (s', Raise e) → e = RecursionError.
Proof.
  revert s. induction depth as [|depth IH]; intros s; simpl; [by intros [= _ <-]|].
  unfold bind, get. rewrite schedule_scan_run.
  destruct (first_fit _ _); [|done]. destruct (1 <=? _); [apply IH|done].
Qed.

Lemma _update_dependencies_returns job s :
  ∃ s', _update_dependencies job s = (s', Ok tt) ∧ pruned s s'.
Proof.
  destruct (update_loop_run (job_id job) (elements (children job)) s)
    as (s' & Hrun & Hp & _). by exists s'.
Qed.

Lemma remove_child_pruned depth c s s' r :
  remove_child depth c s = (s', r) → pruned s s'.
Proof.
  unfold remove_child, bind at 1, get. simpl.
  destruct (queued s !! c) as [child|]; [|intros [= <- _]; reflexivity].
  unfold bind. intros H.
  destruct (_remove_children depth child s) as [t1 [[]|e]] eqn:H1;
    apply _remove_children_pruned in H1; [|by injection H as <- _].
  destruct (_update_dependencies child t1) as [t2 [[]|e]] eqn:H2;
    apply _update_dependencies_pruned in H2;
    [|injection H as <- _; by etransitivity].
  apply del_queued_pruned in H. by repeat (etransitivity; [eassumption|]).
Qed.

(** With children stored under larger ids than their parents, the cascade
    fails only for want of frames. *)
Lemma remove_child_loop_raises depth l s s' e :
  (∀ child t t' e, children_later (queued t) →
                   _remove_children depth child t = (t', Raise e) → e = RecursionError) →
  children_later (queued s) →
  for_each l (remove_child depth) s = (s', Raise e) → e = RecursionError.
Proof.
  intros IH. revert s. induction l as [|c l IHl]; intros s Hlater H; simpl in H; [done|].
  unfold bind in H. destruct (remove_child depth c s) as [s1 [[]|e1]] eqn:Hc.
  - apply (IHl s1); [|done].
    apply (children_later_pruned s); [|done]. by eapply remove_child_pruned.
  - injection H as <- <-.
    unfold remove_child, bind at 1, get in Hc.
    destruct (queued s !! c) as [child|] eqn:Hq; [|done].
    unfold bind in Hc.
    destruct (_remove_children depth child s) as [sa [[]|ea]] eqn:Ha.
    + pose proof (_remove_children_cascaded _ _ _ _ Ha) as Hca.
      rewrite _update_dependencies_idle in Hc.
      2:{ intros x Hx. destruct (queued s !! x) as [j|] eqn:Hx0.
          - apply (Hca x). apply qd_child; [done|eauto].
          - destruct (queued sa !! x) as [j|] eqn:Hxa; [|done].
            apply (Hca x) in Hxa. congruence. }
      unfold del_queued, bind, get in Hc.
      destruct (queued sa !! c) as [j|] eqn:Hca'; [done|].
      destruct (proj1 (proj2 (Hca c)) Hca') as [?|Hd]; [congruence|].
      apply (queued_descendant_later _ _ c) in Hd; [lia|done|].
      intros x Hx. by apply (Hlater c child).
    + injection Hc as _ <-. by eapply IH.
Qed.

Lemma _remove_children_raises depth job s s' e :
  children_later (queued s) →
  _remove_children depth job s = (s', Raise e) → e = RecursionError.
Proof.
  revert job s s' e. induction depth as [|depth IH]; intros job s s' e Hlater H.
  - by injection H as _ <-.
  - rewrite _remove_children_unfold in H. eapply remove_child_loop_raises; [|done..].
    intros child t t' e'. apply IH.
Qed.

(** ** What the handlers can raise *)

Lemma schedule_then depth (k : M bool) s :
  (∀ t, k t = (t, Ok true)) →
  ∃ s' r, (schedule depth ;; k) s = (s', r)
          ∧ (r = Ok true ∨ r = Ok false ∨ r = Raise RecursionError).
Proof.
  intros Hk. unfold bind. destruct (schedule depth s) as [t [[]|e]] eqn:E.
  - rewrite Hk. eauto.
  - apply schedule_raises in E as ->. eauto 6.
Qed.

Lemma cancel_tail_then depth job s :
  children_later (queued s) →
  ∃ s' r, (_update_dependencies job ;; _remove_children depth job ;;
           schedule depth ;; ret true) s = (s', r)
          ∧ (r = Ok true ∨ r = Ok false ∨ r = Raise RecursionError).
Proof.
  intros Hlater.
  destruct (_update_dependencies_returns job s) as (sa & Hu & Hpa).
  rewrite (bind_Ok _ _ _ _ _ Hu). unfold bind at 1.
  destruct (_remove_children depth job sa) as [s1 [[]|e]] eqn:Hc.
  - by apply schedule_then.
  - apply _remove_children_raises in Hc as ->; [eauto 6|].
    by apply (children_later_pruned s).
Qed.

(** X20: On a state whose running jobs hold their worker processes and
    whose queued jobs have their children under larger ids, a handler other
    than the failure handler returns, or stops because the recursion limit
    is reached: it raises neither [KeyError] nor [AttributeError].  A
    cancel message is taken to carry an integer id. *)
Theorem handlers_fail_only_for_depth (depth : nat) (msg : Msg) (s : _GridMaster) :
  running_ok s → children_later (queued s) →
  (∀ id error, msg ≠ FAILED id error) → msg ≠ CANCEL None →
  ∃ s' r, dispatch depth msg s = (s', r)
          ∧ (r = Ok true ∨ r = Ok false ∨ r = Raise RecursionError).
Proof.
  intros Hrun Hlater Hnf Hnc.
  destruct msg as [| |job| |id state|id error|[id|]]; simpl.
  - unfold _handle_exit, bind at 1, get.
    assert (Hall : Forall (λ kj : Z * _Job, is_Some (process kj.2))
                     (iteritems (dict_order s) (running s))).
    { apply Forall_forall. intros [k j] Hin. apply elem_of_iteritems in Hin.
      destruct (Hrun k j Hin) as [_ Hp]. simpl. rewrite Hp. eauto. }
    rewrite (bind_Ok _ _ _ _ _ (exit_loop_run _ s Hall)). unfold ret. eauto 6.
  - eexists _, _. split; [reflexivity|by left].
  - destruct (_handle_submit depth job s) as [s' r] eqn:E.
    destruct (_handle_submit_steps _ _ _ _ _ E) as (_ & _ & _ & _ & [->| ->]); eauto 6.
  - unfold _handle_wait, bind, get.
    destruct (negb (wait_mode s)); eexists _, _; (split; [reflexivity|by left]).
  - unfold _handle_done, bind at 1, get.
    destruct (running s !! id) as [job|] eqn:Hr; [|eexists _, _; split; [reflexivity|by left]].
    destruct (Hrun id job Hr) as [Hid Hp].
    unfold bind at 1, process_join. rewrite Hp. unfold emit, modify. simpl.
    unfold bind at 1. simpl. unfold bind at 1, add_slots, modify. simpl.
    set (s0 := set_slots_available _ _).
    destruct (_update_dependencies_returns (set_process None job) s0) as (sa & Hu & Hpa).
    rewrite (bind_Ok _ _ _ _ _ Hu).
    assert (Hla : children_later (queued sa)) by (by apply (children_later_pruned s0)).
    assert (Hdel : ∀ t, pruned sa t →
              ∃ s' r, (del_running id ;; schedule depth ;; ret true) t = (s', r)
                      ∧ (r = Ok true ∨ r = Ok false ∨ r = Raise RecursionError)).
    { intros t Hpt. unfold bind at 1, del_running, bind at 1, get.
      assert (Hrt : running t = <[id := set_process None job]> (running s)).
      { by rewrite (pruned_running _ _ Hpt), (pruned_running _ _ Hpa). }
      rewrite Hrt, lookup_insert_eq. unfold modify.
      by apply schedule_then. }
    destruct (negb (state =? 0)).
    + unfold bind at 1.
      destruct (_remove_children depth (set_process None job) sa) as [s1 [[]|e]] eqn:Hc.
      * apply Hdel. by eapply _remove_children_pruned.
      * apply _remove_children_raises in Hc as ->; [eauto 6|done].
    + unfold bind at 1, ret. by apply Hdel.
  - by destruct (Hnf id error).
  - unfold _handle_cancel, bind at 1, ret. unfold bind at 1, get.
    destruct (running s !! id) as [job|] eqn:Hr.
    + destruct (Hrun id job Hr) as [Hid Hp].
      unfold bind at 1, bind at 1, process_terminate. rewrite Hp.
      unfold emit, modify. simpl.
      unfold bind at 1, process_join. rewrite Hp. unfold emit, modify. simpl.
      unfold bind at 1, add_slots, modify. simpl.
      unfold bind at 1, del_running, bind at 1, get. simpl. rewrite Hr. unfold modify, ret.
      by apply cancel_tail_then.
    + destruct (queued s !! id) as [job|] eqn:Hq.
      * unfold bind at 1, bind at 1, del_queued, bind at 1, get. rewrite Hq.
        unfold modify, ret. apply cancel_tail_then. simpl.
        eapply children_later_sub; [|exact Hlater].
        intros k j Hk. by apply lookup_delete_Some in Hk as [_ Hk].
      * unfold bind, ret. eauto 6.
  - done.
Qed.

Lemma handlers_fail_only_for_depth_witness :
  ∃ s' r, dispatch 1 (CANCEL (Some 1)) master_chain = (s', r)
          ∧ (r = Ok true ∨ r = Ok false ∨ r = Raise RecursionError).
Proof.
  apply handlers_fail_only_for_depth.
  - assert (H : map_Forall (λ k j, job_id j = Some k ∧ process j = Some (worker k))
                  (running master_chain)).
    { apply (bool_decide_unpack _). vm_compute. exact I. }
    intros k j Hk. by apply (H k j).
  - apply children_later_check, (bool_decide_unpack _). vm_compute. exact I.
  - discriminate.
  - discriminate.
Defined.

(** ** A cancel request without an id *)

Lemma start_awaits depth msgs s0 s rest :
  start depth msgs s0 = (s, rest, AwaitsMessage) →
  wait_mode s && (_num_jobs s =? 0)%nat = false ∧ rest = [].
Proof.
  revert s0. induction msgs as [|msg msgs IH]; intros s0; simpl.
  - destruct (wait_mode s0 && (_num_jobs s0 =? 0)%nat) eqn:Hd; [done|].
    by intros [= <- <-].
  - destruct (wait_mode s0 && (_num_jobs s0 =? 0)%nat) eqn:Hd; [done|].
    destruct (dispatch depth msg s0) as [s2 [[]|err]]; [apply IH|done..].
Qed.

(** X21: [cancel] on a facade with a master and open queues passes the
    [job_id] of the job on as it is.  For a job that was never submitted
    this is [None]: the call returns, and the master, which has handled
    all earlier requests and waits for the next, fails on [int(None)]
    with a [TypeError] and leaves its loop.  Its state is as before, so
    the jobs it was running are neither terminated nor removed. *)
Theorem cancel_of_unsubmitted_job_stops_master (depth : nat) (job : PipelineJob)
    (c : LocalCluster) (s0 s : _GridMaster) :
  master_process c ≠ None → queues_closed c = false →
  to_int (pj_job_id job) = None →
  start depth (master_requests c) s0 = (s, [], AwaitsMessage) →
  ∃ c', LocalCluster_cancel job c = (c', Returns tt)
        ∧ master_requests c' = master_requests c ++ [CANCEL None]
        ∧ start depth (master_requests c') s0 = (s, [], HandlerRaised TypeError).
Proof.
  intros Hm Hopen Hid Hrun. unfold LocalCluster_cancel.
  destruct (master_process c); [|done]. rewrite Hopen, Hid.
  eexists. split; [reflexivity|]. split; [reflexivity|]. simpl.
  destruct (start_append depth _ [CANCEL None] _ _ _ _ Hrun) as [Ha _].
  rewrite (Ha eq_refl). apply start_awaits in Hrun as [Hd _]. simpl. by rewrite Hd.
Qed.

Lemma cancel_of_unsubmitted_job_stops_master_witness :
  ∃ c', LocalCluster_cancel pipeline_job
          (requests_put (SUBMIT job_b) (requests_put (SUBMIT job_a) cluster_answered))
        = (c', Returns tt)
        ∧ master_requests c' = [SUBMIT job_a; SUBMIT job_b] ++ [CANCEL None]
        ∧ start 10 (master_requests c') (create_master ascending 1)
          = (master_a_running, [], HandlerRaised TypeError).
Proof.
  apply (cancel_of_unsubmitted_job_stops_master 10 pipeline_job
           (requests_put (SUBMIT job_b) (requests_put (SUBMIT job_a) cluster_answered))
           (create_master ascending 1) master_a_running).
  - discriminate.
  - reflexivity.
  - reflexivity.
  - vm_compute. reflexivity.
Defined.

(** ** The handlers return when the recursion limit is large enough *)

Lemma pruned_keys_ok s s' : pruned s s' → keys_ok s → keys_ok s'.
Proof.
  intros Hp Hk k j' Hj'. destruct (pruned_queued _ _ Hp k j' Hj') as (j & Hj & Ej & _).
  rewrite Ej. simpl. by apply (Hk k).
Qed.

Lemma pruned_size s s' : pruned s s' → (size (queued s') ≤ size (queued s))%nat.
Proof.
  intros Hp. rewrite <-!size_dom. apply subseteq_size. intros k.
  rewrite !elem_of_dom. by apply pruned_sub.
Qed.

Lemma schedule_returns depth s :
  keys_ok s → (size (queued s) < depth)%nat → ∃ s', schedule depth s = (s', Ok tt).
Proof.
  revert s. induction depth as [|depth IH]; intros s Hk Hsize; [lia|].
  simpl. unfold bind, get. rewrite schedule_scan_run.
  destruct (first_fit _ _) as [job|] eqn:Hfit; [|by exists s].
  assert (Hstep : promotion s (promoted job s)) by (by exists job).
  destruct (promotion_keyed _ _ Hk Hstep) as (k & job' & Hq & _ & _ & _ & _ & Hq' & _).
  destruct (1 <=? slots_available (promoted job s)); [|by eexists].
  apply IH; [by eapply promotion_keys_ok|].
  rewrite Hq', map_size_delete_Some by eauto.
  assert (size (queued s) ≠ 0%nat); [|lia].
  intros H0. apply map_size_empty_inv in H0. by rewrite H0, lookup_empty in Hq.
Qed.

Lemma schedule_then_returns depth s :
  keys_ok s → (size (queued s) < depth)%nat →
  ∃ s', (schedule depth ;; ret true) s = (s', Ok true).
Proof.
  intros Hk Hd. destruct (schedule_returns depth s Hk Hd) as [s' H].
  exists s'. by rewrite (bind_Ok _ _ _ _ _ H).
Qed.

Lemma cancel_tail_returns depth job s :
  keys_ok s → children_later (queued s) → (size (queued s) < depth)%nat →
  ∃ s', (_update_dependencies job ;; _remove_children depth job ;;
         schedule depth ;; ret true) s = (s', Ok true).
Proof.
  intros Hk Hlater Hd.
  destruct (_update_dependencies_returns job s) as (sa & Hu & Hpa).
  rewrite (bind_Ok _ _ _ _ _ Hu).
  pose proof (pruned_size _ _ Hpa) as Hsa.
  destruct (_remove_children_returns depth job sa) as [s1 Hc];
    [by apply (children_later_pruned s)|lia|].
  rewrite (bind_Ok _ _ _ _ _ Hc).
  pose proof (_remove_children_pruned _ _ _ _ _ Hc) as Hp1.
  pose proof (pruned_size _ _ Hp1).
  apply schedule_then_returns; [|lia].
  by apply (pruned_keys_ok sa), (pruned_keys_ok s).
Qed.

(** X22: On a state whose queued jobs are stored under their ids and have their
    children under larger ids, and whose running jobs hold their worker
    processes, every handler but the failure handler returns as soon as
    the recursion limit exceeds the number of queued jobs by more than
    one; only [EXIT] makes the loop stop.  A cancel message is taken to
    carry an integer id. *)
Theorem handlers_return_within_limit (depth : nat) (msg : Msg) (s : _GridMaster) :
  keys_ok s → running_ok s → children_later (queued s) →
  (size (queued s) + 1 < depth)%nat →
  (∀ id error, msg ≠ FAILED id error) → msg ≠ CANCEL None →
  ∃ s' b, dispatch depth msg s = (s', Ok b) ∧ (b = false ↔ msg = EXIT).
Proof.
  intros Hk Hrun Hlater Hdepth Hnf Hnc.
  assert (Htrue : ∀ m, m ≠ EXIT → true = false ↔ m = EXIT) by (by split).
  destruct msg as [| |job| |id state|id error|[id|]]; simpl.
  - unfold _handle_exit, bind at 1, get.
    assert (Hall : Forall (λ kj : Z * _Job, is_Some (process kj.2))
                     (iteritems (dict_order s) (running s))).
    { apply Forall_forall. intros [k j] Hin. apply elem_of_iteritems in Hin.
      destruct (Hrun k j Hin) as [_ Hp]. simpl. rewrite Hp. eauto. }
    rewrite (bind_Ok _ _ _ _ _ (exit_loop_run _ s Hall)). unfold ret. by eexists _, _.
  - eexists _, _. split; [reflexivity|by apply Htrue].
  - set (id := _current_id s + 1).
    set (job' := set_stderr (_resolve_log id (stderr job))
                   (set_stdout (_resolve_log id (stdout job))
                      (set_job_id (Some id) job))).
    destruct (register_loop_run id (elements (dependencies job'))
                (set_queued (<[id := job']> (queued s)) (set_current_id id s)))
      as (s1 & Hloop & Hrel & _).
    unfold _handle_submit. rewrite (bind_Ok _ _ _ _ _ (_next_id_run s)).
    unfold bind at 1, modify at 1. simpl. fold id job'.
    rewrite (bind_Ok _ _ _ _ _ Hloop).
    unfold bind at 1, response_put, modify at 1. simpl.
    unfold bind at 1, get at 1. simpl.
    destruct (1 <=? slots_available s1).
    + destruct (schedule_returns depth (set_response (response s1 ++ [ReplyId id]) s1))
        as [s' Hsched].
      * apply (relinked_keys_ok _ _ Hrel). intros k j. simpl.
        destruct (decide (id = k)) as [<-|Hne].
        -- rewrite lookup_insert_eq. by intros [= <-].
        -- rewrite lookup_insert_ne by done. apply Hk.
      * simpl. rewrite (relinked_size _ _ Hrel). simpl.
        destruct (queued s !! id) eqn:E.
        -- rewrite map_size_insert_Some by eauto. lia.
        -- rewrite map_size_insert_None by done. lia.
      * rewrite (bind_Ok _ _ _ _ _ Hsched). unfold ret.
        eexists _, _. split; [reflexivity|by apply Htrue].
    + unfold bind, ret. eexists _, _. split; [reflexivity|by apply Htrue].
  - unfold _handle_wait, bind, get.
    destruct (negb (wait_mode s)); eexists _, _; (split; [reflexivity|by apply Htrue]).
  - unfold _handle_done, bind at 1, get.
    destruct (running s !! id) as [job|] eqn:Hr;
      [|eexists _, _; split; [reflexivity|by apply Htrue]].
    destruct (Hrun id job Hr) as [Hid Hp].
    unfold bind at 1, process_join. rewrite Hp. unfold emit, modify. simpl.
    unfold bind at 1. simpl. unfold bind at 1, add_slots, modify. simpl.
    set (s0 := set_slots_available _ _).
    destruct (_update_dependencies_returns (set_process None job) s0) as (sa & Hu & Hpa).
    rewrite (bind_Ok _ _ _ _ _ Hu).
    assert (Hla : children_later (queued sa)) by (by apply (children_later_pruned s0)).
    assert (Hka : keys_ok sa) by (by apply (pruned_keys_ok s0)).
    pose proof (pruned_size _ _ Hpa) as Hsa. simpl in Hsa.
    assert (Hdel : ∀ t, pruned sa t →
              ∃ s' b, (del_running id ;; schedule depth ;; ret true) t = (s', Ok b)
                      ∧ (b = false ↔ DONE id state = EXIT)).
    { intros t Hpt. unfold bind at 1, del_running, bind at 1, get.
      assert (Hrt : running t = <[id := set_process None job]> (running s)).
      { by rewrite (pruned_running _ _ Hpt), (pruned_running _ _ Hpa). }
      rewrite Hrt, lookup_insert_eq. unfold modify.
      pose proof (pruned_size _ _ Hpt).
      destruct (schedule_then_returns depth
                  (set_running (delete id (<[id:=set_process None job]> (running s))) t))
        as [s' Hs']; [exact (pruned_keys_ok sa t Hpt Hka)|simpl; lia|].
      exists s', true. split; [exact Hs'|by apply Htrue]. }
    destruct (negb (state =? 0)).
    + destruct (_remove_children_returns depth (set_process None job) sa) as [s1 Hc];
        [done|lia|].
      rewrite (bind_Ok _ _ _ _ _ Hc). apply Hdel. by eapply _remove_children_pruned.
    + unfold bind at 1, ret. by apply Hdel.
  - by destruct (Hnf id error).
  - assert (Htail : ∀ job t, keys_ok t → children_later (queued t) →
                      (size (queued t) < depth)%nat →
              ∃ s' b, (_update_dependencies job ;; _remove_children depth job ;;
                       schedule depth ;; ret true) t = (s', Ok b)
                      ∧ (b = false ↔ CANCEL (Some id) = EXIT)).
    { intros job t H1 H2 H3. destruct (cancel_tail_returns depth job t H1 H2 H3) as [s' Hs'].
      exists s', true. split; [exact Hs'|by apply Htrue]. }
    unfold _handle_cancel, bind at 1, ret. unfold bind at 1, get.
    destruct (running s !! id) as [job|] eqn:Hr.
    + destruct (Hrun id job Hr) as [Hid Hp].
      unfold bind at 1, bind at 1, process_terminate. rewrite Hp.
      unfold emit, modify. simpl.
      unfold bind at 1, process_join. rewrite Hp. unfold emit, modify. simpl.
      unfold bind at 1, add_slots, modify. simpl.
      unfold bind at 1, del_running, bind at 1, get. simpl. rewrite Hr. unfold modify, ret.
      apply Htail; [done|done|simpl; lia].
    + destruct (queued s !! id) as [job|] eqn:Hq.
      * unfold bind at 1, bind at 1, del_queued, bind at 1, get. rewrite Hq.
        unfold modify, ret. apply Htail.
        -- intros k j. simpl. intros Hkj. apply lookup_delete_Some in Hkj as [_ Hkj].
           by apply (Hk k).
        -- simpl. eapply children_later_sub; [|exact Hlater].
           intros k j Hkj. by apply lookup_delete_Some in Hkj as [_ Hkj].
        -- simpl. rewrite map_size_delete_Some by eauto. lia.
      * unfold bind, ret. eexists _, _. split; [reflexivity|by apply Htrue].
  - done.
Qed.

Lemma handlers_return_within_limit_witness :
  ∃ s' b, dispatch 5 (DONE 1 1) master_chain = (s', Ok b)
          ∧ (b = false ↔ DONE 1 1 = EXIT).
Proof.
  apply handlers_return_within_limit.
  - apply keys_ok_check, (bool_decide_unpack _). vm_compute. exact I.
  - assert (H : map_Forall (λ k j, job_id j = Some k ∧ process j = Some (worker k))
                  (running master_chain)).
    { apply (bool_decide_unpack _). vm_compute. exact I. }
    intros k j Hk. by apply (H k j).
  - apply children_later_check, (bool_decide_unpack _). vm_compute. exact I.
  - vm_compute. lia.
  - discriminate.
  - discriminate.
Defined.
